(** * Bin packing for Illustrator and InDesign: the packing core

    A shallow embedding of [Packer.js] (the free-region packer),
    of [Block] and [Attempt] from [packer-blocks.js], and of the attempts
    loop of [packItemsIllustrator] ([packItemsIndesign] has the same loop).

    Modelling conventions.
    - Lengths and coordinates are exact integers ([Z]) in the embedding of
      the run: its lists, counts, loops and bookkeeping do not depend on
      rounding.  Where a block is accepted and where it ends do: the packing
      core is embedded a second time over the host's IEEE doubles, in the
      module [Double].
    - A property that is [undefined] in the script is [None].
    - A JavaScript array is a [list]; an array that can hold [null] is a
      [list (option _)], read with [!!] and written with [<[i:=x]>].
    - Every block of a list is a distinct object: the script builds each
      with [new Block], so a list of records stands for the array. *)

From Stdlib Require Import ZArith QArith Lia String.
From Stdlib Require Floats.SpecFloat.
From stdpp Require Import base list.

#[local] Open Scope Z_scope.

(** ** Data *)

(** A heap block (free region), [{x0, y0, x1, y1}]. *)
Module HeapBlock.
Record t : Type := mk { x0 : Z; y0 : Z; x1 : Z; y1 : Z }.
End HeapBlock.

(** The two dimension sets of a block, [{w, h, dx, dy}]. *)
Module Dimensions.
Record t : Type := mk { w : Z; h : Z; dx : Z; dy : Z }.
End Dimensions.

(** A [Block].  The host objects [item] and [doc] are left out: [index]
    identifies the item.  [x0], [y0], [x1], [y1] and [packed] are assigned by
    [findInHeap] only, [binIndex] by [fit] only. *)
Record Block : Type := mkBlock {
  index : nat;
  padding : Z;
  margin : Z;
  isRotated : bool;
  binIndex : option nat;
  w : Z;
  h : Z;
  dx : Z;
  dy : Z;
  dimensions : Dimensions.t;
  rotatedDimensions : Dimensions.t;
  x0 : option Z;
  y0 : option Z;
  x1 : option Z;
  y1 : option Z;
  packed : bool
}.

(** What the host reports about a page item when its block is built: the
    bounds returned by [getItemBounds] and the item's own position. *)
Record Item : Type := mkItem {
  bounds : Z * Z * Z * Z;
  left : Z;
  top : Z;
  geometricBounds : Z * Z * Z * Z;
  visibleBounds : Z * Z * Z * Z
}.

Inductive App : Type := Illustrator | Indesign.

Definition b4_0 (b : Z * Z * Z * Z) : Z := let '(a, _, _, _) := b in a.
Definition b4_1 (b : Z * Z * Z * Z) : Z := let '(_, a, _, _) := b in a.
Definition b4_2 (b : Z * Z * Z * Z) : Z := let '(_, _, a, _) := b in a.
Definition b4_3 (b : Z * Z * Z * Z) : Z := let '(_, _, _, a) := b in a.

(** ** Block *)

(** [Block.prototype.rotate]: swap the block between 0 and 90 degrees. *)
Definition rotate (b : Block) : Block :=
  if w b =? h b then b
  else
    let r := negb (isRotated b) in
    let d := if r then rotatedDimensions b else dimensions b in
    mkBlock (index b) (padding b) (margin b) r (binIndex b)
            (Dimensions.w d) (Dimensions.h d) (Dimensions.dx d) (Dimensions.dy d)
            (dimensions b) (rotatedDimensions b)
            (x0 b) (y0 b) (x1 b) (y1 b) (packed b).

(** The constructor [Block(settings, item, index)]; of [settings] it reads
    [padding], [margin] and [forceRotate]. *)
Definition Block_new (app : App) (s_padding s_margin : Z) (forceRotate : bool)
    (item : Item) (idx : nat) : Block :=
  let bs := bounds item in
  let '(bw, bh, bdx, bdy) :=
    match app with
    | Illustrator =>
        (b4_2 bs - b4_0 bs + s_padding, b4_1 bs - b4_3 bs + s_padding,
         left item - b4_0 bs, top item - b4_1 bs)
    | Indesign =>
        (b4_3 bs - b4_1 bs + s_padding, b4_2 bs - b4_0 bs + s_padding,
         b4_1 (geometricBounds item) - b4_1 bs,
         b4_0 (geometricBounds item) - b4_0 bs)
    end in
  let b :=
    mkBlock idx s_padding s_margin false None bw bh bdx bdy
            (Dimensions.mk bw bh bdx bdy)
            (Dimensions.mk bh bw (- bdy) (b4_2 (visibleBounds item) - b4_2 bs))
            None None None None false in
  if forceRotate then rotate b else b.

(** The corner-pair rectangle stored in a block by [findInHeap], when all
    four corners are defined. *)
Definition block_corners (b : Block) : option HeapBlock.t :=
  match x0 b, y0 b, x1 b, y1 b with
  | Some a, Some c, Some d, Some e => Some (HeapBlock.mk a c d e)
  | _, _, _, _ => None
  end.

(** The placement rectangle of a block: its position with its current
    width and height. *)
Definition placement (b : Block) : option HeapBlock.t :=
  match x0 b, y0 b with
  | Some a, Some c => Some (HeapBlock.mk a c (a + w b) (c + h b))
  | _, _ => None
  end.

(** Area of the intersection of two rectangles (0 when they are apart or
    only touch). *)
Definition overlap_area (r s : HeapBlock.t) : Z :=
  Z.max 0 (Z.min (HeapBlock.x1 r) (HeapBlock.x1 s) - Z.max (HeapBlock.x0 r) (HeapBlock.x0 s))
  * Z.max 0 (Z.min (HeapBlock.y1 r) (HeapBlock.y1 s) - Z.max (HeapBlock.y0 r) (HeapBlock.y0 s)).

(** ** Packer *)

(** [new Packer(w, h, allow90DegreeRotation)]: [_root] is
    [{x: 0, y: 0, w, h}].  The heap is rebuilt by every [fit] and is
    threaded through the functions below. *)
Record Packer : Type := mkPacker {
  allow90DegreeRotation : bool;
  root_w : Z;
  root_h : Z
}.

Definition Packer_new (w h : Z) (allow : bool) : Packer := mkPacker allow w h.

Definition intersect (block0 block1 : HeapBlock.t) : option HeapBlock.t :=
  let ix0 := Z.max (HeapBlock.x0 block0) (HeapBlock.x0 block1) in
  let ix1 := Z.min (HeapBlock.x1 block0) (HeapBlock.x1 block1) in
  let iy0 := Z.max (HeapBlock.y0 block0) (HeapBlock.y0 block1) in
  let iy1 := Z.min (HeapBlock.y1 block0) (HeapBlock.y1 block1) in
  if (ix0 <=? ix1) && (iy0 <=? iy1)
  then Some (HeapBlock.mk ix0 iy0 ix1 iy1)
  else None.

Definition chunkContains (heapBlock0 heapBlock1 : HeapBlock.t) : bool :=
  (HeapBlock.x0 heapBlock0 <=? HeapBlock.x0 heapBlock1)
  && (HeapBlock.y0 heapBlock0 <=? HeapBlock.y0 heapBlock1)
  && (HeapBlock.x1 heapBlock1 <=? HeapBlock.x1 heapBlock0)
  && (HeapBlock.y1 heapBlock1 <=? HeapBlock.y1 heapBlock0).

(** [expand] writes to [heapBlock1] only; the result is its new value. *)
Definition expand (heapBlock0 heapBlock1 : HeapBlock.t) : HeapBlock.t :=
  let h1 :=
    if (HeapBlock.x0 heapBlock0 <=? HeapBlock.x0 heapBlock1)
       && (HeapBlock.x1 heapBlock1 <=? HeapBlock.x1 heapBlock0)
       && (HeapBlock.y0 heapBlock1 <=? HeapBlock.y1 heapBlock0)
    then HeapBlock.mk (HeapBlock.x0 heapBlock1)
                      (Z.min (HeapBlock.y0 heapBlock0) (HeapBlock.y0 heapBlock1))
                      (HeapBlock.x1 heapBlock1)
                      (Z.max (HeapBlock.y1 heapBlock0) (HeapBlock.y1 heapBlock1))
    else heapBlock1 in
  if (HeapBlock.y0 heapBlock0 <=? HeapBlock.y0 h1)
     && (HeapBlock.y1 h1 <=? HeapBlock.y1 heapBlock0)
     && (HeapBlock.x0 h1 <=? HeapBlock.x1 heapBlock0)
  then HeapBlock.mk (Z.min (HeapBlock.x0 heapBlock0) (HeapBlock.x0 h1))
                    (HeapBlock.y0 h1)
                    (Z.max (HeapBlock.x1 heapBlock0) (HeapBlock.x1 h1))
                    (HeapBlock.y1 h1)
  else h1.

(** [unionMax]: the two heap entries as they are after the call.  The
    assignments [heapBlock1 = null] and [heapBlock0 = null] rebind the
    parameters only, so in those branches both entries are unchanged. *)
Definition unionMax (heapBlock0 heapBlock1 : option HeapBlock.t)
    : option HeapBlock.t * option HeapBlock.t :=
  match heapBlock0, heapBlock1 with
  | Some h0, Some h1 =>
      match intersect h0 h1 with
      | Some _ =>
          if chunkContains h0 h1 then (Some h0, Some h1)
          else if chunkContains h1 h0 then (Some h0, Some h1)
          else
            let h1' := expand h0 h1 in
            let h0' := expand h1' h0 in
            (Some h0', Some h1')
      | None => (Some h0, Some h1)
      end
  | _, _ => (heapBlock0, heapBlock1)
  end.

(** The body of the inner loop of [unionAll] at indices [i] and [j]. *)
Definition unionAll_body (i j : nat) (heap : list (option HeapBlock.t))
    : list (option HeapBlock.t) :=
  if decide (i = j) then heap
  else
    match heap !! i, heap !! j with
    | Some hi, Some hj =>
        let '(hi', hj') := unionMax hi hj in
        let heap1 := <[j := hj']> (<[i := hi']> heap) in
        match hi', hj' with
        | Some a, Some b =>
            if chunkContains b a then <[i := None]> heap1
            else if chunkContains a b then <[j := None]> heap1
            else heap1
        | _, _ => heap1
        end
    | _, _ => heap
    end.

(** The two nested loops of [unionAll] ([heap.length] does not change in
    them), then the removal of the nulled entries. *)
Definition unionAll_loops (heap : list (option HeapBlock.t))
    : list (option HeapBlock.t) :=
  let n := length heap in
  foldl (fun hp i => foldl (fun hp' j => unionAll_body i j hp') hp (seq 0 n))
        heap (seq 0 n).

Definition unionAll (heap : list (option HeapBlock.t)) : list HeapBlock.t :=
  omap id (unionAll_loops heap).

(** The regions pushed by [adjustHeap] for one intersected heap block, in
    the order top, right, bottom, left. *)
Definition residuals (heapBlock overlap : HeapBlock.t) : list HeapBlock.t :=
  (if HeapBlock.y1 overlap =? HeapBlock.y1 heapBlock then []
   else [HeapBlock.mk (HeapBlock.x0 heapBlock) (HeapBlock.y1 overlap)
                      (HeapBlock.x1 heapBlock) (HeapBlock.y1 heapBlock)])
  ++ (if HeapBlock.x1 overlap =? HeapBlock.x1 heapBlock then []
      else [HeapBlock.mk (HeapBlock.x1 overlap) (HeapBlock.y0 heapBlock)
                         (HeapBlock.x1 heapBlock) (HeapBlock.y1 heapBlock)])
  ++ (if HeapBlock.y0 heapBlock =? HeapBlock.y0 overlap then []
      else [HeapBlock.mk (HeapBlock.x0 heapBlock) (HeapBlock.y0 heapBlock)
                         (HeapBlock.x1 heapBlock) (HeapBlock.y0 overlap)])
  ++ (if HeapBlock.x0 heapBlock =? HeapBlock.x0 overlap then []
      else [HeapBlock.mk (HeapBlock.x0 heapBlock) (HeapBlock.y0 heapBlock)
                         (HeapBlock.x0 overlap) (HeapBlock.y1 heapBlock)]).

(** One iteration of the loop of [adjustHeap], at index [i], for a block
    whose corners are [blk]. *)
Definition adjustHeap_body (blk : HeapBlock.t) (heap : list (option HeapBlock.t))
    (i : nat) : list (option HeapBlock.t) :=
  match heap !! i with
  | Some (Some heapBlock) =>
      match intersect heapBlock blk with
      | Some overlap => <[i := None]> (heap ++ (Some <$> residuals heapBlock overlap))
      | None => heap
      end
  | _ => heap
  end.

(** [adjustHeap(block)].  The heap holds no [null] on entry ([unionAll]
    removed them).  It is called only on a block that [findInHeap] has just
    placed; with undefined corners every comparison of [intersect] would be
    false and only [unionAll] would act. *)
Definition adjustHeap (heap : list HeapBlock.t) (block : Block) : list HeapBlock.t :=
  match block_corners block with
  | Some blk =>
      unionAll (foldl (adjustHeap_body blk) (Some <$> heap) (seq 0 (length heap)))
  | None => unionAll (Some <$> heap)
  end.

(** [findInHeap(block)]: the block after the call and the returned flag.
    Over the integers [x1 - x0] and [x0 + w] are exact; [Double.findInHeap]
    has them rounded as the script does. *)
Fixpoint findInHeap (heap : list (option HeapBlock.t)) (block : Block) : Block * bool :=
  match heap with
  | [] => (block, false)
  | entry :: rest =>
      match entry with
      | Some heapBlock =>
          if (w block <=? HeapBlock.x1 heapBlock - HeapBlock.x0 heapBlock)
             && (h block <=? HeapBlock.y1 heapBlock - HeapBlock.y0 heapBlock)
          then
            (mkBlock (index block) (padding block) (margin block) (isRotated block)
                     (binIndex block) (w block) (h block) (dx block) (dy block)
                     (dimensions block) (rotatedDimensions block)
                     (Some (HeapBlock.x0 heapBlock)) (Some (HeapBlock.y0 heapBlock))
                     (Some (HeapBlock.x0 heapBlock + w block))
                     (Some (HeapBlock.y0 heapBlock + h block))
                     true,
             true)
          else findInHeap rest block
      | None => findInHeap rest block
      end
  end.

Definition set_binIndex (i : nat) (b : Block) : Block :=
  mkBlock (index b) (padding b) (margin b) (isRotated b) (Some i)
          (w b) (h b) (dx b) (dy b) (dimensions b) (rotatedDimensions b)
          (x0 b) (y0 b) (x1 b) (y1 b) (packed b).

(** The value returned by [fit]. *)
Module Result.
Record t : Type := mk {
  count : nat;
  area : Z;
  packedBlocks : list Block;
  remainingBlocks : list Block
}.
End Result.

(** The state of the loop of [fit]. *)
Record FitState : Type := mkFitState {
  fs_heap : list HeapBlock.t;
  fs_area : Z;
  fs_packedBlocks : list Block;
  fs_remainingBlocks : list Block
}.

(** What one iteration of [fit] does to the block and to the heap, before
    the test [if (block.packed)]. *)
Definition fit_place (p : Packer) (heap : list HeapBlock.t) (block : Block)
    : Block * list HeapBlock.t :=
  let '(b1, found) := findInHeap (Some <$> heap) block in
  if found then (b1, adjustHeap heap b1)
  else if allow90DegreeRotation p then
    let b2 := rotate b1 in
    let '(b3, found') := findInHeap (Some <$> heap) b2 in
    if found' then (b3, adjustHeap heap b3) else (b3, heap)
  else (b1, heap).

(** One iteration of the loop of [fit]. *)
Definition fit_body (p : Packer) (binIdx : nat) (st : FitState) (block : Block)
    : FitState :=
  let '(b, heap') := fit_place p (fs_heap st) block in
  if packed b then
    let b' := set_binIndex binIdx b in
    mkFitState heap' (fs_area st + w b' * h b')
               (fs_packedBlocks st ++ [b']) (fs_remainingBlocks st)
  else
    mkFitState heap' (fs_area st) (fs_packedBlocks st) (fs_remainingBlocks st ++ [b]).

Definition fit_init (p : Packer) : FitState :=
  mkFitState [HeapBlock.mk 0 0 (root_w p) (root_h p)] 0 [] [].

Definition fit_loop (p : Packer) (binIdx : nat) (blocks : list Block) : FitState :=
  foldl (fit_body p binIdx) (fit_init p) blocks.

(** [Packer.prototype.fit(blocks, binIndex)]. *)
Definition fit (p : Packer) (blocks : list Block) (binIdx : nat) : Result.t :=
  let st := fit_loop p binIdx blocks in
  Result.mk (length (fs_packedBlocks st)) (fs_area st)
            (fs_packedBlocks st) (fs_remainingBlocks st).

(** ** Numbers of the score

    The score is computed with divisions, and a bin in which nothing was
    packed divides by zero.  [num] is a JavaScript number without rounding:
    an exact rational, an infinity or NaN.  Zero has no sign here; the only
    divisors of the script are array lengths and sums started at [0], which
    are never the negative zero. *)
Inductive num : Type := Num (q : Q) | PosInf | NegInf | NaN.

Definition num_of_Z (z : Z) : num := Num (inject_Z z).
Definition num_of_nat (n : nat) : num := Num (inject_Z (Z.of_nat n)).

Definition num_opp (a : num) : num :=
  match a with
  | Num q => Num (Qopp q)
  | PosInf => NegInf
  | NegInf => PosInf
  | NaN => NaN
  end.

Definition num_add (a b : num) : num :=
  match a, b with
  | NaN, _ | _, NaN => NaN
  | PosInf, NegInf | NegInf, PosInf => NaN
  | PosInf, _ | _, PosInf => PosInf
  | NegInf, _ | _, NegInf => NegInf
  | Num x, Num y => Num (Qplus x y)
  end.

Definition num_sub (a b : num) : num := num_add a (num_opp b).

(** The sign of a number that is not NaN. *)
Definition num_sign (a : num) : comparison :=
  match a with
  | Num q => Qcompare q 0%Q
  | PosInf => Gt
  | NegInf => Lt
  | NaN => Eq
  end.

Definition signed_inf (s : comparison) : num :=
  match s with Gt => PosInf | Lt => NegInf | Eq => NaN end.

Definition sign_mul (s t : comparison) : comparison :=
  match s, t with
  | Eq, _ | _, Eq => Eq
  | Gt, Gt | Lt, Lt => Gt
  | _, _ => Lt
  end.

Definition num_mul (a b : num) : num :=
  match a, b with
  | NaN, _ | _, NaN => NaN
  | Num x, Num y => Num (Qmult x y)
  | _, _ => signed_inf (sign_mul (num_sign a) (num_sign b))
  end.

Definition num_div (a b : num) : num :=
  match a, b with
  | NaN, _ | _, NaN => NaN
  | Num x, Num y =>
      match Qcompare y 0%Q with
      | Eq => signed_inf (Qcompare x 0%Q)
      | _ => Num (Qdiv x y)
      end
  | Num _, _ => Num 0%Q
  | _, Num y =>
      match Qcompare y 0%Q with
      | Lt => num_opp a
      | _ => a
      end
  | _, _ => NaN
  end.

(** [a > b]. *)
Definition num_gtb (a b : num) : bool :=
  match a, b with
  | NaN, _ | _, NaN => false
  | Num x, Num y => match Qcompare x y with Gt => true | _ => false end
  | PosInf, PosInf => false
  | PosInf, _ => true
  | _, NegInf => match a with NegInf => false | _ => true end
  | _, _ => false
  end.

(** ** The host application

    What the script takes from ExtendScript and from the document. *)
Record Host : Type := mkHost {
  (** the application the script runs in *)
  app : App;
  (** [Array.prototype.sort(compareFn)] on an array of blocks *)
  array_sort : (Block -> Block -> Z) -> list Block -> list Block;
  (** the draw of [Math.random()] in attempt [a] at position [i] of
      [shuffle]; [Math.floor(Math.random() * (i + 1))] is any index from
      [0] to [i], here the draw modulo [i + 1] *)
  random : nat -> nat -> nat;
  (** [Math.floor(Math.log(n) / Math.log(2) * 5)] for [n >= 1] *)
  floor_log2_times_5 : nat -> Z;
  (** the geometry of item [j] when its block is built in attempt [a] (with
      [allowAnyRotation] the script turns the items before it measures
      them) *)
  item_at : nat -> nat -> Item
}.

(** ** Settings, bins and attempts *)

(** The settings the packing reads, lengths already in points.
    [allow90DegreeRotation], [tryHarder] and [forceRotate] are compared with
    [true] by the script, [doNotSort] is tested for truth. *)
Record Settings : Type := mkSettings {
  s_padding : Z;
  s_margin : Z;
  s_allow90DegreeRotation : bool;
  s_bestFitBy : option string;
  s_maxAttemptCount : option Z;
  s_tryHarder : bool;
  s_doNotSort : bool;
  s_forceRotate : bool
}.

(** A bin; the host's artboard object is left out. *)
Record Bin : Type := mkBin {
  bin_bounds : Z * Z * Z * Z;
  width : Z;
  height : Z
}.

Definition artboardRectToBinBounds (rect : Z * Z * Z * Z) : Z * Z * Z * Z :=
  (- b4_1 rect, b4_0 rect, - b4_3 rect, b4_2 rect).

(** The loop "make bins" of [packItemsIllustrator], over the artboard
    rectangles of the document. *)
Definition make_bins (margin padding : Z) (artboards : list (Z * Z * Z * Z)) : list Bin :=
  (fun rect =>
     let bb := artboardRectToBinBounds rect in
     let binBounds := (b4_0 bb + margin, b4_1 bb + margin, b4_2 bb - margin, b4_3 bb - margin) in
     mkBin binBounds
           (b4_3 binBounds - b4_1 binBounds + padding)
           (b4_2 binBounds - b4_0 binBounds + padding)) <$> artboards.

(** An [Attempt].  [info] keeps, for each line 'Packed c items onto
    artboard k.', the pair [(c, k)]. *)
Module Attempt.
Record t : Type := mk {
  area : Z;
  bins : list Bin;
  binCount : nat;
  count : nat;
  index : nat;
  info : list (nat * nat);
  score : num;
  packedBlocks : list Block;
  remainingBlocks : list Block;
  sortType : option string
}.
End Attempt.

Definition Attempt_new (idx : nat) (bins : list Bin) : Attempt.t :=
  Attempt.mk 0 bins (length bins) 0 idx [] (Num 0%Q) [] [] None.

(** ** Sorting *)

(** The argument [sortType] of [sortBlocks]: an attempt index or
    [Infinity]. *)
Inductive SortType : Type := SortIndex (n : nat) | SortInfinity.

Definition byArea (a b : Block) : Z := (w b * h b) - (w a * h a).
Definition byLargestDimension (a b : Block) : Z := Z.max (w b) (h b) - Z.max (w a) (h a).
Definition byWidth (a b : Block) : Z := w b - w a.
Definition byHeight (a b : Block) : Z := h b - h a.

(** The [while] loop of [sortBlocksByInterleaving]: one block of the larger
    half, then one of the smaller half, until both are used up. *)
Fixpoint interleave (largerBlocks smallerBlocks : list Block) : list Block :=
  match largerBlocks with
  | [] => smallerBlocks
  | x :: l =>
      match smallerBlocks with
      | [] => x :: interleave l []
      | y :: s => x :: y :: interleave l s
      end
  end.

Definition sortBlocksByInterleaving (H : Host) (blocks : list Block) : list Block :=
  let sorted := array_sort H byArea blocks in
  let half := Nat.div2 (S (length sorted)) in
  interleave (take half sorted) (drop half sorted).

(** [things[i]] and [things[j]] exchanged. *)
Definition swap (i j : nat) (things : list Block) : list Block :=
  match things !! i, things !! j with
  | Some a, Some b => <[j := a]> (<[i := b]> things)
  | _, _ => things
  end.

(** The loop [while (i--)] of [shuffle], from [i] down. *)
Fixpoint shuffle_loop (rnd : nat -> nat) (i : nat) (things : list Block) : list Block :=
  match i with
  | O => things
  | S i' => shuffle_loop rnd i' (swap i' (rnd i' mod (i' + 1))%nat things)
  end.

(** [shuffle(things)], as it leaves the array it was given; [a] is the
    attempt it is called in. *)
Definition shuffle (H : Host) (a : nat) (things : list Block) : list Block :=
  shuffle_loop (random H a) (length things) things.

(** [sortBlocks(attempt, sortType)]. *)
Definition sortBlocks (H : Host) (attempt : Attempt.t) (sortType : SortType) : Attempt.t :=
  let '(blocks, label) :=
    match sortType with
    | SortIndex 0 => (array_sort H byArea (Attempt.remainingBlocks attempt), "area"%string)
    | SortIndex 1 =>
        (array_sort H byLargestDimension (Attempt.remainingBlocks attempt),
         "largest dimension"%string)
    | SortIndex 2 => (array_sort H byWidth (Attempt.remainingBlocks attempt), "width"%string)
    | SortIndex 3 => (array_sort H byHeight (Attempt.remainingBlocks attempt), "height"%string)
    | SortIndex 4 =>
        (sortBlocksByInterleaving H (Attempt.remainingBlocks attempt), "interleaving"%string)
    | _ =>
        (shuffle H (Attempt.index attempt) (Attempt.remainingBlocks attempt),
         "random shuffle"%string)
    end in
  Attempt.mk (Attempt.area attempt) (Attempt.bins attempt) (Attempt.binCount attempt)
             (Attempt.count attempt) (Attempt.index attempt) (Attempt.info attempt)
             (Attempt.score attempt) (Attempt.packedBlocks attempt) blocks (Some label).

(** ** The attempts loop of [packItemsIllustrator] *)

(** [Math.min(200, 4 + Math.floor(Math.log(itemCount) / Math.log(2) * 5))],
    which is [-Infinity] for 0 items ([Math.log(0)] is [-Infinity]). *)
Inductive Count : Type := NegInfinity | Finite (z : Z).

Definition getMaxAttemptCount (H : Host) (itemCount : nat) : Count :=
  match itemCount with
  | O => NegInfinity
  | _ => Finite (Z.min 200 (4 + floor_log2_times_5 H itemCount))
  end.

(** [randomAttempt ? 1 : (settings.maxAttemptCount || getMaxAttemptCount(items.length))];
    [undefined] and [0] are falsy. *)
Definition maxAttemptCount (H : Host) (s : Settings) (randomAttempt : bool)
    (itemCount : nat) : Count :=
  if randomAttempt then Finite 1
  else
    match s_maxAttemptCount s with
    | Some z => if z =? 0 then getMaxAttemptCount H itemCount else Finite z
    | None => getMaxAttemptCount H itemCount
    end.

(** How many [a = 0, 1, ...] satisfy [a < maxAttemptCount]. *)
Definition budget (c : Count) : nat :=
  match c with
  | NegInfinity => O
  | Finite z => Z.to_nat z
  end.

(** [settings.bestFitBy || 'count'], then [preferCount = (bestFitBy == 'count')]. *)
Definition bestFitBy (s : Settings) : string :=
  match s_bestFitBy s with
  | Some str => if String.eqb str "" then "count"%string else str
  | None => "count"%string
  end.

Definition preferCount (s : Settings) : bool := String.eqb (bestFitBy s) "count".

(** The blocks built at the start of attempt [a]. *)
Definition make_blocks (H : Host) (s : Settings) (a itemCount : nat) : list Block :=
  (fun j => Block_new (app H) (s_padding s) (s_margin s) (s_forceRotate s) (item_at H a j) j)
    <$> seq 0 itemCount.

(** The body of the bins loop for bin [i]. *)
Definition bins_body (s : Settings) (totalItemCount : nat) (totalItemArea : Z)
    (i : nat) (bin : Bin) (attempt : Attempt.t) : Attempt.t :=
  let packer := Packer_new (width bin) (height bin) (s_allow90DegreeRotation s) in
  let result := fit packer (Attempt.remainingBlocks attempt) i in
  let scoreFactor :=
    if preferCount s
    then num_div (num_of_nat totalItemCount) (num_of_nat (Result.count result))
    else num_div (num_of_Z totalItemArea) (num_of_Z (Result.area result)) in
  Attempt.mk (Attempt.area attempt + Result.area result)
             (Attempt.bins attempt)
             (i + 1)
             (Attempt.count attempt)
             (Attempt.index attempt)
             (Attempt.info attempt ++ [(Result.count result, (i + 1)%nat)])
             (num_add (Attempt.score attempt)
                (num_mul (num_div (num_of_Z (width bin * height bin))
                                  (num_of_Z (Result.area result)))
                         scoreFactor))
             (Attempt.packedBlocks attempt ++ Result.packedBlocks result)
             (Result.remainingBlocks result)
             (Attempt.sortType attempt).

(** The bins loop from bin [i] on, with its [break]. *)
Fixpoint bins_loop (s : Settings) (totalItemCount : nat) (totalItemArea : Z)
    (i : nat) (bins : list Bin) (attempt : Attempt.t) : Attempt.t :=
  match bins with
  | [] => attempt
  | bin :: rest =>
      let attempt' := bins_body s totalItemCount totalItemArea i bin attempt in
      match Attempt.remainingBlocks attempt' with
      | [] => attempt'
      | _ :: _ => bins_loop s totalItemCount totalItemArea (S i) rest attempt'
      end
  end.

Definition set_score (sc : num) (attempt : Attempt.t) : Attempt.t :=
  Attempt.mk (Attempt.area attempt) (Attempt.bins attempt) (Attempt.binCount attempt)
             (Attempt.count attempt) (Attempt.index attempt) (Attempt.info attempt)
             sc (Attempt.packedBlocks attempt) (Attempt.remainingBlocks attempt)
             (Attempt.sortType attempt).

Definition set_remainingBlocks (bs : list Block) (attempt : Attempt.t) : Attempt.t :=
  Attempt.mk (Attempt.area attempt) (Attempt.bins attempt) (Attempt.binCount attempt)
             (Attempt.count attempt) (Attempt.index attempt) (Attempt.info attempt)
             (Attempt.score attempt) (Attempt.packedBlocks attempt) bs
             (Attempt.sortType attempt).

(** The variables of [packItemsIllustrator] that live across attempts, and
    the attempts completed so far, oldest first. *)
Record LoopState : Type := mkLoopState {
  bestAttempt : option Attempt.t;
  totalItemArea : Z;
  attempts : list Attempt.t
}.

(** The attempt at index [a] when it enters the bins loop: constructed,
    given its fresh blocks, and sorted unless [doNotSort] is set. *)
Definition attempt_sorted (H : Host) (s : Settings) (randomAttempt : bool)
    (bins : list Bin) (itemCount : nat) (a : nat) : Attempt.t :=
  let attempt0 := set_remainingBlocks (make_blocks H s a itemCount) (Attempt_new a bins) in
  if s_doNotSort s then attempt0
  else sortBlocks H attempt0 (if randomAttempt then SortInfinity else SortIndex a).

(** The attempt made at index [a], from its construction to its final
    score, given [totalItemArea] as it is once its blocks are built. *)
Definition run_attempt (H : Host) (s : Settings) (randomAttempt : bool)
    (bins : list Bin) (itemCount : nat) (tia : Z) (a : nat) : Attempt.t :=
  let attempt1 := attempt_sorted H s randomAttempt bins itemCount a in
  let attempt2 := bins_loop s itemCount tia O bins attempt1 in
  let score1 :=
    num_add (Attempt.score attempt2)
            (num_of_Z ((Z.of_nat (length bins) - Z.of_nat (Attempt.binCount attempt2)) * 100)) in
  let score2 :=
    num_sub score1 (num_of_Z (Z.of_nat (length (Attempt.remainingBlocks attempt2)) * 100)) in
  set_score score2 attempt2.

(** The choice of the best attempt so far. *)
Definition better (best : option Attempt.t) (attempt : Attempt.t) : option Attempt.t :=
  match best with
  | None => Some attempt
  | Some b => if num_gtb (Attempt.score attempt) (Attempt.score b) then Some attempt else Some b
  end.

(** The body of the attempts loop at index [a], up to the update of
    [bestAttempt]. *)
Definition attempts_body (H : Host) (s : Settings) (randomAttempt : bool)
    (bins : list Bin) (itemCount : nat) (a : nat) (st : LoopState) : LoopState :=
  let tia :=
    if (a =? 0)%nat
    then foldl (fun acc block => acc + w block * h block) (totalItemArea st)
               (make_blocks H s a itemCount)
    else totalItemArea st in
  let attempt := run_attempt H s randomAttempt bins itemCount tia a in
  mkLoopState (better (bestAttempt st) attempt) tia (attempts st ++ [attempt]).

(** The test of the early exit after attempt [a]. *)
Definition all_fitting (s : Settings) (a : nat) (st : LoopState) : bool :=
  negb (s_tryHarder s) && (4 <? a)%nat
  && match bestAttempt st with
     | Some b => (length (Attempt.remainingBlocks b) =? 0)%nat
     | None => false
     end.

(** The attempts loop from index [a], with [n] indices left below
    [maxAttemptCount]. *)
Fixpoint attempts_loop (H : Host) (s : Settings) (randomAttempt : bool)
    (bins : list Bin) (itemCount : nat) (n a : nat) (st : LoopState) : LoopState :=
  match n with
  | O => st
  | S n' =>
      let st' := attempts_body H s randomAttempt bins itemCount a st in
      if s_doNotSort s then st'
      else if all_fitting s a st' then st'
      else attempts_loop H s randomAttempt bins itemCount n' (S a) st'
  end.

(** How [packItemsIllustrator] ends: with the error of reading
    [bestAttempt.packedBlocks] when no attempt was made, or with the best
    attempt, whose packed blocks are positioned and whose remaining blocks
    stay selected. *)
Inductive Outcome : Type :=
  | TypeError
  | Done (best : Attempt.t) (finalPackedBlockCount : nat) (remainingBlockCount : Z).

Record Run : Type := mkRun {
  outcome : Outcome;
  made : list Attempt.t
}.

(** [packItemsIllustrator(settings, randomAttempt)] on the given artboards
    and [itemCount] items, without its drawing mode [debugBinBounds], the
    progress window and the result dialog. *)
Definition packItemsIllustrator (H : Host) (s : Settings) (randomAttempt : bool)
    (artboards : list (Z * Z * Z * Z)) (itemCount : nat) : Run :=
  let bins := make_bins (s_margin s) (s_padding s) artboards in
  let n := budget (maxAttemptCount H s randomAttempt itemCount) in
  let st := attempts_loop H s randomAttempt bins itemCount n O (mkLoopState None 0 []) in
  match bestAttempt st with
  | None => mkRun TypeError (attempts st)
  | Some best =>
      let finalPackedBlockCount := length (Attempt.packedBlocks best) in
      mkRun (Done best finalPackedBlockCount
                  (Z.of_nat itemCount - Z.of_nat finalPackedBlockCount))
            (attempts st)
  end.

(** How the script ends. *)
Inductive ScriptEnd : Type :=
  | Alert (message : string)
  | Cancelled
  | Packed (run : Run).

(** The script of "Bin Packing--Artboards.js": [documents] is
    [app.documents.length], [selection] the number of selected items,
    [s] the settings as the dialog leaves them, [cancelled] whether the
    dialog was dismissed. *)
Definition script (H : Host) (documents selection : nat) (s : Settings)
    (cancelled : bool) (artboards : list (Z * Z * Z * Z)) : ScriptEnd :=
  if (documents =? 0)%nat || (selection =? 0)%nat
  then Alert "Please select some items and try again."
  else if cancelled then Cancelled
  else Packed (packItemsIllustrator H s false artboards selection).

(** ** Notions used to state the properties *)

(** *** Blocks *)

(** The state of the dimension fields of every block the script builds:
    the rotated set is the plain set with width and height exchanged, the
    current fields are the active set, and a square block is not rotated. *)
Definition block_wf (b : Block) : Prop :=
  Dimensions.w (rotatedDimensions b) = Dimensions.h (dimensions b)
  /\ Dimensions.h (rotatedDimensions b) = Dimensions.w (dimensions b)
  /\ Dimensions.mk (w b) (h b) (dx b) (dy b)
     = (if isRotated b then rotatedDimensions b else dimensions b)
  /\ (Dimensions.w (dimensions b) = Dimensions.h (dimensions b) -> isRotated b = false).

(** The fields of a block that [rotate] does not assign. *)
Definition same_but_orientation (b b' : Block) : Prop :=
  index b' = index b /\ padding b' = padding b /\ margin b' = margin b
  /\ binIndex b' = binIndex b
  /\ dimensions b' = dimensions b /\ rotatedDimensions b' = rotatedDimensions b
  /\ x0 b' = x0 b /\ y0 b' = y0 b /\ x1 b' = x1 b /\ y1 b' = y1 b
  /\ packed b' = packed b.

(** The blocks are not yet marked packed: the state of the blocks of an
    attempt when the script passes them to [fit]. *)
Definition unpacked (blocks : list Block) : Prop :=
  Forall (fun b => packed b = false) blocks.

(** *** First fit *)

(** The region [r] is large enough for the block in its current
    orientation. *)
Definition fits (b : Block) (r : HeapBlock.t) : Prop :=
  w b <= HeapBlock.x1 r - HeapBlock.x0 r /\ h b <= HeapBlock.y1 r - HeapBlock.y0 r.

#[global] Instance fits_dec (b : Block) (r : HeapBlock.t) : Decision (fits b r).
Proof. unfold fits. apply _. Defined.

(** The block placed at the top-left corner of [r] and marked packed. *)
Definition place_at (r : HeapBlock.t) (b : Block) : Block :=
  mkBlock (index b) (padding b) (margin b) (isRotated b) (binIndex b)
          (w b) (h b) (dx b) (dy b) (dimensions b) (rotatedDimensions b)
          (Some (HeapBlock.x0 r)) (Some (HeapBlock.y0 r))
          (Some (HeapBlock.x0 r + w b)) (Some (HeapBlock.y0 r + h b)) true.

(** The first region that fits, in heap order. *)
Definition is_first_fit (heap : list HeapBlock.t) (b : Block) (r : HeapBlock.t) : Prop :=
  exists i, heap !! i = Some r /\ fits b r
            /\ forall j r', heap !! j = Some r' -> (j < i)%nat -> ~ fits b r'.

(** The heap of [fit] when its loop has gone through [blocks]. *)
Definition heap_after (p : Packer) (binIdx : nat) (blocks : list Block) : list HeapBlock.t :=
  fs_heap (fit_loop p binIdx blocks).

(** What [fit] returns for [blocks] followed by [block], against what it
    returns for [blocks]: one more packed block [b], carrying the bin
    index, or one more remaining block [b]. *)
Definition packs_as (p : Packer) (binIdx : nat) (blocks : list Block) (block b : Block)
    : Prop :=
  let before := fit p blocks binIdx in
  let after := fit p (blocks ++ [block]) binIdx in
  Result.packedBlocks after = Result.packedBlocks before ++ [set_binIndex binIdx b]
  /\ Result.remainingBlocks after = Result.remainingBlocks before
  /\ Result.count after = S (Result.count before).

Definition leaves_as (p : Packer) (binIdx : nat) (blocks : list Block) (block b : Block)
    : Prop :=
  let before := fit p blocks binIdx in
  let after := fit p (blocks ++ [block]) binIdx in
  Result.packedBlocks after = Result.packedBlocks before
  /\ Result.remainingBlocks after = Result.remainingBlocks before ++ [b]
  /\ Result.count after = Result.count before.

(** *** Rectangles *)

(** Two rectangles share no area. *)
Definition apart (r s : HeapBlock.t) : Prop :=
  Z.min (HeapBlock.x1 r) (HeapBlock.x1 s) - Z.max (HeapBlock.x0 r) (HeapBlock.x0 s) <= 0
  \/ Z.min (HeapBlock.y1 r) (HeapBlock.y1 s) - Z.max (HeapBlock.y0 r) (HeapBlock.y0 s) <= 0.

(** Two rectangles meet: they overlap or touch, which is when
    [intersect] returns a rectangle. *)
Definition meet (r s : HeapBlock.t) : Prop :=
  Z.max (HeapBlock.x0 r) (HeapBlock.x0 s) <= Z.min (HeapBlock.x1 r) (HeapBlock.x1 s)
  /\ Z.max (HeapBlock.y0 r) (HeapBlock.y0 s) <= Z.min (HeapBlock.y1 r) (HeapBlock.y1 s).

(** A rectangle lies in the bin [[0, W] x [0, H]]. *)
Definition inside (W H : Z) (r : HeapBlock.t) : Prop :=
  0 <= HeapBlock.x0 r /\ HeapBlock.x1 r <= W /\ 0 <= HeapBlock.y0 r /\ HeapBlock.y1 r <= H.

(** A free region of the heap: in the bin and apart from every rectangle
    placed so far. *)
Definition region_ok (W H : Z) (placed : list HeapBlock.t) (r : HeapBlock.t) : Prop :=
  inside W H r /\ forall q, q ∈ placed -> apart r q.

(** The same for an entry of a heap that can hold [null]. *)
Definition entry_ok (W H : Z) (placed : list HeapBlock.t) (e : option HeapBlock.t) : Prop :=
  match e with
  | Some r => region_ok W H placed r
  | None => True
  end.

Definition pairwise_apart (Q : list HeapBlock.t) : Prop :=
  forall i j q1 q2, i <> j -> Q !! i = Some q1 -> Q !! j = Some q2 -> apart q1 q2.

(** The invariant of the loop of [fit]: the packed blocks have the
    placements [Q], which lie in the bin and are pairwise apart, and every
    region of the heap is free. *)
Definition fit_inv (p : Packer) (st : FitState) : Prop :=
  exists Q : list HeapBlock.t,
    placement <$> fs_packedBlocks st = Some <$> Q
    /\ Forall (region_ok (root_w p) (root_h p) Q) (fs_heap st)
    /\ Forall (inside (root_w p) (root_h p)) Q
    /\ pairwise_apart Q.

(** *** Placements *)

(** The block is positioned and its placement rectangle lies in the bin
    [[0, W] x [0, H]]. *)
Definition contained (W H : Z) (b : Block) : Prop :=
  exists x y,
    x0 b = Some x /\ y0 b = Some y
    /\ 0 <= x /\ 0 <= y /\ x + w b <= W /\ y + h b <= H.

(** Any two distinct blocks of the list with the same bin index have
    placement rectangles whose intersection has area 0. *)
Definition no_overlap (blocks : list Block) : Prop :=
  forall i j b1 b2,
    i <> j -> blocks !! i = Some b1 -> blocks !! j = Some b2 ->
    binIndex b1 = binIndex b2 ->
    exists r1 r2, placement b1 = Some r1 /\ placement b2 = Some r2 /\ overlap_area r1 r2 = 0.

(** The block carries the index of one of the bins and lies in that
    bin. *)
Definition in_its_bin (bins : list Bin) (b : Block) : Prop :=
  exists i bin,
    binIndex b = Some i /\ bins !! i = Some bin /\ contained (width bin) (height bin) b.

(** *** The host *)

(** What the host's sort is taken to do: it returns its argument
    reordered, whatever the comparison function. *)
Definition host_ok (H : Host) : Prop :=
  forall cmp l, array_sort H cmp l ≡ₚ l.

(** *** The score, as the specification words it *)

(** The total area of the items, summed over the blocks of the first
    attempt. *)
Definition total_area (H : Host) (s : Settings) (itemCount : nat) : Z :=
  foldl (fun acc block => acc + w block * h block) 0 (make_blocks H s O itemCount).

(** The bins an attempt processes, each with what [fit] returned for it:
    bin [i] receives the blocks that remain after bin [i - 1], and no bin is
    processed once nothing remains. *)
Fixpoint processed_bins (allow : bool) (i : nat) (bins : list Bin) (blocks : list Block)
    : list (Bin * Result.t) :=
  match bins with
  | [] => []
  | bin :: rest =>
      let r := fit (Packer_new (width bin) (height bin) allow) blocks i in
      (bin, r) :: match Result.remainingBlocks r with
                  | [] => []
                  | _ :: _ => processed_bins allow (S i) rest (Result.remainingBlocks r)
                  end
  end.

Inductive FitBy : Type := ByCount | ByArea.

Definition fitBy_name (f : FitBy) : string :=
  match f with ByCount => "count"%string | ByArea => "area"%string end.

(** [totalItemCount / packedCountInBin] or [totalItemArea / areaPackedInBin]. *)
Definition spec_scoreFactor (f : FitBy) (totalItemCount : nat) (totalItemArea : Z)
    (r : Result.t) : num :=
  match f with
  | ByCount => num_div (num_of_nat totalItemCount) (num_of_nat (Result.count r))
  | ByArea => num_div (num_of_Z totalItemArea) (num_of_Z (Result.area r))
  end.

(** [(binWidth * binHeight / areaPackedInBin) * scoreFactor]. *)
Definition spec_bin_score (f : FitBy) (totalItemCount : nat) (totalItemArea : Z)
    (br : Bin * Result.t) : num :=
  num_mul (num_div (num_of_Z (width br.1 * height br.1)) (num_of_Z (Result.area br.2)))
          (spec_scoreFactor f totalItemCount totalItemArea br.2).

(** The sum over the processed bins, taken in bin order from 0, plus
    [(totalBinCount - binsActuallyUsed) * 100], minus
    [remainingUnpackedCount * 100]; the bins used are the bins processed. *)
Definition spec_score (f : FitBy) (totalItemCount : nat) (totalItemArea : Z)
    (totalBinCount : nat) (processed : list (Bin * Result.t)) (remainingCount : nat) : num :=
  num_sub
    (num_add
       (foldl (fun sc br => num_add sc (spec_bin_score f totalItemCount totalItemArea br))
              (Num 0%Q) processed)
       (num_of_Z ((Z.of_nat totalBinCount - Z.of_nat (length processed)) * 100)))
    (num_of_Z (Z.of_nat remainingCount * 100)).

(** *** The attempts of a run *)

(** The best of a list of attempts, taken in order. *)
Definition best_of (l : list Attempt.t) : option Attempt.t := foldl better None l.

(** The test of the early exit after attempt [k], on the attempts [made]
    in the run: "try harder" is off, [k > 4], and the best of the attempts
    0 to [k] has no remaining block. *)
Definition early_exit (s : Settings) (k : nat) (made : list Attempt.t) : Prop :=
  s_tryHarder s = false
  /\ (4 < k)%nat
  /\ exists b, best_of (take (S k) made) = Some b /\ Attempt.remainingBlocks b = [].

(** The state of the attempts loop when it reaches index [a]. *)
Definition loop_ok (H : Host) (s : Settings) (rnd : bool) (bins : list Bin) (n : nat)
    (a : nat) (st : LoopState) : Prop :=
  length (attempts st) = a
  /\ bestAttempt st = best_of (attempts st)
  /\ totalItemArea st = (if (a =? 0)%nat then 0 else total_area H s n)
  /\ forall k attempt, attempts st !! k = Some attempt ->
       attempt = run_attempt H s rnd bins n (total_area H s n) k.

(** ** Concrete inputs *)

(** An Illustrator item of width [bw] and height [bh] at the origin, and
    its block with no padding. *)
Definition plain_item (bw bh : Z) : Item :=
  mkItem (0, bh, bw, 0) 0 bh (0, bh, bw, 0) (0, bh, bw, 0).

Definition plain_block (idx : nat) (bw bh : Z) : Block :=
  Block_new Illustrator 0 0 false (plain_item bw bh) idx.

Definition two_sizes : list (Z * Z) := [(60, 100); (40, 100)].

Definition two_columns : list Block := [plain_block 0 60 100; plain_block 1 40 100].

(** One artboard of 100 x 100 at the origin, as [L, T, R, B]. *)
Definition one_artboard : list (Z * Z * Z * Z) := [(0, 0, 100, -100)].

(** A stable insertion sort by a comparison function, for the host's
    [Array.prototype.sort]. *)
Fixpoint insert_sorted (cmp : Block -> Block -> Z) (x : Block) (l : list Block) : list Block :=
  match l with
  | [] => [x]
  | y :: l' => if 0 <? cmp x y then y :: insert_sorted cmp x l' else x :: y :: l'
  end.

Definition insertion_sort (cmp : Block -> Block -> Z) (l : list Block) : list Block :=
  foldr (insert_sorted cmp) [] l.

(** A host with that sort, a constant random draw, the exact
    [floor (5 * log2 n)], and the items of the list [sizes] (width, height). *)
Definition test_host (sizes : list (Z * Z)) : Host :=
  mkHost Illustrator insertion_sort (fun _ _ => O)
         (fun n => Z.log2 (Z.of_nat n ^ 5))
         (fun _ j => match sizes !! j with
                     | Some (bw, bh) => plain_item bw bh
                     | None => plain_item 0 0
                     end).

(** Settings with no padding and no margin. *)
Definition test_settings (allow : bool) (fitBy : option string) (maxAttempts : option Z)
    (tryHarder doNotSort : bool) : Settings :=
  mkSettings 0 0 allow fitBy maxAttempts tryHarder doNotSort false.

(** ** Proof automation *)

(** Boolean tests on integers to propositions. *)
Ltac bools :=
  repeat match goal with
    | H : _ && _ = true |- _ => apply andb_true_iff in H; destruct H
    | H : _ && _ = false |- _ => apply andb_false_iff in H
    | H : (_ <=? _) = true |- _ => apply Z.leb_le in H
    | H : (_ <=? _) = false |- _ => apply Z.leb_gt in H
    | H : (_ =? _) = true |- _ => apply Z.eqb_eq in H
    | H : (_ =? _) = false |- _ => apply Z.eqb_neq in H
    end.

(** * More of the scripts

    The functions around the packing core: the conversions between
    artboard rectangles and bin bounds, the bounds utilities of
    [packer-blocks.js], the division of a page by its guides, and
    [packItemsIndesign]. *)

(** ** Artboard rectangles and bin bounds *)

Definition binBoundsToArtboardRect (bounds : Z * Z * Z * Z) : Z * Z * Z * Z :=
  (b4_1 bounds, - b4_0 bounds, b4_3 bounds, - b4_2 bounds).

(** ** Bounds *)

(** [combineBounds(boundsArray)]: [undefined] for an empty array. *)
Definition combineBounds (a : App) (boundsArray : list (Z * Z * Z * Z))
    : option (Z * Z * Z * Z) :=
  match boundsArray with
  | [] => None
  | first :: rest =>
      Some (foldl (fun combinedBounds bounds =>
                     match a with
                     | Indesign =>
                         (Z.min (b4_0 combinedBounds) (b4_0 bounds),
                          Z.min (b4_1 combinedBounds) (b4_1 bounds),
                          Z.max (b4_2 combinedBounds) (b4_2 bounds),
                          Z.max (b4_3 combinedBounds) (b4_3 bounds))
                     | Illustrator =>
                         (Z.min (b4_0 combinedBounds) (b4_0 bounds),
                          Z.max (b4_1 combinedBounds) (b4_1 bounds),
                          Z.max (b4_2 combinedBounds) (b4_2 bounds),
                          Z.min (b4_3 combinedBounds) (b4_3 bounds))
                     end)
                  first rest)
  end.

(** [boundsDoIntersect(bounds1, bounds2, TLBR)]; without [TLBR] the
    layout is that of the application. *)
Definition boundsDoIntersect (a : App) (bounds1 bounds2 : Z * Z * Z * Z)
    (TLBR : option bool) : bool :=
  let tlbr := match TLBR with
              | Some t => t
              | None => match a with Indesign => true | Illustrator => false end
              end in
  negb (if tlbr
        then (b4_0 bounds2 >? b4_2 bounds1) || (b4_1 bounds2 >? b4_3 bounds1)
             || (b4_2 bounds2 <? b4_0 bounds1) || (b4_3 bounds2 <? b4_1 bounds1)
        else (b4_0 bounds2 >? b4_2 bounds1) || (b4_1 bounds2 <? b4_3 bounds1)
             || (b4_2 bounds2 <? b4_0 bounds1) || (b4_3 bounds2 >? b4_1 bounds1)).

(** The comparison function of the sort in [intersectionOfBounds]:
    [b[0] - a[0] || a[1] - b[1]]. *)
Definition byFirstThenSecond (a b : Z * Z * Z * Z) : Z :=
  if b4_0 b - b4_0 a =? 0 then b4_1 a - b4_1 b else b4_0 b - b4_0 a.

(** The loop [while (b = bounds.shift())] of [intersectionOfBounds]. *)
Fixpoint intersection_loop (a : App) (intersection : Z * Z * Z * Z)
    (bounds : list (Z * Z * Z * Z)) : option (Z * Z * Z * Z) :=
  match bounds with
  | [] => Some intersection
  | b :: rest =>
      if negb (boundsDoIntersect a intersection b None) then None
      else
        intersection_loop a
          match a with
          | Indesign =>
              (Z.max (b4_0 intersection) (b4_0 b), Z.max (b4_1 intersection) (b4_1 b),
               Z.min (b4_2 intersection) (b4_2 b), Z.min (b4_3 intersection) (b4_3 b))
          | Illustrator =>
              (Z.max (b4_0 intersection) (b4_0 b), Z.min (b4_1 intersection) (b4_1 b),
               Z.min (b4_2 intersection) (b4_2 b), Z.max (b4_3 intersection) (b4_3 b))
          end
          rest
  end.

(** [intersectionOfBounds(arrayOfBounds)]; [sort] is the host's
    [Array.prototype.sort] on an array of bounds.  The result is [undefined]
    for an empty array and when the loop bails out. *)
Definition intersectionOfBounds (a : App)
    (sort : (Z * Z * Z * Z -> Z * Z * Z * Z -> Z) -> list (Z * Z * Z * Z)
            -> list (Z * Z * Z * Z))
    (arrayOfBounds : list (Z * Z * Z * Z)) : option (Z * Z * Z * Z) :=
  match sort byFirstThenSecond arrayOfBounds with
  | [] => None
  | intersection :: bounds => intersection_loop a intersection bounds
  end.

(** ** Dividing a page by its guides *)

Inductive HorizontalOrVertical : Type := HORIZONTAL | VERTICAL.

(** What [divideBounds] reads of a guide. *)
Record Guide : Type := mkGuide {
  orientation : HorizontalOrVertical;
  location : Z
}.

(** The body of the loop over [boundsArray] in [divideByGuides]: the
    bounds pushed to [newBounds] for [currentBounds]. *)
Definition divide_one (margin : Z) (isHorizontal : bool) (guideLocation : Z)
    (currentBounds : Z * Z * Z * Z) : list (Z * Z * Z * Z) :=
  let top := b4_0 currentBounds in
  let left := b4_1 currentBounds in
  let bottom := b4_2 currentBounds in
  let right := b4_3 currentBounds in
  if isHorizontal then
    if (top <? guideLocation) && (bottom >? guideLocation)
    then [(top, left, guideLocation - margin, right);
          (guideLocation + margin, left, bottom, right)]
    else [currentBounds]
  else
    if (left <? guideLocation) && (right >? guideLocation)
    then [(top, left, bottom, guideLocation - margin);
          (top, guideLocation + margin, bottom, right)]
    else [currentBounds].

(** The helper [divideByGuides(boundsArray, guides, isHorizontal)] of
    [divideBounds], with the [margin] of the enclosing call. *)
Definition divideByGuides (margin : Z) (boundsArray : list (Z * Z * Z * Z))
    (guides : list Guide) (isHorizontal : bool) : list (Z * Z * Z * Z) :=
  foldl (fun boundsArray guide =>
           boundsArray ≫= divide_one margin isHorizontal (location guide))
        boundsArray guides.

Definition is_horizontal (g : Guide) : bool :=
  match orientation g with HORIZONTAL => true | VERTICAL => false end.

(** [divideBounds(bounds, guides, margin)]; [sort] is the host's
    [Array.prototype.sort] on the array of guides, and a [margin] that is
    [undefined] or [0] is [None] or [Some 0]. *)
Definition divideBounds
    (sort : (Guide -> Guide -> Z) -> list Guide -> list Guide)
    (bounds : Z * Z * Z * Z) (guides : list Guide) (margin : option Z)
    : list (Z * Z * Z * Z) :=
  let margin := default 0 margin in
  let guides := sort (fun a b => location b - location a) guides in
  let horizontalGuides := filter (fun g => is_horizontal g = true) guides in
  let verticalGuides := filter (fun g => is_horizontal g = false) guides in
  divideByGuides margin (divideByGuides margin [bounds] horizontalGuides true)
                 verticalGuides false.

(** ** [packItemsIndesign] *)

(** What the script reads of a page: [bounds] as [T, L, B, R],
    [marginPreferences] as top, left, bottom, right, and the guides. *)
Record Page : Type := mkPage {
  page_bounds : Z * Z * Z * Z;
  marginPreferences : Z * Z * Z * Z;
  guides : list Guide
}.

(** The settings of [packItemsIndesign]: those of the attempts loop, where
    [s_allow90DegreeRotation] stands for [allowRotation], and those of the
    bins, lengths in points. *)
Record IndesignSettings : Type := mkIndesignSettings {
  packing : Settings;
  usePageMargins : bool;
  useGuidesToDivideBins : bool;
  guidesMargin : Z
}.

(** The loop "make bins" of [packItemsIndesign]: the bins of page [i],
    each with the index of the page. *)
Definition page_bins
    (sort : (Guide -> Guide -> Z) -> list Guide -> list Guide)
    (s : IndesignSettings) (i : nat) (page : Page) : list (nat * Bin) :=
  let pageBounds := page_bounds page in
  let margin := s_margin (packing s) in
  let padding := s_padding (packing s) in
  let pageBounds :=
    if usePageMargins s
    then (b4_0 pageBounds + b4_0 (marginPreferences page),
          b4_1 pageBounds + b4_1 (marginPreferences page),
          b4_2 pageBounds - b4_2 (marginPreferences page),
          b4_3 pageBounds - b4_3 (marginPreferences page))
    else (b4_0 pageBounds + margin, b4_1 pageBounds + margin,
          b4_2 pageBounds - margin, b4_3 pageBounds - margin) in
  let guides := if useGuidesToDivideBins s then guides page else [] in
  (fun binBounds =>
     (i, mkBin binBounds
               (b4_3 binBounds - b4_1 binBounds + padding)
               (b4_2 binBounds - b4_0 binBounds + padding)))
    <$> divideBounds sort pageBounds guides (Some (guidesMargin s)).

Definition make_bins_indesign
    (sort : (Guide -> Guide -> Z) -> list Guide -> list Guide)
    (s : IndesignSettings) (pages : list Page) : list (nat * Bin) :=
  mjoin (imap (page_bins sort s) pages).

(** [packItemsIndesign(settings, randomAttempt)] on the given pages and
    [itemCount] items: the bins above, then the attempts loop of
    [packItemsIllustrator], which the two scripts share line by line, on
    blocks built for InDesign ([app H] is [Indesign]). *)
Definition packItemsIndesign (H : Host)
    (sort : (Guide -> Guide -> Z) -> list Guide -> list Guide)
    (s : IndesignSettings) (randomAttempt : bool) (pages : list Page) (itemCount : nat)
    : Run :=
  let bins := snd <$> make_bins_indesign sort s pages in
  let n := budget (maxAttemptCount H (packing s) randomAttempt itemCount) in
  let st := attempts_loop H (packing s) randomAttempt bins itemCount n O
              (mkLoopState None 0 []) in
  match bestAttempt st with
  | None => mkRun TypeError (attempts st)
  | Some best =>
      let finalPackedBlockCount := length (Attempt.packedBlocks best) in
      mkRun (Done best finalPackedBlockCount
                  (Z.of_nat itemCount - Z.of_nat finalPackedBlockCount))
            (attempts st)
  end.

(** ** Notions used for the free space of the packer *)

(** The point [(x, y)] lies in the rectangle, edges included. *)
Definition covers (r : HeapBlock.t) (x y : Z) : Prop :=
  (HeapBlock.x0 r <= x <= HeapBlock.x1 r) /\ (HeapBlock.y0 r <= y <= HeapBlock.y1 r).

(** A rectangle of positive width and height. *)
Definition positive (r : HeapBlock.t) : Prop :=
  HeapBlock.x0 r < HeapBlock.x1 r /\ HeapBlock.y0 r < HeapBlock.y1 r.

(** Some region of a heap that can hold [null] contains the rectangle. *)
Definition heap_holds (heap : list (option HeapBlock.t)) (r : HeapBlock.t) : Prop :=
  exists hb, Some hb ∈ heap /\ chunkContains hb r = true.

(** The blocks as the script builds them, with positive width and height. *)
Definition sized (b : Block) : Prop := block_wf b /\ 0 < w b /\ 0 < h b.

(** ** Notions used for the blocks of a run *)

(** The sum of [w * h] over the blocks, as the script sums areas. *)
Definition sum_area (l : list Block) : Z :=
  foldl (fun acc block => acc + w block * h block) 0 l.

(** [b'] stands for the same item as [b]: the fields the constructor sets
    and nothing assigns afterwards are equal. *)
Definition same_item (b b' : Block) : Prop :=
  index b' = index b /\ padding b' = padding b /\ margin b' = margin b
  /\ dimensions b' = dimensions b /\ rotatedDimensions b' = rotatedDimensions b.

(** [b'] is turned as [b] is. *)
Definition same_orientation (b b' : Block) : Prop :=
  isRotated b' = isRotated b /\ w b' = w b /\ h b' = h b /\ dx b' = dx b /\ dy b' = dy b.

(** What [fit] may have done to the block [b] when it returns it as [b']. *)
Definition kept (allow : bool) (b b' : Block) : Prop :=
  same_item b b'
  /\ (block_wf b -> block_wf b')
  /\ (allow = false -> same_orientation b b').

(** The blocks of the list that carry the bin index [i]. *)
Definition in_bin (i : nat) (l : list Block) : list Block :=
  filter (fun b => binIndex b = Some i) l.

(** The lines 'Packed c items onto artboard k.' for the first [n] bins:
    [c] is the number of packed blocks that carry the bin index [k - 1]. *)
Definition info_lines (n : nat) (packedBlocks : list Block) : list (nat * nat) :=
  (fun i => (length (in_bin i packedBlocks), S i)) <$> seq 0 n.

(** The state of an attempt in the bins loop, after the bins [done], for
    the blocks [blocks0] it entered the loop with. *)
Definition attempt_inv (allow : bool) (blocks0 : list Block) (done : list Bin)
    (attempt : Attempt.t) : Prop :=
  Forall (fun b => packed b = true /\ block_corners b = placement b
                   /\ exists j, (j < length done)%nat /\ binIndex b = Some j)
         (Attempt.packedBlocks attempt)
  /\ Forall (fun b => packed b = false) (Attempt.remainingBlocks attempt)
  /\ Forall (fun b' => exists b, b ∈ blocks0 /\ kept allow b b')
            (Attempt.packedBlocks attempt ++ Attempt.remainingBlocks attempt)
  /\ Attempt.area attempt = sum_area (Attempt.packedBlocks attempt)
  /\ index <$> (Attempt.packedBlocks attempt ++ Attempt.remainingBlocks attempt)
     ≡ₚ index <$> blocks0
  /\ Attempt.info attempt = info_lines (length done) (Attempt.packedBlocks attempt)
  /\ (done <> [] -> Attempt.binCount attempt = length done).

(** ** Notions used for bounds *)

(** [outer] encloses [inner], in the layout of the application:
    [T, L, B, R] with y downwards in InDesign, [L, T, R, B] with y upwards
    in Illustrator. *)
Definition encloses (a : App) (outer inner : Z * Z * Z * Z) : Prop :=
  match a with
  | Indesign =>
      b4_0 outer <= b4_0 inner /\ b4_1 outer <= b4_1 inner
      /\ b4_2 inner <= b4_2 outer /\ b4_3 inner <= b4_3 outer
  | Illustrator =>
      b4_0 outer <= b4_0 inner /\ b4_1 inner <= b4_1 outer
      /\ b4_2 inner <= b4_2 outer /\ b4_3 outer <= b4_3 inner
  end.

(** Two bounds [T, L, B, R] share no area. *)
Definition tlbr_apart (b c : Z * Z * Z * Z) : Prop :=
  Z.min (b4_2 b) (b4_2 c) - Z.max (b4_0 b) (b4_0 c) <= 0
  \/ Z.min (b4_3 b) (b4_3 c) - Z.max (b4_1 b) (b4_1 c) <= 0.

(** The area of bounds [T, L, B, R]. *)
Definition tlbr_area (b : Z * Z * Z * Z) : Z := (b4_2 b - b4_0 b) * (b4_3 b - b4_1 b).

(** Any two entries of the list at different indices are apart. *)
Definition all_apart (l : list (Z * Z * Z * Z)) : Prop :=
  forall i j b c, i <> j -> l !! i = Some b -> l !! j = Some c -> tlbr_apart b c.

(** The componentwise step of [intersectionOfBounds]. *)
Definition narrow (a : App) (i b : Z * Z * Z * Z) : Z * Z * Z * Z :=
  match a with
  | Indesign =>
      (Z.max (b4_0 i) (b4_0 b), Z.max (b4_1 i) (b4_1 b),
       Z.min (b4_2 i) (b4_2 b), Z.min (b4_3 i) (b4_3 b))
  | Illustrator =>
      (Z.max (b4_0 i) (b4_0 b), Z.min (b4_1 i) (b4_1 b),
       Z.min (b4_2 i) (b4_2 b), Z.max (b4_3 i) (b4_3 b))
  end.

(** Bounds that are not inverted, in the layout of the application. *)
Definition upright (a : App) (b : Z * Z * Z * Z) : Prop :=
  match a with
  | Indesign => b4_0 b <= b4_2 b /\ b4_1 b <= b4_3 b
  | Illustrator => b4_0 b <= b4_2 b /\ b4_3 b <= b4_1 b
  end.

(** The areas of the bounds of a list, added up. *)
Definition total_tlbr_area (l : list (Z * Z * Z * Z)) : Z :=
  foldr Z.add 0 (tlbr_area <$> l).

(** ** Notions used for the attempts of a run *)

(** The label [sortBlocks] gives attempt [k]: the five orders in turn,
    then random shuffles; a random attempt is a random shuffle. *)
Definition sort_label (randomAttempt : bool) (k : nat) : string :=
  if randomAttempt then "random shuffle"%string
  else
    match k with
    | 0%nat => "area"%string
    | 1%nat => "largest dimension"%string
    | 2%nat => "width"%string
    | 3%nat => "height"%string
    | 4%nat => "interleaving"%string
    | _ => "random shuffle"%string
    end.

(** ** Notions used for the bins of [packItemsIndesign] *)

(** The part of a page the bins are made in: the page bounds less the
    page margins, or less [settings.margin] on every side. *)
Definition page_inner (s : IndesignSettings) (page : Page) : Z * Z * Z * Z :=
  if usePageMargins s
  then (b4_0 (page_bounds page) + b4_0 (marginPreferences page),
        b4_1 (page_bounds page) + b4_1 (marginPreferences page),
        b4_2 (page_bounds page) - b4_2 (marginPreferences page),
        b4_3 (page_bounds page) - b4_3 (marginPreferences page))
  else (b4_0 (page_bounds page) + s_margin (packing s),
        b4_1 (page_bounds page) + s_margin (packing s),
        b4_2 (page_bounds page) - s_margin (packing s),
        b4_3 (page_bounds page) - s_margin (packing s)).

(** The attempt processed a bin in which it packed nothing. *)
Definition has_empty_bin (attempt : Attempt.t) : Prop :=
  exists i, (i < Attempt.binCount attempt)%nat
            /\ in_bin i (Attempt.packedBlocks attempt) = [].

(** What the division by the packed area makes of the score after the
    bins [done]: [+Infinity] once a bin was left empty, a number before. *)
Definition score_state (done : list Bin) (attempt : Attempt.t) : Prop :=
  ((exists i, (i < length done)%nat /\ in_bin i (Attempt.packedBlocks attempt) = [])
   /\ Attempt.score attempt = PosInf)
  \/ ((forall i, (i < length done)%nat -> in_bin i (Attempt.packedBlocks attempt) <> [])
      /\ exists q, Attempt.score attempt = Num q).

(** ** More concrete inputs *)

(** Two blocks that do not fit side by side in a bin of 100 x 100. *)
Definition wide_sizes : list (Z * Z) := [(60, 100); (50, 100)].

Definition wide_pair : list Block := [plain_block 0 60 100; plain_block 1 50 100].

(** A stable insertion sort by a comparison function, for the host's
    [Array.prototype.sort] on arrays of bounds and of guides. *)
Fixpoint insert_by {A : Type} (cmp : A -> A -> Z) (x : A) (l : list A) : list A :=
  match l with
  | [] => [x]
  | y :: l' => if 0 <? cmp x y then y :: insert_by cmp x l' else x :: y :: l'
  end.

Definition sort_by {A : Type} (cmp : A -> A -> Z) (l : list A) : list A :=
  foldr (insert_by cmp) [] l.

(** An InDesign item of width [bw] and height [bh] at the origin, bounds
    as [T, L, B, R]. *)
Definition page_item (bw bh : Z) : Item :=
  mkItem (0, 0, bh, bw) 0 0 (0, 0, bh, bw) (0, 0, bh, bw).

(** The host of [test_host], for InDesign. *)
Definition indesign_host (sizes : list (Z * Z)) : Host :=
  mkHost Indesign insertion_sort (fun _ _ => O)
         (fun n => Z.log2 (Z.of_nat n ^ 5))
         (fun _ j => match sizes !! j with
                     | Some (bw, bh) => page_item bw bh
                     | None => page_item 0 0
                     end).

(** One page of 100 x 100 at the origin with a horizontal guide in the
    middle, and settings that divide it by the guide. *)
Definition one_page : list Page :=
  [mkPage (0, 0, 100, 100) (0, 0, 0, 0) [mkGuide HORIZONTAL 50]].

Definition page_settings : IndesignSettings :=
  mkIndesignSettings (test_settings false None None false false) false true 0.

Definition small_sizes : list (Z * Z) := [(60, 40); (40, 30)].

(** One item that is too large for an artboard of 100 x 100. *)
Definition large_sizes : list (Z * Z) := [(200, 200)].

(** * The packing core in the host's numbers

    The numbers of the script are IEEE 754 doubles.  The embedding above
    takes them as exact integers, which is all that the lists, the counts
    and the loops of a run depend on.  Which region [findInHeap] accepts and
    where a block ends depend on how [heapBlock.x1 - heapBlock.x0] and
    [heapBlock.x0 + block.w] are rounded, so [Block] and [Packer.js] are
    embedded here once more, function by function and under the names of
    the source, over doubles: a number is a [spec_float] of the standard
    library at precision 53 with exponents up to 1024 (binary64), rounded
    to nearest, ties to even. *)
Module Double.

(** ** Numbers *)

Definition double : Type := SpecFloat.spec_float.

Definition NaN : double := SpecFloat.S754_nan.

(** [x + y], [x - y], [x * y], [x / y] and [-x]. *)
Definition add (x y : double) : double := SpecFloat.SFadd 53 1024 x y.
Definition sub (x y : double) : double := SpecFloat.SFsub 53 1024 x y.
Definition mul (x y : double) : double := SpecFloat.SFmul 53 1024 x y.
Definition div (x y : double) : double := SpecFloat.SFdiv 53 1024 x y.
Definition opp (x : double) : double := SpecFloat.SFopp x.

(** [x <= y] and [x < y]: false when an operand is [NaN]. *)
Definition leb (x y : double) : bool := SpecFloat.SFleb x y.
Definition ltb (x y : double) : bool := SpecFloat.SFltb x y.

(** [x == y] and [x === y] on numbers: false when an operand is [NaN],
    true of [+0] and [-0]; [x != y] and [x !== y] are the negation. *)
Definition eqb (x y : double) : bool := SpecFloat.SFeqb x y.

(** [Math.max(x, y)] and [Math.min(x, y)]: [NaN] when an operand is
    [NaN]; [+0] counts as larger than [-0]. *)
Definition Math_max (x y : double) : double :=
  match SpecFloat.SFcompare x y with
  | None => NaN
  | Some Lt => y
  | Some Gt => x
  | Some Eq => match x with SpecFloat.S754_zero true => y | _ => x end
  end.

Definition Math_min (x y : double) : double :=
  match SpecFloat.SFcompare x y with
  | None => NaN
  | Some Lt => x
  | Some Gt => y
  | Some Eq => match x with SpecFloat.S754_zero false => y | _ => x end
  end.

(** The double nearest to the integer [z] (the integer itself up to
    2^53), and the double of a decimal literal, as [1.7] for [dec 17 10]:
    the double nearest to the quotient of two integers below 2^53. *)
Definition of_Z (z : Z) : double := SpecFloat.binary_normalize 53 1024 z 0 false.

Definition dec (n d : Z) : double := div (of_Z n) (of_Z d).

(** The exact value of a finite double. *)
Definition value (x : double) : option Q :=
  match x with
  | SpecFloat.S754_zero _ => Some 0%Q
  | SpecFloat.S754_finite s m e =>
      Some (Qmult (inject_Z (if s then Z.neg m else Z.pos m)) (Qpower (2 # 1) e))
  | _ => None
  end.

(** ** Data *)

(** A heap block (free region), [{x0, y0, x1, y1}]. *)
Module HeapBlock.
Record t : Type := mk { x0 : double; y0 : double; x1 : double; y1 : double }.
End HeapBlock.

(** The two dimension sets of a block, [{w, h, dx, dy}]. *)
Module Dimensions.
Record t : Type := mk { w : double; h : double; dx : double; dy : double }.
End Dimensions.

(** A [Block], with the fields of the embedding over integers; a corner
    that has not been assigned is [None]. *)
Record Block : Type := mkBlock {
  index : nat;
  padding : double;
  margin : double;
  isRotated : bool;
  binIndex : option nat;
  w : double;
  h : double;
  dx : double;
  dy : double;
  dimensions : Dimensions.t;
  rotatedDimensions : Dimensions.t;
  x0 : option double;
  y0 : option double;
  x1 : option double;
  y1 : option double;
  packed : bool
}.

(** What the host reports about a page item when its block is built. *)
Record Item : Type := mkItem {
  bounds : double * double * double * double;
  left : double;
  top : double;
  geometricBounds : double * double * double * double;
  visibleBounds : double * double * double * double
}.

Definition b4_0 (b : double * double * double * double) : double := let '(a, _, _, _) := b in a.
Definition b4_1 (b : double * double * double * double) : double := let '(_, a, _, _) := b in a.
Definition b4_2 (b : double * double * double * double) : double := let '(_, _, a, _) := b in a.
Definition b4_3 (b : double * double * double * double) : double := let '(_, _, _, a) := b in a.

(** ** Block *)

(** [Block.prototype.rotate]: swap the block between 0 and 90 degrees. *)
Definition rotate (b : Block) : Block :=
  if eqb (w b) (h b) then b
  else
    let r := negb (isRotated b) in
    let d := if r then rotatedDimensions b else dimensions b in
    mkBlock (index b) (padding b) (margin b) r (binIndex b)
            (Dimensions.w d) (Dimensions.h d) (Dimensions.dx d) (Dimensions.dy d)
            (dimensions b) (rotatedDimensions b)
            (x0 b) (y0 b) (x1 b) (y1 b) (packed b).

(** The constructor [Block(settings, item, index)]; of [settings] it reads
    [padding], [margin] and [forceRotate]. *)
Definition Block_new (app : App) (s_padding s_margin : double) (forceRotate : bool)
    (item : Item) (idx : nat) : Block :=
  let bs := bounds item in
  let '(bw, bh, bdx, bdy) :=
    match app with
    | Illustrator =>
        (add (sub (b4_2 bs) (b4_0 bs)) s_padding, add (sub (b4_1 bs) (b4_3 bs)) s_padding,
         sub (left item) (b4_0 bs), sub (top item) (b4_1 bs))
    | Indesign =>
        (add (sub (b4_3 bs) (b4_1 bs)) s_padding, add (sub (b4_2 bs) (b4_0 bs)) s_padding,
         sub (b4_1 (geometricBounds item)) (b4_1 bs),
         sub (b4_0 (geometricBounds item)) (b4_0 bs))
    end in
  let b :=
    mkBlock idx s_padding s_margin false None bw bh bdx bdy
            (Dimensions.mk bw bh bdx bdy)
            (Dimensions.mk bh bw (opp bdy) (sub (b4_2 (visibleBounds item)) (b4_2 bs)))
            None None None None false in
  if forceRotate then rotate b else b.

(** The corner-pair rectangle stored in a block by [findInHeap], when all
    four corners are defined. *)
Definition block_corners (b : Block) : option HeapBlock.t :=
  match x0 b, y0 b, x1 b, y1 b with
  | Some a, Some c, Some d, Some e => Some (HeapBlock.mk a c d e)
  | _, _, _, _ => None
  end.

(** ** Packer *)

Record Packer : Type := mkPacker {
  allow90DegreeRotation : bool;
  root_w : double;
  root_h : double
}.

Definition Packer_new (w h : double) (allow : bool) : Packer := mkPacker allow w h.

Definition intersect (block0 block1 : HeapBlock.t) : option HeapBlock.t :=
  let ix0 := Math_max (HeapBlock.x0 block0) (HeapBlock.x0 block1) in
  let ix1 := Math_min (HeapBlock.x1 block0) (HeapBlock.x1 block1) in
  let iy0 := Math_max (HeapBlock.y0 block0) (HeapBlock.y0 block1) in
  let iy1 := Math_min (HeapBlock.y1 block0) (HeapBlock.y1 block1) in
  if leb ix0 ix1 && leb iy0 iy1
  then Some (HeapBlock.mk ix0 iy0 ix1 iy1)
  else None.

Definition chunkContains (heapBlock0 heapBlock1 : HeapBlock.t) : bool :=
  leb (HeapBlock.x0 heapBlock0) (HeapBlock.x0 heapBlock1)
  && leb (HeapBlock.y0 heapBlock0) (HeapBlock.y0 heapBlock1)
  && leb (HeapBlock.x1 heapBlock1) (HeapBlock.x1 heapBlock0)
  && leb (HeapBlock.y1 heapBlock1) (HeapBlock.y1 heapBlock0).

(** [expand] writes to [heapBlock1] only; the result is its new value. *)
Definition expand (heapBlock0 heapBlock1 : HeapBlock.t) : HeapBlock.t :=
  let h1 :=
    if leb (HeapBlock.x0 heapBlock0) (HeapBlock.x0 heapBlock1)
       && leb (HeapBlock.x1 heapBlock1) (HeapBlock.x1 heapBlock0)
       && leb (HeapBlock.y0 heapBlock1) (HeapBlock.y1 heapBlock0)
    then HeapBlock.mk (HeapBlock.x0 heapBlock1)
                      (Math_min (HeapBlock.y0 heapBlock0) (HeapBlock.y0 heapBlock1))
                      (HeapBlock.x1 heapBlock1)
                      (Math_max (HeapBlock.y1 heapBlock0) (HeapBlock.y1 heapBlock1))
    else heapBlock1 in
  if leb (HeapBlock.y0 heapBlock0) (HeapBlock.y0 h1)
     && leb (HeapBlock.y1 h1) (HeapBlock.y1 heapBlock0)
     && leb (HeapBlock.x0 h1) (HeapBlock.x1 heapBlock0)
  then HeapBlock.mk (Math_min (HeapBlock.x0 heapBlock0) (HeapBlock.x0 h1))
                    (HeapBlock.y0 h1)
                    (Math_max (HeapBlock.x1 heapBlock0) (HeapBlock.x1 h1))
                    (HeapBlock.y1 h1)
  else h1.

(** [unionMax]: the two heap entries as they are after the call; the
    assignments of [null] rebind the parameters only. *)
Definition unionMax (heapBlock0 heapBlock1 : option HeapBlock.t)
    : option HeapBlock.t * option HeapBlock.t :=
  match heapBlock0, heapBlock1 with
  | Some h0, Some h1 =>
      match intersect h0 h1 with
      | Some _ =>
          if chunkContains h0 h1 then (Some h0, Some h1)
          else if chunkContains h1 h0 then (Some h0, Some h1)
          else
            let h1' := expand h0 h1 in
            let h0' := expand h1' h0 in
            (Some h0', Some h1')
      | None => (Some h0, Some h1)
      end
  | _, _ => (heapBlock0, heapBlock1)
  end.

(** The body of the inner loop of [unionAll] at indices [i] and [j]. *)
Definition unionAll_body (i j : nat) (heap : list (option HeapBlock.t))
    : list (option HeapBlock.t) :=
  if decide (i = j) then heap
  else
    match heap !! i, heap !! j with
    | Some hi, Some hj =>
        let '(hi', hj') := unionMax hi hj in
        let heap1 := <[j := hj']> (<[i := hi']> heap) in
        match hi', hj' with
        | Some a, Some b =>
            if chunkContains b a then <[i := None]> heap1
            else if chunkContains a b then <[j := None]> heap1
            else heap1
        | _, _ => heap1
        end
    | _, _ => heap
    end.

Definition unionAll_loops (heap : list (option HeapBlock.t))
    : list (option HeapBlock.t) :=
  let n := length heap in
  foldl (fun hp i => foldl (fun hp' j => unionAll_body i j hp') hp (seq 0 n))
        heap (seq 0 n).

Definition unionAll (heap : list (option HeapBlock.t)) : list HeapBlock.t :=
  omap id (unionAll_loops heap).

(** The regions pushed by [adjustHeap] for one intersected heap block, in
    the order top, right, bottom, left. *)
Definition residuals (heapBlock overlap : HeapBlock.t) : list HeapBlock.t :=
  (if eqb (HeapBlock.y1 overlap) (HeapBlock.y1 heapBlock) then []
   else [HeapBlock.mk (HeapBlock.x0 heapBlock) (HeapBlock.y1 overlap)
                      (HeapBlock.x1 heapBlock) (HeapBlock.y1 heapBlock)])
  ++ (if eqb (HeapBlock.x1 overlap) (HeapBlock.x1 heapBlock) then []
      else [HeapBlock.mk (HeapBlock.x1 overlap) (HeapBlock.y0 heapBlock)
                         (HeapBlock.x1 heapBlock) (HeapBlock.y1 heapBlock)])
  ++ (if eqb (HeapBlock.y0 heapBlock) (HeapBlock.y0 overlap) then []
      else [HeapBlock.mk (HeapBlock.x0 heapBlock) (HeapBlock.y0 heapBlock)
                         (HeapBlock.x1 heapBlock) (HeapBlock.y0 overlap)])
  ++ (if eqb (HeapBlock.x0 heapBlock) (HeapBlock.x0 overlap) then []
      else [HeapBlock.mk (HeapBlock.x0 heapBlock) (HeapBlock.y0 heapBlock)
                         (HeapBlock.x0 overlap) (HeapBlock.y1 heapBlock)]).

(** One iteration of the loop of [adjustHeap], at index [i], for a block
    whose corners are [blk]. *)
Definition adjustHeap_body (blk : HeapBlock.t) (heap : list (option HeapBlock.t))
    (i : nat) : list (option HeapBlock.t) :=
  match heap !! i with
  | Some (Some heapBlock) =>
      match intersect heapBlock blk with
      | Some overlap => <[i := None]> (heap ++ (Some <$> residuals heapBlock overlap))
      | None => heap
      end
  | _ => heap
  end.

(** [adjustHeap(block)], called on a block that [findInHeap] has just
    placed; the heap holds no [null] on entry. *)
Definition adjustHeap (heap : list HeapBlock.t) (block : Block) : list HeapBlock.t :=
  match block_corners block with
  | Some blk =>
      unionAll (foldl (adjustHeap_body blk) (Some <$> heap) (seq 0 (length heap)))
  | None => unionAll (Some <$> heap)
  end.

(** [findInHeap(block)]: the block after the call and the returned flag.
    The test compares with the rounded differences [x1 - x0] and [y1 - y0];
    the corners stored are the rounded sums [x0 + w] and [y0 + h]. *)
Fixpoint findInHeap (heap : list (option HeapBlock.t)) (block : Block) : Block * bool :=
  match heap with
  | [] => (block, false)
  | entry :: rest =>
      match entry with
      | Some heapBlock =>
          if leb (w block) (sub (HeapBlock.x1 heapBlock) (HeapBlock.x0 heapBlock))
             && leb (h block) (sub (HeapBlock.y1 heapBlock) (HeapBlock.y0 heapBlock))
          then
            (mkBlock (index block) (padding block) (margin block) (isRotated block)
                     (binIndex block) (w block) (h block) (dx block) (dy block)
                     (dimensions block) (rotatedDimensions block)
                     (Some (HeapBlock.x0 heapBlock)) (Some (HeapBlock.y0 heapBlock))
                     (Some (add (HeapBlock.x0 heapBlock) (w block)))
                     (Some (add (HeapBlock.y0 heapBlock) (h block)))
                     true,
             true)
          else findInHeap rest block
      | None => findInHeap rest block
      end
  end.

Definition set_binIndex (i : nat) (b : Block) : Block :=
  mkBlock (index b) (padding b) (margin b) (isRotated b) (Some i)
          (w b) (h b) (dx b) (dy b) (dimensions b) (rotatedDimensions b)
          (x0 b) (y0 b) (x1 b) (y1 b) (packed b).

(** The value returned by [fit]. *)
Module Result.
Record t : Type := mk {
  count : nat;
  area : double;
  packedBlocks : list Block;
  remainingBlocks : list Block
}.
End Result.

(** The state of the loop of [fit]. *)
Record FitState : Type := mkFitState {
  fs_heap : list HeapBlock.t;
  fs_area : double;
  fs_packedBlocks : list Block;
  fs_remainingBlocks : list Block
}.

(** What one iteration of [fit] does to the block and to the heap, before
    the test [if (block.packed)]. *)
Definition fit_place (p : Packer) (heap : list HeapBlock.t) (block : Block)
    : Block * list HeapBlock.t :=
  let '(b1, found) := findInHeap (Some <$> heap) block in
  if found then (b1, adjustHeap heap b1)
  else if allow90DegreeRotation p then
    let b2 := rotate b1 in
    let '(b3, found') := findInHeap (Some <$> heap) b2 in
    if found' then (b3, adjustHeap heap b3) else (b3, heap)
  else (b1, heap).

(** One iteration of the loop of [fit]. *)
Definition fit_body (p : Packer) (binIdx : nat) (st : FitState) (block : Block)
    : FitState :=
  let '(b, heap') := fit_place p (fs_heap st) block in
  if packed b then
    let b' := set_binIndex binIdx b in
    mkFitState heap' (add (fs_area st) (mul (w b') (h b')))
               (fs_packedBlocks st ++ [b']) (fs_remainingBlocks st)
  else
    mkFitState heap' (fs_area st) (fs_packedBlocks st) (fs_remainingBlocks st ++ [b]).

Definition fit_init (p : Packer) : FitState :=
  mkFitState [HeapBlock.mk (of_Z 0) (of_Z 0) (root_w p) (root_h p)] (of_Z 0) [] [].

Definition fit_loop (p : Packer) (binIdx : nat) (blocks : list Block) : FitState :=
  foldl (fit_body p binIdx) (fit_init p) blocks.

(** [Packer.prototype.fit(blocks, binIndex)]. *)
Definition fit (p : Packer) (blocks : list Block) (binIdx : nat) : Result.t :=
  let st := fit_loop p binIdx blocks in
  Result.mk (length (fs_packedBlocks st)) (fs_area st)
            (fs_packedBlocks st) (fs_remainingBlocks st).

(** ** Notions used to state the properties *)

(** The state of the dimension fields of every block the script builds
    ([block_wf] of the embedding over integers). *)
Definition block_wf (b : Block) : Prop :=
  Dimensions.w (rotatedDimensions b) = Dimensions.h (dimensions b)
  /\ Dimensions.h (rotatedDimensions b) = Dimensions.w (dimensions b)
  /\ Dimensions.mk (w b) (h b) (dx b) (dy b)
     = (if isRotated b then rotatedDimensions b else dimensions b).

(** The width and the height of a region, as [findInHeap] computes
    them. *)
Definition region_width (r : HeapBlock.t) : double := sub (HeapBlock.x1 r) (HeapBlock.x0 r).
Definition region_height (r : HeapBlock.t) : double := sub (HeapBlock.y1 r) (HeapBlock.y0 r).

(** The width and the height of the region [r] are at least those of the
    block in its current orientation. *)
Definition fits (b : Block) (r : HeapBlock.t) : Prop :=
  leb (w b) (region_width r) = true /\ leb (h b) (region_height r) = true.

#[global] Instance fits_dec (b : Block) (r : HeapBlock.t) : Decision (fits b r).
Proof. unfold fits. apply _. Defined.

(** The first region that fits, in heap order. *)
Definition is_first_fit (heap : list HeapBlock.t) (b : Block) (r : HeapBlock.t) : Prop :=
  exists i, heap !! i = Some r /\ fits b r
            /\ forall j r', heap !! j = Some r' -> (j < i)%nat -> ~ fits b r'.

(** The block placed at the top-left corner of [r] and marked packed. *)
Definition place_at (r : HeapBlock.t) (b : Block) : Block :=
  mkBlock (index b) (padding b) (margin b) (isRotated b) (binIndex b)
          (w b) (h b) (dx b) (dy b) (dimensions b) (rotatedDimensions b)
          (Some (HeapBlock.x0 r)) (Some (HeapBlock.y0 r))
          (Some (add (HeapBlock.x0 r) (w b))) (Some (add (HeapBlock.y0 r) (h b))) true.

(** The heap of [fit] when its loop has gone through [blocks]. *)
Definition heap_after (p : Packer) (binIdx : nat) (blocks : list Block) : list HeapBlock.t :=
  fs_heap (fit_loop p binIdx blocks).

(** What [fit] returns for [blocks] followed by [block], against what it
    returns for [blocks]: one more packed block [b], carrying the bin
    index, or one more remaining block [b]. *)
Definition packs_as (p : Packer) (binIdx : nat) (blocks : list Block) (block b : Block)
    : Prop :=
  let before := fit p blocks binIdx in
  let after := fit p (blocks ++ [block]) binIdx in
  Result.packedBlocks after = Result.packedBlocks before ++ [set_binIndex binIdx b]
  /\ Result.remainingBlocks after = Result.remainingBlocks before
  /\ Result.count after = S (Result.count before).

Definition leaves_as (p : Packer) (binIdx : nat) (blocks : list Block) (block b : Block)
    : Prop :=
  let before := fit p blocks binIdx in
  let after := fit p (blocks ++ [block]) binIdx in
  Result.packedBlocks after = Result.packedBlocks before
  /\ Result.remainingBlocks after = Result.remainingBlocks before ++ [b]
  /\ Result.count after = Result.count before.

(** The placement rectangle [[x0, x0 + w] x [y0, y0 + h]] of a block, with
    the sums as the script computes them. *)
Definition placement (b : Block) : option HeapBlock.t :=
  match x0 b, y0 b with
  | Some a, Some c => Some (HeapBlock.mk a c (add a (w b)) (add c (h b)))
  | _, _ => None
  end.

(** The area of the intersection of two rectangles, computed in doubles:
    0 when they are apart or only touch. *)
Definition overlap_area (r s : HeapBlock.t) : double :=
  mul (Math_max (of_Z 0)
         (sub (Math_min (HeapBlock.x1 r) (HeapBlock.x1 s))
              (Math_max (HeapBlock.x0 r) (HeapBlock.x0 s))))
      (Math_max (of_Z 0)
         (sub (Math_min (HeapBlock.y1 r) (HeapBlock.y1 s))
              (Math_max (HeapBlock.y0 r) (HeapBlock.y0 s)))).

(** The same placement rectangle and area in exact arithmetic, on the
    exact values of the doubles: [(x0, y0, x0 + w, y0 + h)]. *)
Definition exact_placement (b : Block) : option (Q * Q * Q * Q) :=
  match x0 b, y0 b with
  | Some a, Some c =>
      match value a, value c, value (w b), value (h b) with
      | Some qa, Some qc, Some qw, Some qh => Some (qa, qc, Qplus qa qw, Qplus qc qh)
      | _, _, _, _ => None
      end
  | _, _ => None
  end.

Definition Qmax (a b : Q) : Q := if Qle_bool a b then b else a.
Definition Qmin (a b : Q) : Q := if Qle_bool a b then a else b.

Definition exact_overlap_area (r s : Q * Q * Q * Q) : Q :=
  let '(rx0, ry0, rx1, ry1) := r in
  let '(sx0, sy0, sx1, sy1) := s in
  Qmult (Qmax 0 (Qminus (Qmin rx1 sx1) (Qmax rx0 sx0)))
        (Qmax 0 (Qminus (Qmin ry1 sy1) (Qmax ry0 sy0))).

(** ** Concrete inputs *)

(** An Illustrator item of width [bw] and height [bh] at the origin, and
    its block with no padding, as the constructor builds it. *)
Definition plain_item (bw bh : double) : Item :=
  mkItem (of_Z 0, bh, bw, of_Z 0) (of_Z 0) bh (of_Z 0, bh, bw, of_Z 0) (of_Z 0, bh, bw, of_Z 0).

Definition plain_block (idx : nat) (bw bh : double) : Block :=
  Block_new Illustrator (of_Z 0) (of_Z 0) false (plain_item bw bh) idx.

(** Blocks of 1.7 x 1, 0.3 x 2, 0.6 x 1 and 1.1 x 1, for a bin of 2 x 2. *)
Definition four_blocks : list Block :=
  [plain_block 0 (dec 17 10) (of_Z 1); plain_block 1 (dec 3 10) (of_Z 2);
   plain_block 2 (dec 6 10) (of_Z 1); plain_block 3 (dec 11 10) (of_Z 1)].

(** Blocks of 0.6 x 1 and 1.1 x 1, for a bin of 1.7 x 1. *)
Definition two_blocks : list Block :=
  [plain_block 0 (dec 6 10) (of_Z 1); plain_block 1 (dec 11 10) (of_Z 1)].

(** Blocks with integer sizes beyond 2^53, where the doubles are the even
    integers: (2^53 + 6) x 1, 2 x 2, 3 x 1 and (2^53 + 4) x 1, for a bin of
    (2^53 + 8) x 2. *)
Definition four_large_blocks : list Block :=
  [plain_block 0 (of_Z (2 ^ 53 + 6)) (of_Z 1); plain_block 1 (of_Z 2) (of_Z 2);
   plain_block 2 (of_Z 3) (of_Z 1); plain_block 3 (of_Z (2 ^ 53 + 4)) (of_Z 1)].

End Double.

(** * Properties *)

(** ** Examples *)

Example fit_two_columns :
  let r := fit (Packer_new 100 100 false) [plain_block 0 60 100; plain_block 1 40 100] 0 in
  (Result.count r, x0 <$> Result.packedBlocks r, x1 <$> Result.packedBlocks r,
   Result.remainingBlocks r)
  = (2%nat, [Some 0; Some 60], [Some 60; Some 100], []).
Proof. vm_compute. reflexivity. Qed.

Example fit_rotated :
  let r := fit (Packer_new 50 90 true) [plain_block 0 80 40] 0 in
  (Result.count r, (fun b => (x0 b, y0 b, w b, h b, isRotated b)) <$> Result.packedBlocks r)
  = (1%nat, [(Some 0, Some 0, 40, 80, true)]).
Proof. vm_compute. reflexivity. Qed.

Example fit_not_rotated :
  let r := fit (Packer_new 50 90 false) [plain_block 0 80 40] 0 in
  (Result.count r, Result.remainingBlocks r) = (0%nat, [plain_block 0 80 40]).
Proof. vm_compute. reflexivity. Qed.

Example adjustHeap_corner :
  adjustHeap [HeapBlock.mk 0 0 100 100]
             (place_at (HeapBlock.mk 0 0 100 100) (plain_block 0 60 40))
  = [HeapBlock.mk 0 40 100 100; HeapBlock.mk 60 0 100 100].
Proof. vm_compute. reflexivity. Qed.

Example fit_three_blocks :
  let st := fit_loop (Packer_new 100 100 false) 0
              [plain_block 0 60 40; plain_block 1 30 30; plain_block 2 50 50] in
  ((fun b => (x0 b, y0 b)) <$> fs_packedBlocks st, fs_heap st)
  = ([(Some 0, Some 0); (Some 0, Some 40); (Some 30, Some 40)],
     [HeapBlock.mk 80 0 100 100; HeapBlock.mk 60 0 100 40;
      HeapBlock.mk 0 90 100 100; HeapBlock.mk 0 70 30 100]).
Proof. vm_compute. reflexivity. Qed.

Example fit_too_large :
  let r := fit (Packer_new 50 90 true) [plain_block 0 95 95; plain_block 1 10 10] 0 in
  (index <$> Result.packedBlocks r, index <$> Result.remainingBlocks r, Result.area r)
  = ([1%nat], [0%nat], 100).
Proof. vm_compute. reflexivity. Qed.

Example unionMax_adjoining :
  unionMax (Some (HeapBlock.mk 0 0 50 100)) (Some (HeapBlock.mk 50 0 100 100))
  = (Some (HeapBlock.mk 0 0 100 100), Some (HeapBlock.mk 0 0 100 100)).
Proof. vm_compute. reflexivity. Qed.

Example interleaving_five :
  index <$> sortBlocksByInterleaving (test_host [])
              [plain_block 0 1 1; plain_block 1 5 5; plain_block 2 3 3;
               plain_block 3 4 4; plain_block 4 2 2]
  = [1; 4; 3; 0; 2]%nat.
Proof. vm_compute. reflexivity. Qed.

Example getMaxAttemptCount_values :
  (getMaxAttemptCount (test_host []) 0, getMaxAttemptCount (test_host []) 2,
   getMaxAttemptCount (test_host []) 1000)
  = (NegInfinity, Finite 9, Finite 53).
Proof. vm_compute. reflexivity. Qed.

(** ** Facts about blocks *)

Lemma rotate_square (b : Block) : w b = h b -> rotate b = b.
Proof. intros E. unfold rotate. rewrite E, Z.eqb_refl. reflexivity. Qed.

Lemma rotate_wf (b : Block) : block_wf b -> block_wf (rotate b).
Proof.
  intros (Hw & Hh & Hcur & Hsq). unfold rotate.
  destruct (Z.eqb_spec (w b) (h b)) as [E | N]; [repeat split; assumption |].
  assert (Dimensions.w (dimensions b) <> Dimensions.h (dimensions b)) as Hns.
  { intros E. specialize (Hsq E). rewrite Hsq in Hcur.
    apply N. rewrite <- Hcur in E. exact E. }
  unfold block_wf; cbn. repeat split; try assumption.
  - destruct (isRotated b), (rotatedDimensions b), (dimensions b); reflexivity.
  - intros E. contradiction.
Qed.

Lemma rotate_rotate (b : Block) : block_wf b -> rotate (rotate b) = b.
Proof.
  intros (Hw & Hh & Hcur & Hsq). unfold rotate at 2.
  destruct (Z.eqb_spec (w b) (h b)) as [E | N].
  - apply rotate_square, E.
  - unfold rotate; cbn.
    destruct b as [i p m r bi bw bh bdx bdy [dw dh ddx ddy] [rw rh rdx rdy] a0 a1 a2 a3 pk].
    cbn in *. subst rw rh.
    destruct r; cbn in *; injection Hcur as -> -> -> ->.
    + destruct (Z.eqb_spec dw dh) as [E | _]; [symmetry in E; contradiction | reflexivity].
    + destruct (Z.eqb_spec dh dw) as [E | _]; [symmetry in E; contradiction | reflexivity].
Qed.

Lemma rotate_swaps (b : Block) : block_wf b -> w (rotate b) = h b /\ h (rotate b) = w b.
Proof.
  intros (Hw & Hh & Hcur & Hsq). unfold rotate.
  destruct (Z.eqb_spec (w b) (h b)) as [E | N]; [split; congruence |].
  destruct b as [i p m r bi bw bh bdx bdy [dw dh ddx ddy] [rw rh rdx rdy] a0 a1 a2 a3 pk].
  cbn in *. subst rw rh.
  destruct r; cbn in *; injection Hcur as -> -> -> ->; split; reflexivity.
Qed.

Lemma Block_new_wf app pad mar force item idx :
  block_wf (Block_new app pad mar force item idx).
Proof.
  unfold Block_new.
  destruct app; cbn;
    (destruct force; [apply rotate_wf |]; unfold block_wf; cbn; repeat split; reflexivity).
Qed.

Lemma iter_rotate_wf (n : nat) (b : Block) : block_wf b -> block_wf (Nat.iter n rotate b).
Proof. intros Hb. induction n as [| n IH]; cbn; [exact Hb | apply rotate_wf, IH]. Qed.

Lemma wf_square_not_rotated (b : Block) : block_wf b -> w b = h b -> isRotated b = false.
Proof.
  intros (Hw & Hh & Hcur & Hsq) E.
  destruct (isRotated b) eqn:R; [| reflexivity].
  apply Hsq. rewrite <- Hcur in Hw, Hh. cbn in Hw, Hh. congruence.
Qed.

Lemma rotate_index (b : Block) : index (rotate b) = index b.
Proof. unfold rotate. destruct (w b =? h b); reflexivity. Qed.

Lemma rotate_packed (b : Block) : packed (rotate b) = packed b.
Proof. unfold rotate. destruct (w b =? h b); reflexivity. Qed.

Lemma rotate_frame (b : Block) : same_but_orientation b (rotate b).
Proof. unfold rotate. destruct (w b =? h b); repeat split. Qed.

Lemma Block_new_unpacked (a : App) (pad mar : Z) (force : bool) (item : Item) (idx : nat) :
  packed (Block_new a pad mar force item idx) = false.
Proof.
  unfold Block_new. destruct a; cbn; (destruct force; [rewrite rotate_packed |]; reflexivity).
Qed.

(** ** [findInHeap] and one iteration of [fit] *)

Lemma findInHeap_first_fit (heap : list HeapBlock.t) (b : Block) :
  findInHeap (Some <$> heap) b
  = match list_find (fits b) heap with
    | Some (_, r) => (place_at r b, true)
    | None => (b, false)
    end.
Proof.
  induction heap as [| r heap IH]; [reflexivity |].
  cbn [fmap list_fmap findInHeap list_find].
  destruct (decide (fits b r)) as [[Hw Hh] | Hn].
  - apply Z.leb_le in Hw, Hh. rewrite Hw, Hh. reflexivity.
  - assert ((w b <=? HeapBlock.x1 r - HeapBlock.x0 r)
            && (h b <=? HeapBlock.y1 r - HeapBlock.y0 r) = false) as ->.
    { apply andb_false_iff. unfold fits in Hn.
      destruct (Z.leb_spec (w b) (HeapBlock.x1 r - HeapBlock.x0 r));
        destruct (Z.leb_spec (h b) (HeapBlock.y1 r - HeapBlock.y0 r)); auto.
      exfalso. apply Hn. split; assumption. }
    fold (@fmap list _ _ _ Some heap). rewrite IH.
    destruct (list_find (fits b) heap) as [[i r'] |]; reflexivity.
Qed.

Lemma is_first_fit_find (heap : list HeapBlock.t) (b : Block) (r : HeapBlock.t) :
  is_first_fit heap b r <-> exists i, list_find (fits b) heap = Some (i, r).
Proof.
  unfold is_first_fit. split; intros [i Hi]; exists i.
  - apply list_find_Some. exact Hi.
  - apply list_find_Some in Hi. exact Hi.
Qed.

Lemma no_fit_find (heap : list HeapBlock.t) (b : Block) :
  (forall r, r ∈ heap -> ~ fits b r) <-> list_find (fits b) heap = None.
Proof. rewrite list_find_None, Forall_forall. reflexivity. Qed.

Lemma fit_place_spec (p : Packer) (heap : list HeapBlock.t) (b : Block) :
  fit_place p heap b
  = match list_find (fits b) heap with
    | Some (_, r) => (place_at r b, adjustHeap heap (place_at r b))
    | None =>
        if allow90DegreeRotation p then
          match list_find (fits (rotate b)) heap with
          | Some (_, r) => (place_at r (rotate b), adjustHeap heap (place_at r (rotate b)))
          | None => (rotate b, heap)
          end
        else (b, heap)
    end.
Proof.
  unfold fit_place. rewrite findInHeap_first_fit.
  destruct (list_find (fits b) heap) as [[i r] |]; [reflexivity |].
  destruct (allow90DegreeRotation p); [| reflexivity].
  rewrite findInHeap_first_fit.
  destruct (list_find (fits (rotate b)) heap) as [[i r] |]; reflexivity.
Qed.

Lemma fit_place_index (p : Packer) (heap : list HeapBlock.t) (b : Block) :
  index (fit_place p heap b).1 = index b.
Proof.
  rewrite fit_place_spec.
  destruct (list_find (fits b) heap) as [[i r] |]; [reflexivity |].
  destruct (allow90DegreeRotation p); [| reflexivity].
  destruct (list_find (fits (rotate b)) heap) as [[i r] |]; cbn; apply rotate_index.
Qed.

Lemma fit_loop_snoc (p : Packer) (binIdx : nat) (blocks : list Block) (block : Block) :
  fit_loop p binIdx (blocks ++ [block]) = fit_body p binIdx (fit_loop p binIdx blocks) block.
Proof. unfold fit_loop. rewrite foldl_app. reflexivity. Qed.

(** One more block: what the loop of [fit] does with it, from what
    [fit_place] returns. *)
Lemma fit_snoc (p : Packer) (binIdx : nat) (blocks : list Block) (block b : Block)
    (heap' : list HeapBlock.t) :
  fit_place p (heap_after p binIdx blocks) block = (b, heap') ->
  heap_after p binIdx (blocks ++ [block]) = heap'
  /\ if packed b then packs_as p binIdx blocks block b
     else leaves_as p binIdx blocks block b.
Proof.
  intros E. unfold heap_after, packs_as, leaves_as, fit in *.
  cbn [Result.packedBlocks Result.remainingBlocks Result.count].
  rewrite fit_loop_snoc. unfold fit_body at 1 2 3 4 5 6 7. rewrite E.
  destruct (packed b); cbn [fs_heap fs_packedBlocks fs_remainingBlocks].
  - split; [reflexivity |]. split; [reflexivity |]. split; [reflexivity |].
    rewrite length_app. cbn. lia.
  - split; [reflexivity |]. split; [reflexivity |]. split; reflexivity.
Qed.

(** The loop of [fit] only appends to its two lists. *)
Lemma fit_loop_extends (p : Packer) (binIdx : nat) (blocks rest : list Block) :
  exists pk rm,
    fs_packedBlocks (fit_loop p binIdx (blocks ++ rest))
    = fs_packedBlocks (fit_loop p binIdx blocks) ++ pk
    /\ fs_remainingBlocks (fit_loop p binIdx (blocks ++ rest))
       = fs_remainingBlocks (fit_loop p binIdx blocks) ++ rm.
Proof.
  unfold fit_loop. rewrite foldl_app.
  generalize (foldl (fit_body p binIdx) (fit_init p) blocks). intros st.
  revert st. induction rest as [| b rest IH]; intros st.
  { exists [], []. cbn. rewrite !app_nil_r. split; reflexivity. }
  cbn [foldl]. destruct (IH (fit_body p binIdx st b)) as (pk & rm & Hp & Hr).
  rewrite Hp, Hr. unfold fit_body.
  destruct (fit_place p (fs_heap st) b) as [b' heap'].
  destruct (packed b'); cbn [fs_packedBlocks fs_remainingBlocks].
  - exists (set_binIndex binIdx b' :: pk), rm. rewrite <- app_assoc. split; reflexivity.
  - exists pk, (b' :: rm). rewrite <- app_assoc. split; reflexivity.
Qed.

(** What an iteration adds to the two lists: either one block to
    [packedBlocks], or the block, rotated when rotation is allowed, to
    [remainingBlocks]. *)
Lemma fit_body_lists (p : Packer) (binIdx : nat) (st : FitState) (b : Block) :
  let st' := fit_body p binIdx st b in
  (exists b', fs_packedBlocks st' = fs_packedBlocks st ++ [b']
              /\ index b' = index b
              /\ fs_remainingBlocks st' = fs_remainingBlocks st)
  \/ (fs_packedBlocks st' = fs_packedBlocks st
      /\ packed b = false
      /\ fs_remainingBlocks st'
         = fs_remainingBlocks st ++ [if allow90DegreeRotation p then rotate b else b]).
Proof.
  unfold fit_body. pose proof (fit_place_index p (fs_heap st) b) as Hidx.
  rewrite fit_place_spec in *.
  destruct (list_find (fits b) (fs_heap st)) as [[i r] |]; cbn in *.
  { left. eexists. split; [reflexivity |]. split; [exact Hidx | reflexivity]. }
  destruct (allow90DegreeRotation p).
  - destruct (list_find (fits (rotate b)) (fs_heap st)) as [[i r] |]; cbn in *.
    { left. eexists. split; [reflexivity |]. split; [exact Hidx | reflexivity]. }
    destruct (packed (rotate b)) eqn:Ep; cbn.
    + left. eexists. split; [reflexivity |]. split; [exact Hidx | reflexivity].
    + right. rewrite rotate_packed in Ep. repeat split. exact Ep.
  - cbn in *. destruct (packed b) eqn:Ep; cbn.
    + left. eexists. split; [reflexivity |]. split; [reflexivity | reflexivity].
    + right. repeat split.
Qed.

Lemma fit_loop_from_lists (p : Packer) (binIdx : nat) (blocks : list Block) (st : FitState) :
  let st' := foldl (fit_body p binIdx) st blocks in
  exists packed' remaining',
    fs_packedBlocks st' = fs_packedBlocks st ++ packed'
    /\ fs_remainingBlocks st'
       = fs_remainingBlocks st
         ++ ((if allow90DegreeRotation p then rotate else id) <$> remaining')
    /\ sublist remaining' blocks
    /\ unpacked remaining'
    /\ index <$> (packed' ++ remaining') ≡ₚ index <$> blocks.
Proof.
  revert st. induction blocks as [| b blocks IH]; intros st; cbn.
  { exists [], []. rewrite !app_nil_r. repeat split; constructor. }
  destruct (IH (fit_body p binIdx st b)) as (pk & rm & Hp & Hr & Hs & Hu & Hperm).
  destruct (fit_body_lists p binIdx st b) as [(b' & Ep & Ei & Er) | (Ep & Eu & Er)].
  - exists (b' :: pk), rm. rewrite Hp, Hr, Ep, Er, <- !app_assoc. cbn.
    repeat split; [apply sublist_cons, Hs | exact Hu |].
    rewrite Ei. constructor. exact Hperm.
  - exists pk, (b :: rm). rewrite Hp, Hr, Ep, Er, <- !app_assoc. cbn.
    split; [reflexivity |]. split.
    { destruct (allow90DegreeRotation p); reflexivity. }
    split; [apply sublist_skip, Hs |].
    split; [constructor; assumption |].
    rewrite fmap_app. cbn. rewrite <- Permutation_middle. constructor.
    rewrite <- fmap_app. exact Hperm.
Qed.

Lemma fit_lists (p : Packer) (blocks : list Block) (binIdx : nat) :
  let r := fit p blocks binIdx in
  index <$> (Result.packedBlocks r ++ Result.remainingBlocks r) ≡ₚ index <$> blocks
  /\ (length (Result.packedBlocks r) + length (Result.remainingBlocks r))%nat = length blocks
  /\ Result.count r = length (Result.packedBlocks r).
Proof.
  cbn zeta. unfold fit. cbn [Result.packedBlocks Result.remainingBlocks Result.count].
  destruct (fit_loop_from_lists p binIdx blocks (fit_init p))
    as (pk & rm & Hp & Hr & _ & _ & Hperm).
  unfold fit_loop. rewrite Hp, Hr. cbn [fit_init fs_packedBlocks fs_remainingBlocks app].
  assert (index <$> ((if allow90DegreeRotation p then rotate else id) <$> rm) = index <$> rm) as E.
  { rewrite <- list_fmap_compose. apply list_fmap_ext. intros i b _. cbn.
    destruct (allow90DegreeRotation p); [apply rotate_index | reflexivity]. }
  assert (index <$> (pk ++ ((if allow90DegreeRotation p then rotate else id) <$> rm))
          ≡ₚ index <$> blocks) as Hperm'.
  { rewrite fmap_app, E, <- fmap_app. exact Hperm. }
  split; [exact Hperm' |]. split; [| reflexivity].
  apply Permutation_length in Hperm'. rewrite !length_fmap, length_app in Hperm'. exact Hperm'.
Qed.

(** ** Free regions stay free *)

Lemma overlap_area_apart (r s : HeapBlock.t) : overlap_area r s = 0 <-> apart r s.
Proof.
  unfold overlap_area, apart. rewrite Z.mul_eq_0. split; intros [H | H]; [left | right | left | right]; lia.
Qed.

Lemma apart_sym (r s : HeapBlock.t) : apart r s -> apart s r.
Proof. unfold apart. lia. Qed.

(** A rectangle inside a free region is free. *)
Lemma region_ok_sub (W H : Z) (placed : list HeapBlock.t) (r r' : HeapBlock.t) :
  region_ok W H placed r ->
  HeapBlock.x0 r <= HeapBlock.x0 r' -> HeapBlock.x1 r' <= HeapBlock.x1 r ->
  HeapBlock.y0 r <= HeapBlock.y0 r' -> HeapBlock.y1 r' <= HeapBlock.y1 r ->
  region_ok W H placed r'.
Proof.
  intros [Hin Hap] ? ? ? ?. split.
  - unfold inside in *. lia.
  - intros q Hq. specialize (Hap q Hq). unfold apart in *. lia.
Qed.

Lemma intersect_Some (r s i : HeapBlock.t) :
  intersect r s = Some i ->
  Z.max (HeapBlock.x0 r) (HeapBlock.x0 s) <= Z.min (HeapBlock.x1 r) (HeapBlock.x1 s)
  /\ Z.max (HeapBlock.y0 r) (HeapBlock.y0 s) <= Z.min (HeapBlock.y1 r) (HeapBlock.y1 s)
  /\ i = HeapBlock.mk (Z.max (HeapBlock.x0 r) (HeapBlock.x0 s))
                      (Z.max (HeapBlock.y0 r) (HeapBlock.y0 s))
                      (Z.min (HeapBlock.x1 r) (HeapBlock.x1 s))
                      (Z.min (HeapBlock.y1 r) (HeapBlock.y1 s)).
Proof.
  unfold intersect. intros H.
  destruct (_ && _) eqn:E; [| discriminate]. bools. injection H as <-. auto.
Qed.

Lemma intersect_None (r s : HeapBlock.t) : intersect r s = None -> apart r s.
Proof.
  unfold intersect, apart. intros H.
  destruct (_ && _) eqn:E; [discriminate |]. bools. destruct E; bools; lia.
Qed.

(** Overlap of intervals, one axis at a time. *)
Lemma overlap_mono (a0 a1 c0 c1 q0 q1 : Z) :
  a0 <= c0 -> c1 <= a1 ->
  Z.min c1 q1 - Z.max c0 q0 <= Z.min a1 q1 - Z.max a0 q0.
Proof. lia. Qed.

Lemma overlap_union (b0 b1 d0 d1 s0 s1 : Z) :
  Z.max b0 d0 <= Z.min b1 d1 ->
  Z.min b1 s1 - Z.max b0 s0 <= 0 ->
  Z.min d1 s1 - Z.max d0 s0 <= 0 ->
  Z.min (Z.max b1 d1) s1 - Z.max (Z.min b0 d0) s0 <= 0.
Proof. lia. Qed.

(** The first assignment of [expand]: [heapBlock1] grown along y. *)
Lemma grow_y_ok (W H : Z) (placed : list HeapBlock.t) (h0 h1 : HeapBlock.t) :
  region_ok W H placed h0 -> region_ok W H placed h1 -> meet h0 h1 ->
  HeapBlock.x0 h0 <= HeapBlock.x0 h1 -> HeapBlock.x1 h1 <= HeapBlock.x1 h0 ->
  let h1' := HeapBlock.mk (HeapBlock.x0 h1) (Z.min (HeapBlock.y0 h0) (HeapBlock.y0 h1))
                          (HeapBlock.x1 h1) (Z.max (HeapBlock.y1 h0) (HeapBlock.y1 h1)) in
  region_ok W H placed h1' /\ meet h0 h1'.
Proof.
  intros [Hin0 Hap0] [Hin1 Hap1] [Hx Hy] Hl Hr h1'. subst h1'.
  destruct h0 as [a0 b0 a1 b1], h1 as [c0 d0 c1 d1].
  unfold region_ok, inside, meet in *. cbn in *.
  split; [split |].
  - lia.
  - intros [q0 s0 q1 s1] Hq.
    specialize (Hap0 _ Hq). specialize (Hap1 _ Hq). unfold apart in *. clear Hq. cbn in *.
    pose proof (overlap_mono a0 a1 c0 c1 q0 q1 Hl Hr) as Hm.
    destruct Hap1 as [H1 | H1]; [left; exact H1 |].
    destruct Hap0 as [H0 | H0]; [left; eapply Z.le_trans; eassumption |].
    right. apply overlap_union; assumption.
  - clear Hap0 Hap1. lia.
Qed.

(** The second assignment of [expand]: [heapBlock1] grown along x. *)
Lemma grow_x_ok (W H : Z) (placed : list HeapBlock.t) (h0 h1 : HeapBlock.t) :
  region_ok W H placed h0 -> region_ok W H placed h1 -> meet h0 h1 ->
  HeapBlock.y0 h0 <= HeapBlock.y0 h1 -> HeapBlock.y1 h1 <= HeapBlock.y1 h0 ->
  let h1' := HeapBlock.mk (Z.min (HeapBlock.x0 h0) (HeapBlock.x0 h1)) (HeapBlock.y0 h1)
                          (Z.max (HeapBlock.x1 h0) (HeapBlock.x1 h1)) (HeapBlock.y1 h1) in
  region_ok W H placed h1' /\ meet h0 h1'.
Proof.
  intros [Hin0 Hap0] [Hin1 Hap1] [Hx Hy] Hl Hr h1'. subst h1'.
  destruct h0 as [a0 b0 a1 b1], h1 as [c0 d0 c1 d1].
  unfold region_ok, inside, meet in *. cbn in *.
  split; [split |].
  - lia.
  - intros [q0 s0 q1 s1] Hq.
    specialize (Hap0 _ Hq). specialize (Hap1 _ Hq). unfold apart in *. clear Hq. cbn in *.
    pose proof (overlap_mono b0 b1 d0 d1 s0 s1 Hl Hr) as Hm.
    destruct Hap1 as [H1 | H1]; [| right; exact H1].
    destruct Hap0 as [H0 | H0]; [| right; eapply Z.le_trans; eassumption].
    left. apply overlap_union; assumption.
  - clear Hap0 Hap1. lia.
Qed.

(** [expand] of two free regions that meet gives a free region that still
    meets the first. *)
Lemma expand_ok (W H : Z) (placed : list HeapBlock.t) (h0 h1 : HeapBlock.t) :
  region_ok W H placed h0 -> region_ok W H placed h1 -> meet h0 h1 ->
  region_ok W H placed (expand h0 h1) /\ meet h0 (expand h0 h1).
Proof.
  intros H0 H1 Hm. unfold expand.
  match goal with
  | |- context [if ?c then HeapBlock.mk _ (Z.min _ _) _ _ else _] => destruct c eqn:E1
  end.
  - bools.
    destruct (grow_y_ok W H placed h0 h1 H0 H1 Hm) as [H1' Hm']; [assumption .. |].
    match goal with |- context [if ?c then _ else _] => destruct c eqn:E2 end.
    + bools. apply grow_x_ok; assumption.
    + split; assumption.
  - match goal with |- context [if ?c then _ else _] => destruct c eqn:E2 end.
    + bools. apply grow_x_ok; assumption.
    + split; assumption.
Qed.

Lemma meet_sym (r s : HeapBlock.t) : meet r s -> meet s r.
Proof. unfold meet. lia. Qed.

Lemma intersect_meet (r s i : HeapBlock.t) : intersect r s = Some i -> meet r s.
Proof. intros Hi. apply intersect_Some in Hi as (Hx & Hy & _). split; assumption. Qed.

Lemma unionMax_ok (W H : Z) (placed : list HeapBlock.t) (e0 e1 : option HeapBlock.t) :
  entry_ok W H placed e0 -> entry_ok W H placed e1 ->
  entry_ok W H placed (unionMax e0 e1).1 /\ entry_ok W H placed (unionMax e0 e1).2.
Proof.
  intros H0 H1. unfold unionMax.
  destruct e0 as [h0 |], e1 as [h1 |]; cbn; auto.
  destruct (intersect h0 h1) as [i |] eqn:Hi; cbn; auto.
  destruct (chunkContains h0 h1); cbn; auto.
  destruct (chunkContains h1 h0); cbn; auto.
  cbn in H0, H1. apply intersect_meet in Hi.
  destruct (expand_ok W H placed h0 h1 H0 H1 Hi) as [Hk Hm].
  split; [| exact Hk].
  apply (expand_ok W H placed (expand h0 h1) h0 Hk H0), meet_sym, Hm.
Qed.

Lemma foldl_invariant {A B : Type} (P : A -> Prop) (f : A -> B -> A) (l : list B) (a : A) :
  (forall x y, P x -> P (f x y)) -> P a -> P (foldl f a l).
Proof. intros Hf. revert a. induction l as [| y l IH]; intros a Ha; cbn; auto. Qed.

Lemma unionAll_body_ok (W H : Z) (placed : list HeapBlock.t) (i j : nat)
    (heap : list (option HeapBlock.t)) :
  Forall (entry_ok W H placed) heap ->
  Forall (entry_ok W H placed) (unionAll_body i j heap).
Proof.
  intros Hall. unfold unionAll_body.
  destruct (decide (i = j)) as [_ | _]; [exact Hall |].
  destruct (heap !! i) as [hi |] eqn:Ei; [| exact Hall].
  destruct (heap !! j) as [hj |] eqn:Ej; [| exact Hall].
  pose proof (Forall_lookup_1 _ _ _ _ Hall Ei) as Hi.
  pose proof (Forall_lookup_1 _ _ _ _ Hall Ej) as Hj.
  destruct (unionMax_ok W H placed hi hj Hi Hj) as [Hi' Hj'].
  destruct (unionMax hi hj) as [hi' hj']. cbn in Hi', Hj'.
  assert (Forall (entry_ok W H placed) (<[j:=hj']> (<[i:=hi']> heap))) as Hall1.
  { apply Forall_insert; [apply Forall_insert |]; assumption. }
  destruct hi' as [a |]; [| exact Hall1].
  destruct hj' as [b |]; [| exact Hall1].
  destruct (chunkContains b a); [apply Forall_insert; [exact Hall1 | exact I] |].
  destruct (chunkContains a b); [apply Forall_insert; [exact Hall1 | exact I] |].
  exact Hall1.
Qed.

Lemma unionAll_ok (W H : Z) (placed : list HeapBlock.t) (heap : list (option HeapBlock.t)) :
  Forall (entry_ok W H placed) heap ->
  Forall (region_ok W H placed) (unionAll heap).
Proof.
  intros Hall. unfold unionAll, unionAll_loops.
  assert (Forall (entry_ok W H placed)
            (foldl (fun hp i => foldl (fun hp' j => unionAll_body i j hp') hp
                                      (seq 0 (length heap))) heap (seq 0 (length heap))))
    as Hloops.
  { apply foldl_invariant; [| exact Hall].
    intros hp i Hhp. apply foldl_invariant; [| exact Hhp].
    intros hp' j Hhp'. apply unionAll_body_ok, Hhp'. }
  apply Forall_forall. intros r Hr.
  apply list_elem_of_omap in Hr as (e & He & Hid). cbn in Hid. subst e.
  rewrite Forall_forall in Hloops. exact (Hloops _ He).
Qed.

(** The regions pushed for an intersected heap block lie in it and are
    apart from the block that was placed. *)
Lemma residuals_ok (W H : Z) (placed : list HeapBlock.t) (hb blk ov r : HeapBlock.t) :
  region_ok W H placed hb -> intersect hb blk = Some ov -> r ∈ residuals hb ov ->
  region_ok W H placed r /\ apart r blk.
Proof.
  intros Hok Hi Hr. apply intersect_Some in Hi as (Hx & Hy & ->).
  destruct hb as [a0 b0 a1 b1], blk as [c0 d0 c1 d1]. cbn in *.
  unfold residuals in Hr. cbn in Hr.
  repeat (apply elem_of_app in Hr as [Hr | Hr]);
    match type of Hr with
    | _ ∈ (if ?c then _ else _) => destruct c eqn:E
    end;
    try (apply elem_of_nil in Hr; contradiction);
    apply list_elem_of_singleton in Hr; subst r; bools;
    (split; [eapply region_ok_sub; [exact Hok | cbn; lia ..] | unfold apart; cbn; lia]).
Qed.

(** The loop of [adjustHeap] after [k] iterations: every entry is free of
    what was placed before, and the entries already visited or pushed are
    apart from the new block. *)
Lemma adjustHeap_loop_ok (W H : Z) (placed : list HeapBlock.t) (blk : HeapBlock.t)
    (heap : list HeapBlock.t) (k : nat) :
  Forall (region_ok W H placed) heap ->
  let hp := foldl (adjustHeap_body blk) (Some <$> heap) (seq 0 k) in
  (length heap <= length hp)%nat
  /\ forall j e, hp !! j = Some (Some e) ->
       region_ok W H placed e /\ ((j < k \/ length heap <= j)%nat -> apart e blk).
Proof.
  intros Hall. induction k as [| k IH]; cbn zeta.
  - cbn. rewrite length_fmap. split; [lia |].
    intros j e Hj. rewrite list_lookup_fmap in Hj.
    destruct (heap !! j) as [e' |] eqn:Ej; [| discriminate]. cbn in Hj.
    injection Hj as ->. split.
    + exact (Forall_lookup_1 _ _ _ _ Hall Ej).
    + apply lookup_lt_Some in Ej. lia.
  - rewrite seq_S, foldl_app. cbn [foldl Nat.add].
    cbn zeta in IH. destruct IH as [Hlen IH].
    set (hp := foldl (adjustHeap_body blk) (Some <$> heap) (seq 0 k)) in *.
    unfold adjustHeap_body.
    destruct (hp !! k) as [[hb |] |] eqn:Ek.
    + destruct (intersect hb blk) as [ov |] eqn:Ei.
      * destruct (IH _ _ Ek) as [Hhb _].
        split; [rewrite length_insert, length_app; lia |].
        intros j e Hj.
        destruct (decide (j = k)) as [-> | Hne].
        { rewrite list_lookup_insert_eq in Hj; [discriminate |].
          rewrite length_app. apply lookup_lt_Some in Ek. lia. }
        rewrite list_lookup_insert_ne in Hj by congruence.
        apply lookup_app_Some in Hj as [Hj | [Hge Hj]].
        { destruct (IH _ _ Hj) as [Hok Hap]. split; [exact Hok |].
          intros Hc. apply Hap. lia. }
        rewrite list_lookup_fmap in Hj.
        destruct (residuals hb ov !! (j - length hp)%nat) as [r |] eqn:Er; [| discriminate].
        cbn in Hj. injection Hj as ->.
        apply list_elem_of_lookup_2 in Er.
        destruct (residuals_ok W H placed hb blk ov e Hhb Ei Er) as [Hok Hap].
        split; [exact Hok | intros _; exact Hap].
      * split; [exact Hlen |]. intros j e Hj.
        destruct (IH _ _ Hj) as [Hok Hap]. split; [exact Hok |].
        intros Hc. destruct (decide (j = k)) as [-> | Hne]; [| apply Hap; lia].
        rewrite Ek in Hj. injection Hj as ->. apply intersect_None, Ei.
    + split; [exact Hlen |]. intros j e Hj.
      destruct (IH _ _ Hj) as [Hok Hap]. split; [exact Hok |].
      intros Hc. destruct (decide (j = k)) as [-> | Hne]; [| apply Hap; lia].
      rewrite Ek in Hj. discriminate.
    + split; [exact Hlen |]. intros j e Hj.
      destruct (IH _ _ Hj) as [Hok Hap]. split; [exact Hok |].
      intros Hc. destruct (decide (j = k)) as [-> | Hne]; [| apply Hap; lia].
      rewrite Ek in Hj. discriminate.
Qed.

(** [adjustHeap] after a placement at [blk]: the heap is free of [blk] and
    of what was placed before. *)
Lemma adjustHeap_ok (W H : Z) (placed : list HeapBlock.t) (heap : list HeapBlock.t)
    (block : Block) (blk : HeapBlock.t) :
  Forall (region_ok W H placed) heap ->
  block_corners block = Some blk ->
  Forall (region_ok W H (placed ++ [blk])) (adjustHeap heap block).
Proof.
  intros Hall Hc. unfold adjustHeap. rewrite Hc.
  apply unionAll_ok, Forall_lookup. intros j [e |] Hj; [| exact I].
  destruct (adjustHeap_loop_ok W H placed blk heap (length heap) Hall) as [_ Hk].
  destruct (Hk _ _ Hj) as [[Hin Hap] Hblk].
  split; [exact Hin |].
  intros q Hq. apply elem_of_app in Hq as [Hq | Hq]; [exact (Hap _ Hq) |].
  apply list_elem_of_singleton in Hq. subst q. apply Hblk. lia.
Qed.

(** ** The invariant of [fit] *)

Lemma pairwise_apart_snoc (Q : list HeapBlock.t) (q : HeapBlock.t) :
  pairwise_apart Q -> (forall q', q' ∈ Q -> apart q q') -> pairwise_apart (Q ++ [q]).
Proof.
  intros HQ Hq i j q1 q2 Hne H1 H2.
  apply lookup_app_Some in H1 as [H1 | [Hi H1]];
    apply lookup_app_Some in H2 as [H2 | [Hj H2]].
  - exact (HQ i j q1 q2 Hne H1 H2).
  - apply list_lookup_singleton_Some in H2 as [_ <-].
    apply apart_sym, Hq. eapply list_elem_of_lookup_2, H1.
  - apply list_lookup_singleton_Some in H1 as [_ <-].
    apply Hq. eapply list_elem_of_lookup_2, H2.
  - apply list_lookup_singleton_Some in H1 as [E1 _].
    apply list_lookup_singleton_Some in H2 as [E2 _]. lia.
Qed.

(** Placing a block in a free region that fits keeps the invariant. *)
Lemma fit_inv_place (p : Packer) (binIdx : nat) (st : FitState) (b : Block)
    (r : HeapBlock.t) :
  fit_inv p st -> r ∈ fs_heap st -> fits b r ->
  fit_inv p (mkFitState (adjustHeap (fs_heap st) (place_at r b))
                        (fs_area st + w b * h b)
                        (fs_packedBlocks st ++ [set_binIndex binIdx (place_at r b)])
                        (fs_remainingBlocks st)).
Proof.
  intros (Q & HQ & Hheap & Hin & Hpw) Hr [Hw Hh].
  set (q := HeapBlock.mk (HeapBlock.x0 r) (HeapBlock.y0 r)
                         (HeapBlock.x0 r + w b) (HeapBlock.y0 r + h b)).
  pose proof (proj1 (Forall_forall _ _) Hheap r Hr) as Hrok.
  assert (region_ok (root_w p) (root_h p) Q q) as [Hqin Hqap].
  { eapply region_ok_sub; [exact Hrok | cbn; lia ..]. }
  exists (Q ++ [q]). cbn [fs_heap fs_packedBlocks]. repeat split.
  - rewrite !fmap_app, HQ. reflexivity.
  - apply adjustHeap_ok; [exact Hheap | reflexivity].
  - apply Forall_app. split; [exact Hin | constructor; [exact Hqin | constructor]].
  - apply pairwise_apart_snoc; assumption.
Qed.

Lemma fit_body_inv (p : Packer) (binIdx : nat) (st : FitState) (b : Block) :
  packed b = false -> fit_inv p st -> fit_inv p (fit_body p binIdx st b).
Proof.
  intros Hpk Hinv. unfold fit_body. rewrite fit_place_spec.
  destruct (list_find (fits b) (fs_heap st)) as [[i r] |] eqn:Ef.
  { apply list_find_Some in Ef as (Hl & Hfit & _).
    apply (fit_inv_place p binIdx st b r Hinv); [eapply list_elem_of_lookup_2, Hl | exact Hfit]. }
  destruct (allow90DegreeRotation p).
  - destruct (list_find (fits (rotate b)) (fs_heap st)) as [[i r] |] eqn:Er.
    { apply list_find_Some in Er as (Hl & Hfit & _).
      apply (fit_inv_place p binIdx st (rotate b) r Hinv);
        [eapply list_elem_of_lookup_2, Hl | exact Hfit]. }
    rewrite rotate_packed, Hpk. exact Hinv.
  - rewrite Hpk. exact Hinv.
Qed.

Lemma fit_init_inv (p : Packer) : fit_inv p (fit_init p).
Proof.
  exists []. cbn. repeat split.
  - constructor; [| constructor]. split.
    + unfold inside. cbn. lia.
    + intros q Hq. apply elem_of_nil in Hq. contradiction.
  - constructor.
  - intros i j q1 q2 _ H1. rewrite lookup_nil in H1. discriminate.
Qed.

Lemma fit_loop_inv (p : Packer) (binIdx : nat) (blocks : list Block) :
  unpacked blocks -> fit_inv p (fit_loop p binIdx blocks).
Proof.
  unfold fit_loop. generalize (fit_init_inv p). generalize (fit_init p).
  induction blocks as [| b blocks IH]; intros st Hst Hall; cbn; [exact Hst |].
  apply Forall_cons in Hall as [Hb Hall].
  apply IH; [apply fit_body_inv; assumption | exact Hall].
Qed.

(** Every block [fit] packs gets the bin index of the call. *)
Lemma fit_body_binIndex (p : Packer) (binIdx : nat) (st : FitState) (b : Block) :
  Forall (fun b' => binIndex b' = Some binIdx) (fs_packedBlocks st) ->
  Forall (fun b' => binIndex b' = Some binIdx) (fs_packedBlocks (fit_body p binIdx st b)).
Proof.
  intros Hall. unfold fit_body.
  destruct (fit_place p (fs_heap st) b) as [b' heap'].
  destruct (packed b'); cbn; [| exact Hall].
  apply Forall_app. split; [exact Hall | repeat constructor].
Qed.

Lemma fit_binIndex (p : Packer) (blocks : list Block) (binIdx : nat) :
  Forall (fun b => binIndex b = Some binIdx) (Result.packedBlocks (fit p blocks binIdx)).
Proof.
  unfold fit, fit_loop. cbn.
  apply (foldl_invariant
           (fun st => Forall (fun b => binIndex b = Some binIdx) (fs_packedBlocks st))).
  - intros st b. apply fit_body_binIndex.
  - constructor.
Qed.

Lemma fit_apart (p : Packer) (blocks : list Block) (binIdx : nat) :
  unpacked blocks -> no_overlap (Result.packedBlocks (fit p blocks binIdx)).
Proof.
  intros Hall i j b1 b2 Hne H1 H2 _.
  destruct (fit_loop_inv p binIdx blocks Hall) as (Q & HQ & _ & _ & Hpw).
  unfold fit in H1, H2. cbn in H1, H2.
  assert (forall k b, fs_packedBlocks (fit_loop p binIdx blocks) !! k = Some b ->
                      exists r, placement b = Some r /\ Q !! k = Some r) as Hk.
  { intros k b Hb.
    assert ((placement <$> fs_packedBlocks (fit_loop p binIdx blocks)) !! k
            = Some (placement b)) as E by (rewrite list_lookup_fmap, Hb; reflexivity).
    rewrite HQ, list_lookup_fmap in E.
    destruct (Q !! k) as [r |]; [| discriminate]. cbn in E. injection E as E.
    exists r. split; [symmetry; exact E | reflexivity]. }
  destruct (Hk _ _ H1) as (r1 & E1 & Q1). destruct (Hk _ _ H2) as (r2 & E2 & Q2).
  exists r1, r2. split; [exact E1 |]. split; [exact E2 |].
  apply overlap_area_apart. exact (Hpw i j r1 r2 Hne Q1 Q2).
Qed.

Lemma fit_contained (p : Packer) (blocks : list Block) (binIdx : nat) :
  unpacked blocks ->
  Forall (contained (root_w p) (root_h p)) (Result.packedBlocks (fit p blocks binIdx)).
Proof.
  intros Hall. apply Forall_lookup. intros k b Hk.
  destruct (fit_loop_inv p binIdx blocks Hall) as (Q & HQ & _ & Hin & _).
  unfold fit in Hk. cbn in Hk.
  assert ((placement <$> fs_packedBlocks (fit_loop p binIdx blocks)) !! k
          = Some (placement b)) as E by (rewrite list_lookup_fmap, Hk; reflexivity).
  rewrite HQ, list_lookup_fmap in E.
  destruct (Q !! k) as [r |] eqn:Er; [| discriminate]. cbn in E. injection E as E.
  pose proof (Forall_lookup_1 _ _ _ _ Hin Er) as Hr.
  unfold placement in E.
  destruct (x0 b) as [x |] eqn:Ex; [| discriminate].
  destruct (y0 b) as [y |] eqn:Ey; [| discriminate].
  injection E as E. subst r. unfold inside in Hr. cbn in Hr.
  exists x, y. repeat split; (assumption || lia).
Qed.

Lemma sublist_Forall {A : Type} (P : A -> Prop) (l k : list A) :
  sublist l k -> Forall P k -> Forall P l.
Proof.
  induction 1 as [| x l k _ IH | x l k _ IH]; intros Hk;
    [constructor | apply Forall_cons in Hk as [Hx Hk]; constructor; auto
    | apply Forall_cons in Hk as [_ Hk]; auto].
Qed.

Lemma fit_remaining_unpacked (p : Packer) (blocks : list Block) (binIdx : nat) :
  unpacked blocks -> unpacked (Result.remainingBlocks (fit p blocks binIdx)).
Proof.
  intros Hall. unfold fit. cbn [Result.remainingBlocks].
  destruct (fit_loop_from_lists p binIdx blocks (fit_init p)) as (pk & rm & _ & Hr & Hs & _ & _).
  unfold fit_loop. rewrite Hr. cbn [fit_init fs_remainingBlocks app].
  unfold unpacked in *. apply Forall_fmap.
  eapply Forall_impl; [exact (sublist_Forall _ _ _ Hs Hall) |].
  intros b Hb. cbn. destruct (allow90DegreeRotation p); [rewrite rotate_packed |]; exact Hb.
Qed.

(** ** Sorting reorders the blocks *)

Lemma interleave_length (l s : list Block) :
  length (interleave l s) = (length l + length s)%nat.
Proof.
  revert s. induction l as [| x l IH]; intros s; [reflexivity |].
  destruct s as [| y s]; cbn; rewrite IH; cbn; lia.
Qed.

Lemma swap_length (i j : nat) (things : list Block) : length (swap i j things) = length things.
Proof.
  unfold swap. destruct (things !! i); [| reflexivity].
  destruct (things !! j); [| reflexivity]. rewrite !length_insert. reflexivity.
Qed.

Lemma shuffle_loop_length (rnd : nat -> nat) (i : nat) (things : list Block) :
  length (shuffle_loop rnd i things) = length things.
Proof.
  revert things. induction i as [| i IH]; intros things; [reflexivity |].
  cbn. rewrite IH. apply swap_length.
Qed.

Lemma sortBlocksByInterleaving_length (H : Host) (blocks : list Block) :
  host_ok H -> length (sortBlocksByInterleaving H blocks) = length blocks.
Proof.
  intros Hok. unfold sortBlocksByInterleaving.
  rewrite interleave_length, <- length_app, take_drop.
  apply Permutation_length, Hok.
Qed.

Lemma sortBlocks_length (H : Host) (attempt : Attempt.t) (t : SortType) :
  host_ok H ->
  length (Attempt.remainingBlocks (sortBlocks H attempt t))
  = length (Attempt.remainingBlocks attempt).
Proof.
  intros Hok. unfold sortBlocks.
  assert (forall cmp l, length (array_sort H cmp l) = length l) as Hsort
    by (intros cmp l; apply Permutation_length, Hok).
  destruct t as [[| [| [| [| [| n]]]]] |]; cbn;
    first [apply Hsort | apply sortBlocksByInterleaving_length, Hok
          | apply shuffle_loop_length].
Qed.

(** [sortBlocks] assigns [remainingBlocks] and [sortType] only. *)
Lemma sortBlocks_frame (H : Host) (attempt : Attempt.t) (t : SortType) :
  let attempt' := sortBlocks H attempt t in
  Attempt.packedBlocks attempt' = Attempt.packedBlocks attempt
  /\ Attempt.score attempt' = Attempt.score attempt
  /\ Attempt.binCount attempt' = Attempt.binCount attempt
  /\ Attempt.index attempt' = Attempt.index attempt.
Proof.
  unfold sortBlocks. destruct t as [[| [| [| [| [| n]]]]] |]; cbn; repeat split.
Qed.

Lemma interleave_Forall (P : Block -> Prop) (l s : list Block) :
  Forall P l -> Forall P s -> Forall P (interleave l s).
Proof.
  revert s. induction l as [| x l IH]; intros s Hl Hs; [exact Hs |].
  apply Forall_cons in Hl as [Hx Hl]. destruct s as [| y s]; cbn.
  - constructor; [exact Hx | apply IH; [exact Hl | constructor]].
  - apply Forall_cons in Hs as [Hy Hs]. repeat constructor; try assumption. apply IH; assumption.
Qed.

Lemma swap_Forall (P : Block -> Prop) (i j : nat) (things : list Block) :
  Forall P things -> Forall P (swap i j things).
Proof.
  intros Hall. unfold swap.
  destruct (things !! i) as [a |] eqn:Ei; [| exact Hall].
  destruct (things !! j) as [b |] eqn:Ej; [| exact Hall].
  apply Forall_insert; [apply Forall_insert; [exact Hall |] |].
  - exact (Forall_lookup_1 _ _ _ _ Hall Ej).
  - exact (Forall_lookup_1 _ _ _ _ Hall Ei).
Qed.

Lemma shuffle_loop_Forall (P : Block -> Prop) (rnd : nat -> nat) (i : nat)
    (things : list Block) :
  Forall P things -> Forall P (shuffle_loop rnd i things).
Proof.
  revert things. induction i as [| i IH]; intros things Hall; [exact Hall |].
  cbn. apply IH, swap_Forall, Hall.
Qed.

Lemma sortBlocks_Forall (P : Block -> Prop) (H : Host) (attempt : Attempt.t) (t : SortType) :
  host_ok H ->
  Forall P (Attempt.remainingBlocks attempt) ->
  Forall P (Attempt.remainingBlocks (sortBlocks H attempt t)).
Proof.
  intros Hok Hall.
  assert (forall cmp l, Forall P l -> Forall P (array_sort H cmp l)) as Hsort.
  { intros cmp l Hl. rewrite (Hok cmp l). exact Hl. }
  unfold sortBlocks.
  destruct t as [[| [| [| [| [| n]]]]] |]; cbn;
    first [apply Hsort; exact Hall
          | apply shuffle_loop_Forall; exact Hall
          | idtac].
  unfold sortBlocksByInterleaving.
  apply interleave_Forall; [apply Forall_take | apply Forall_drop]; apply Hsort, Hall.
Qed.

Lemma make_blocks_length (H : Host) (s : Settings) (a n : nat) :
  length (make_blocks H s a n) = n.
Proof. unfold make_blocks. rewrite length_fmap, length_seq. reflexivity. Qed.

Lemma attempt_sorted_frame (H : Host) (s : Settings) (rnd : bool) (bins : list Bin)
    (n a : nat) :
  let attempt := attempt_sorted H s rnd bins n a in
  Attempt.packedBlocks attempt = []
  /\ Attempt.score attempt = Num 0%Q
  /\ Attempt.binCount attempt = length bins
  /\ Attempt.index attempt = a.
Proof.
  unfold attempt_sorted. destruct (s_doNotSort s); [repeat split |].
  destruct (sortBlocks_frame H
              (set_remainingBlocks (make_blocks H s a n) (Attempt_new a bins))
              (if rnd then SortInfinity else SortIndex a)) as (Hp & Hs & Hb & Hi).
  cbn zeta. rewrite Hp, Hs, Hb, Hi. repeat split.
Qed.

Lemma attempt_sorted_length (H : Host) (s : Settings) (rnd : bool) (bins : list Bin)
    (n a : nat) :
  host_ok H -> length (Attempt.remainingBlocks (attempt_sorted H s rnd bins n a)) = n.
Proof.
  intros Hok. unfold attempt_sorted. destruct (s_doNotSort s).
  - cbn. apply make_blocks_length.
  - rewrite sortBlocks_length by exact Hok. cbn. apply make_blocks_length.
Qed.

Lemma attempt_sorted_unpacked (H : Host) (s : Settings) (rnd : bool) (bins : list Bin)
    (n a : nat) :
  host_ok H -> unpacked (Attempt.remainingBlocks (attempt_sorted H s rnd bins n a)).
Proof.
  intros Hok.
  assert (unpacked (make_blocks H s a n)) as Hmk.
  { unfold unpacked, make_blocks. apply Forall_fmap, Forall_forall.
    intros j _. apply Block_new_unpacked. }
  unfold attempt_sorted. destruct (s_doNotSort s); [exact Hmk |].
  apply sortBlocks_Forall; [exact Hok | exact Hmk].
Qed.

(** ** The bins loop *)

Lemma bins_loop_lengths (s : Settings) (tic : nat) (tia : Z) (bins : list Bin) (i : nat)
    (attempt : Attempt.t) :
  let attempt' := bins_loop s tic tia i bins attempt in
  (length (Attempt.packedBlocks attempt') + length (Attempt.remainingBlocks attempt'))%nat
  = (length (Attempt.packedBlocks attempt) + length (Attempt.remainingBlocks attempt))%nat
  /\ Attempt.index attempt' = Attempt.index attempt.
Proof.
  revert i attempt. induction bins as [| bin rest IH]; intros i attempt; [split; reflexivity |].
  cbn [bins_loop]. cbn zeta.
  set (attempt1 := bins_body s tic tia i bin attempt).
  assert ((length (Attempt.packedBlocks attempt1) + length (Attempt.remainingBlocks attempt1))%nat
          = (length (Attempt.packedBlocks attempt) + length (Attempt.remainingBlocks attempt))%nat
          /\ Attempt.index attempt1 = Attempt.index attempt) as [H1 H2].
  { subst attempt1. unfold bins_body.
    cbn [Attempt.packedBlocks Attempt.remainingBlocks Attempt.index]. split; [| reflexivity].
    rewrite length_app.
    pose proof (fit_lists (Packer_new (width bin) (height bin) (s_allow90DegreeRotation s))
                  (Attempt.remainingBlocks attempt) i) as (_ & Hl & _).
    cbn zeta in Hl. lia. }
  destruct (Attempt.remainingBlocks attempt1) eqn:E.
  - rewrite E. split; assumption.
  - destruct (IH (S i) attempt1) as [H3 H4]. split; congruence.
Qed.

(** The score, the bin count and the remaining blocks after the bins
    loop, in terms of the bins it processed. *)
Lemma bins_loop_processed (s : Settings) (f : FitBy) (tic : nat) (tia : Z)
    (bins : list Bin) (i : nat) (attempt : Attempt.t) :
  bestFitBy s = fitBy_name f ->
  let attempt' := bins_loop s tic tia i bins attempt in
  let processed :=
    processed_bins (s_allow90DegreeRotation s) i bins (Attempt.remainingBlocks attempt) in
  Attempt.score attempt'
  = foldl (fun sc br => num_add sc (spec_bin_score f tic tia br)) (Attempt.score attempt) processed
  /\ Attempt.binCount attempt'
     = match processed with
       | [] => Attempt.binCount attempt
       | _ :: _ => (i + length processed)%nat
       end
  /\ Attempt.remainingBlocks attempt'
     = match last processed with
       | Some br => Result.remainingBlocks br.2
       | None => Attempt.remainingBlocks attempt
       end.
Proof.
  intros Hf. revert i attempt.
  induction bins as [| bin rest IH]; intros i attempt; [repeat split |].
  cbn [bins_loop processed_bins]. cbn zeta.
  set (r := fit (Packer_new (width bin) (height bin) (s_allow90DegreeRotation s))
                (Attempt.remainingBlocks attempt) i).
  set (attempt1 := bins_body s tic tia i bin attempt).
  assert (Attempt.remainingBlocks attempt1 = Result.remainingBlocks r) as Hrem by reflexivity.
  assert (Attempt.score attempt1
          = num_add (Attempt.score attempt) (spec_bin_score f tic tia (bin, r))) as Hsc.
  { subst attempt1 r. unfold bins_body, spec_bin_score, spec_scoreFactor, preferCount.
    cbn. rewrite Hf. destruct f; reflexivity. }
  assert (Attempt.binCount attempt1 = (i + 1)%nat) as Hbc by reflexivity.
  clearbody attempt1 r. rewrite Hrem.
  destruct (Result.remainingBlocks r) as [| b0 bs] eqn:E.
  - rewrite Hsc, Hbc, Hrem. cbn. rewrite E. repeat split.
  - destruct (IH (S i) attempt1) as (H1 & H2 & H3). rewrite Hrem in H1, H2, H3.
    cbn zeta in H1, H2, H3. rewrite H1, H2, H3, Hsc, Hbc.
    set (rest' := processed_bins (s_allow90DegreeRotation s) (S i) rest (b0 :: bs)).
    cbn [foldl length]. split; [reflexivity |]. split.
    + destruct rest'; cbn; lia.
    + destruct rest' as [| br rest'']; [cbn; symmetry; exact E |].
      rewrite last_cons_cons. destruct (last (br :: rest'')) eqn:El; [reflexivity |].
      apply last_None in El. discriminate.
Qed.

Lemma no_overlap_app (old new : list Block) (i : nat) :
  no_overlap old -> no_overlap new ->
  Forall (fun b => exists j, (j < i)%nat /\ binIndex b = Some j) old ->
  Forall (fun b => binIndex b = Some i) new ->
  no_overlap (old ++ new).
Proof.
  intros Hold Hnew Hlt Heq k l b1 b2 Hne H1 H2 Hbin.
  apply lookup_app_Some in H1 as [H1 | [Hk H1]];
    apply lookup_app_Some in H2 as [H2 | [Hl H2]].
  - exact (Hold k l b1 b2 Hne H1 H2 Hbin).
  - exfalso. destruct (Forall_lookup_1 _ _ _ _ Hlt H1) as (j & Hj & E1).
    pose proof (Forall_lookup_1 _ _ _ _ Heq H2) as E2. rewrite E1, E2 in Hbin.
    injection Hbin as ->. lia.
  - exfalso. destruct (Forall_lookup_1 _ _ _ _ Hlt H2) as (j & Hj & E2).
    pose proof (Forall_lookup_1 _ _ _ _ Heq H1) as E1. rewrite E1, E2 in Hbin.
    injection Hbin as <-. lia.
  - apply (Hnew (k - length old)%nat (l - length old)%nat b1 b2); [lia | assumption ..].
Qed.

(** The bins loop from bin [length done] on: the blocks it packs carry
    the index of the bin they lie in, and blocks of one bin share no area. *)
Lemma bins_loop_placed (s : Settings) (tic : nat) (tia : Z) (rest done : list Bin)
    (attempt : Attempt.t) :
  unpacked (Attempt.remainingBlocks attempt) ->
  Forall (fun b => exists j, (j < length done)%nat /\ binIndex b = Some j)
         (Attempt.packedBlocks attempt) ->
  Forall (in_its_bin (done ++ rest)) (Attempt.packedBlocks attempt) ->
  no_overlap (Attempt.packedBlocks attempt) ->
  let attempt' := bins_loop s tic tia (length done) rest attempt in
  Forall (in_its_bin (done ++ rest)) (Attempt.packedBlocks attempt')
  /\ no_overlap (Attempt.packedBlocks attempt').
Proof.
  revert done attempt. induction rest as [| bin rest IH]; intros done attempt Hun Hlt Hin Hno.
  { split; assumption. }
  cbn [bins_loop]. cbn zeta.
  set (p := Packer_new (width bin) (height bin) (s_allow90DegreeRotation s)).
  set (r := fit p (Attempt.remainingBlocks attempt) (length done)).
  set (attempt1 := bins_body s tic tia (length done) bin attempt).
  assert (Attempt.packedBlocks attempt1 = Attempt.packedBlocks attempt ++ Result.packedBlocks r)
    as Hp1 by reflexivity.
  assert (Attempt.remainingBlocks attempt1 = Result.remainingBlocks r) as Hr1 by reflexivity.
  pose proof (fit_binIndex p (Attempt.remainingBlocks attempt) (length done)) as Hbi.
  pose proof (fit_contained p (Attempt.remainingBlocks attempt) (length done) Hun) as Hct.
  pose proof (fit_apart p (Attempt.remainingBlocks attempt) (length done) Hun) as Hap.
  pose proof (fit_remaining_unpacked p (Attempt.remainingBlocks attempt) (length done) Hun)
    as Hun1.
  fold r in Hbi, Hct, Hap, Hun1.
  assert (Forall (in_its_bin (done ++ bin :: rest)) (Attempt.packedBlocks attempt1)) as Hin1.
  { rewrite Hp1. apply Forall_app. split; [exact Hin |].
    apply Forall_lookup. intros k b Hk.
    exists (length done), bin. split; [exact (Forall_lookup_1 _ _ _ _ Hbi Hk) |].
    split; [apply list_lookup_middle; reflexivity |].
    exact (Forall_lookup_1 _ _ _ _ Hct Hk). }
  assert (no_overlap (Attempt.packedBlocks attempt1)) as Hno1.
  { rewrite Hp1. eapply no_overlap_app; eassumption. }
  clearbody attempt1 r.
  destruct (Attempt.remainingBlocks attempt1) as [| b0 bs] eqn:E; [split; assumption |].
  replace (S (length done)) with (length (done ++ [bin])) by (rewrite length_app; cbn; lia).
  replace (done ++ bin :: rest) with ((done ++ [bin]) ++ rest) in *
    by (rewrite <- app_assoc; reflexivity).
  apply IH; try assumption.
  - rewrite E, Hr1. exact Hun1.
  - rewrite Hp1. apply Forall_app. split.
    + eapply Forall_impl; [exact Hlt |]. intros b (j & Hj & Ej). exists j.
      rewrite length_app. cbn. split; [lia | exact Ej].
    + eapply Forall_impl; [exact Hbi |]. intros b Eb. exists (length done).
      rewrite length_app. cbn. split; [lia | exact Eb].
Qed.

(** ** One attempt *)

Lemma run_attempt_lengths (H : Host) (s : Settings) (rnd : bool) (bins : list Bin)
    (n : nat) (tia : Z) (a : nat) :
  host_ok H ->
  let attempt := run_attempt H s rnd bins n tia a in
  (length (Attempt.packedBlocks attempt) + length (Attempt.remainingBlocks attempt))%nat = n.
Proof.
  intros Hok. unfold run_attempt. cbn.
  destruct (bins_loop_lengths s n tia bins 0 (attempt_sorted H s rnd bins n a)) as [Hl _].
  cbn zeta in Hl. rewrite Hl.
  destruct (attempt_sorted_frame H s rnd bins n a) as (-> & _).
  rewrite attempt_sorted_length by exact Hok. reflexivity.
Qed.

Lemma run_attempt_index (H : Host) (s : Settings) (rnd : bool) (bins : list Bin)
    (n : nat) (tia : Z) (a : nat) :
  Attempt.index (run_attempt H s rnd bins n tia a) = a.
Proof.
  unfold run_attempt. cbn.
  destruct (bins_loop_lengths s n tia bins 0 (attempt_sorted H s rnd bins n a)) as [_ Hi].
  cbn zeta in Hi. rewrite Hi. apply attempt_sorted_frame.
Qed.

Lemma run_attempt_score (H : Host) (s : Settings) (rnd : bool) (bins : list Bin)
    (n : nat) (tia : Z) (a : nat) (f : FitBy) :
  bestFitBy s = fitBy_name f ->
  let attempt := run_attempt H s rnd bins n tia a in
  let processed :=
    processed_bins (s_allow90DegreeRotation s) 0 bins
                   (Attempt.remainingBlocks (attempt_sorted H s rnd bins n a)) in
  Attempt.score attempt
  = spec_score f n tia (length bins) processed (length (Attempt.remainingBlocks attempt))
  /\ Attempt.binCount attempt = length processed.
Proof.
  intros Hf. cbn zeta. unfold run_attempt.
  cbn [set_score Attempt.score Attempt.binCount Attempt.remainingBlocks].
  destruct (bins_loop_processed s f n tia bins 0 (attempt_sorted H s rnd bins n a) Hf)
    as (Hs & Hb & _).
  cbn zeta in Hs, Hb.
  destruct (attempt_sorted_frame H s rnd bins n a) as (_ & Hs0 & Hb0 & _).
  rewrite Hs0 in Hs. rewrite Hb0 in Hb.
  set (processed := processed_bins (s_allow90DegreeRotation s) 0 bins
                      (Attempt.remainingBlocks (attempt_sorted H s rnd bins n a))) in *.
  assert (Attempt.binCount (bins_loop s n tia 0 bins (attempt_sorted H s rnd bins n a))
          = length processed) as Hbc.
  { rewrite Hb. destruct processed eqn:E; [| reflexivity].
    subst processed. destruct bins; [reflexivity | discriminate]. }
  split; [| exact Hbc].
  unfold spec_score. rewrite Hs, Hbc. reflexivity.
Qed.

Lemma run_attempt_placed (H : Host) (s : Settings) (rnd : bool) (bins : list Bin)
    (n : nat) (tia : Z) (a : nat) :
  host_ok H ->
  let attempt := run_attempt H s rnd bins n tia a in
  Forall (in_its_bin bins) (Attempt.packedBlocks attempt)
  /\ no_overlap (Attempt.packedBlocks attempt).
Proof.
  intros Hok. unfold run_attempt. cbn [set_score Attempt.packedBlocks].
  destruct (attempt_sorted_frame H s rnd bins n a) as (Hp & _).
  apply (bins_loop_placed s n tia bins [] (attempt_sorted H s rnd bins n a)).
  - apply attempt_sorted_unpacked, Hok.
  - rewrite Hp. constructor.
  - rewrite Hp. constructor.
  - rewrite Hp. intros i j b1 b2 _ H1. cbn in H1. discriminate.
Qed.

(** ** The attempts loop and the run *)

Lemma best_of_snoc (l : list Attempt.t) (x : Attempt.t) :
  best_of (l ++ [x]) = better (best_of l) x.
Proof. unfold best_of. rewrite foldl_app. reflexivity. Qed.

Lemma best_of_elem (l : list Attempt.t) (b : Attempt.t) : best_of l = Some b -> b ∈ l.
Proof.
  revert b. induction l as [| x l IH] using rev_ind; intros b; [discriminate |].
  rewrite best_of_snoc. unfold better.
  destruct (best_of l) as [b0 |].
  - destruct (num_gtb (Attempt.score x) (Attempt.score b0)); intros E; injection E as <-.
    + apply elem_of_app. right. apply list_elem_of_here.
    + apply elem_of_app. left. apply IH. reflexivity.
  - intros E; injection E as <-. apply elem_of_app. right. apply list_elem_of_here.
Qed.

Lemma best_of_None (l : list Attempt.t) : best_of l = None <-> l = [].
Proof.
  split; [| intros ->; reflexivity].
  destruct l as [| x l] using rev_ind; [reflexivity |].
  rewrite best_of_snoc. unfold better.
  destruct (best_of l) as [b0 |]; [destruct (num_gtb _ _) |]; discriminate.
Qed.

Lemma attempts_body_ok (H : Host) (s : Settings) (rnd : bool) (bins : list Bin) (n a : nat)
    (st : LoopState) :
  loop_ok H s rnd bins n a st ->
  let st' := attempts_body H s rnd bins n a st in
  attempts st' = attempts st ++ [run_attempt H s rnd bins n (total_area H s n) a]
  /\ loop_ok H s rnd bins n (S a) st'.
Proof.
  intros (Hlen & Hbest & Htia & Hall). cbn zeta. unfold attempts_body.
  assert ((if (a =? 0)%nat
           then foldl (fun acc block => acc + w block * h block) (totalItemArea st)
                      (make_blocks H s a n)
           else totalItemArea st) = total_area H s n) as ->.
  { rewrite Htia. destruct (Nat.eqb_spec a 0) as [-> | _]; reflexivity. }
  cbn [attempts bestAttempt totalItemArea]. split; [reflexivity |].
  unfold loop_ok. cbn [attempts bestAttempt totalItemArea].
  split; [| split; [| split]].
  - rewrite length_app. cbn. lia.
  - rewrite best_of_snoc, Hbest. reflexivity.
  - reflexivity.
  - intros k attempt Hk. apply lookup_app_Some in Hk as [Hk | [Hge Hk]]; [exact (Hall _ _ Hk) |].
    apply list_lookup_singleton_Some in Hk as [Hk <-].
    replace k with a by lia. reflexivity.
Qed.

Lemma all_fitting_early_exit (s : Settings) (k : nat) (st : LoopState) (made : list Attempt.t) :
  bestAttempt st = best_of (take (S k) made) ->
  all_fitting s k st = true <-> early_exit s k made.
Proof.
  intros Hb. unfold all_fitting, early_exit. rewrite Hb.
  rewrite !andb_true_iff, negb_true_iff, Nat.ltb_lt.
  split.
  - intros [[Ht Hk] Hr]. split; [exact Ht |]. split; [exact Hk |].
    destruct (best_of (take (S k) made)) as [b |]; [| discriminate].
    exists b. split; [reflexivity |].
    apply Nat.eqb_eq in Hr. destruct (Attempt.remainingBlocks b); [reflexivity | discriminate].
  - intros (Ht & Hk & b & -> & Hr). rewrite Hr. repeat split; assumption.
Qed.

(** The attempts loop from index [a] with [m] indices left: the attempts
    it adds, and when it goes on after each of them. *)
Lemma attempts_loop_spec (H : Host) (s : Settings) (rnd : bool) (bins : list Bin)
    (n m a : nat) (st : LoopState) :
  loop_ok H s rnd bins n a st ->
  let st' := attempts_loop H s rnd bins n m a st in
  exists l,
    attempts st' = attempts st ++ l
    /\ loop_ok H s rnd bins n (a + length l) st'
    /\ (length l <= m)%nat
    /\ (0 < m -> 0 < length l)%nat
    /\ (s_doNotSort s = true -> length l = Nat.min 1 m)
    /\ (s_doNotSort s = false ->
        forall k, (a <= k < a + length l)%nat ->
          ((S k < a + length l)%nat
           <-> (S k < a + m)%nat /\ ~ early_exit s k (attempts st'))).
Proof.
  revert a st. induction m as [| m IH]; intros a st Hok; cbn zeta.
  { exists []. cbn [attempts_loop length]. rewrite app_nil_r, Nat.add_0_r.
    split; [reflexivity |]. split; [exact Hok |]. split; [lia |]. split; [lia |].
    split; [intros _; reflexivity |]. intros _ k Hk. lia. }
  cbn [attempts_loop].
  destruct (attempts_body_ok H s rnd bins n a st Hok) as [Hatt Hok1].
  set (st1 := attempts_body H s rnd bins n a st) in *.
  set (x := run_attempt H s rnd bins n (total_area H s n) a) in *.
  assert (bestAttempt st1 = best_of (take (S a) (attempts st1))) as Hb1.
  { destruct Hok1 as (Hl1 & Hb & _). rewrite Hb, <- Hl1, firstn_all. reflexivity. }
  assert (loop_ok H s rnd bins n (a + length [x]) st1) as Hok1'.
  { cbn [length]. replace (a + 1)%nat with (S a) by lia. exact Hok1. }
  destruct (s_doNotSort s) eqn:Hd.
  { exists [x]. split; [exact Hatt |]. split; [exact Hok1' |].
    cbn [length]. split; [lia |]. split; [lia |]. split; [intros _; lia | discriminate]. }
  destruct (all_fitting s a st1) eqn:Hexit.
  { exists [x]. split; [exact Hatt |]. split; [exact Hok1' |].
    cbn [length]. split; [lia |]. split; [lia |]. split; [discriminate |].
    intros _ k Hk. replace k with a by lia. split; [lia |].
    intros [_ Hne]. exfalso. apply Hne.
    apply (all_fitting_early_exit s a st1 (attempts st1) Hb1). exact Hexit. }
  destruct (IH (S a) st1 Hok1) as (l & Hl & Hok2 & Hle & Hpos & _ & Hiff).
  set (st2 := attempts_loop H s rnd bins n m (S a) st1) in *.
  exists (x :: l).
  assert (attempts st2 = attempts st ++ x :: l) as Hatt2.
  { rewrite Hl, Hatt, <- app_assoc. reflexivity. }
  cbn [length].
  replace (a + S (length l))%nat with (S a + length l)%nat by lia.
  split; [exact Hatt2 |]. split; [exact Hok2 |]. split; [lia |]. split; [lia |].
  split; [discriminate |].
  intros _ k Hk. split.
  - intros Hlt. destruct (decide (k = a)) as [-> | Hne].
    + split; [lia |]. intros Hee.
      assert (take (S a) (attempts st2) = attempts st1) as Ht.
      { rewrite Hl. destruct Hok1 as (Hl1 & _). rewrite take_app_length'; [reflexivity | lia]. }
      apply (all_fitting_early_exit s a st1 (attempts st2)) in Hee; [congruence |].
      rewrite Ht. destruct Hok1 as (_ & Hb & _). exact Hb.
    + assert (S a <= k < S a + length l)%nat as Hk' by lia.
      destruct (Hiff eq_refl k Hk') as [Hi _]. destruct (Hi Hlt) as [Hi1 Hi2].
      split; [lia | exact Hi2].
  - intros [Hlt Hne]. destruct (decide (k = a)) as [-> | Hne'].
    + specialize (Hpos ltac:(lia)). lia.
    + assert (S a <= k < S a + length l)%nat as Hk' by lia.
      destruct (Hiff eq_refl k Hk') as [_ Hi]. apply Hi. split; [lia | exact Hne].
Qed.

(** What a run is made of: its attempts are [run_attempt] at the indices
    0, 1, ... with the total item area; it ends on the best of them; and the
    loop goes on after an attempt as the budget and the early exit say. *)
Lemma packItems_run (H : Host) (s : Settings) (rnd : bool)
    (artboards : list (Z * Z * Z * Z)) (n : nat) :
  let bins := make_bins (s_margin s) (s_padding s) artboards in
  let run := packItemsIllustrator H s rnd artboards n in
  let m := budget (maxAttemptCount H s rnd n) in
  (forall k attempt, made run !! k = Some attempt ->
     attempt = run_attempt H s rnd bins n (total_area H s n) k)
  /\ outcome run
     = match best_of (made run) with
       | None => TypeError
       | Some best =>
           Done best (length (Attempt.packedBlocks best))
                (Z.of_nat n - Z.of_nat (length (Attempt.packedBlocks best)))
       end
  /\ (length (made run) <= m)%nat
  /\ (0 < m -> 0 < length (made run))%nat
  /\ (s_doNotSort s = true -> length (made run) = Nat.min 1 m)
  /\ (s_doNotSort s = false ->
      forall k, (k < length (made run))%nat ->
        ((S k < length (made run))%nat
         <-> (S k < m)%nat /\ ~ early_exit s k (made run))).
Proof.
  cbn zeta. unfold packItemsIllustrator.
  set (bins := make_bins (s_margin s) (s_padding s) artboards).
  set (m := budget (maxAttemptCount H s rnd n)).
  assert (loop_ok H s rnd bins n 0 (mkLoopState None 0 [])) as Hok0.
  { split; [reflexivity |]. split; [reflexivity |]. split; [reflexivity |].
    intros k attempt Hk. cbn in Hk. discriminate. }
  destruct (attempts_loop_spec H s rnd bins n m 0 _ Hok0)
    as (l & Hl & (_ & Hbest & _ & Hall) & Hle & Hpos & Hdn & Hiff).
  set (st := attempts_loop H s rnd bins n m 0 (mkLoopState None 0 [])) in *.
  cbn [attempts app] in Hl. cbn [Nat.add] in Hiff.
  assert (length (attempts st) = length l) as Hlen by (rewrite Hl; reflexivity).
  assert (made (match bestAttempt st with
                | Some best =>
                    mkRun (Done best (length (Attempt.packedBlocks best))
                             (Z.of_nat n - Z.of_nat (length (Attempt.packedBlocks best))))
                          (attempts st)
                | None => mkRun TypeError (attempts st)
                end) = attempts st) as Hmade by (destruct (bestAttempt st); reflexivity).
  rewrite Hmade.
  split; [exact Hall |]. split; [rewrite Hbest; destruct (best_of (attempts st)); reflexivity |].
  rewrite Hlen. split; [exact Hle |]. split; [exact Hpos |]. split; [exact Hdn |].
  intros Hd k Hk. apply Hiff; [exact Hd | lia].
Qed.

(** ** The concrete host *)

Lemma insert_sorted_perm (cmp : Block -> Block -> Z) (x : Block) (l : list Block) :
  insert_sorted cmp x l ≡ₚ x :: l.
Proof.
  induction l as [| y l IH]; cbn; [reflexivity |].
  destruct (0 <? cmp x y); [| reflexivity].
  rewrite IH. apply Permutation_swap.
Qed.

Lemma insertion_sort_perm (cmp : Block -> Block -> Z) (l : list Block) :
  insertion_sort cmp l ≡ₚ l.
Proof.
  induction l as [| x l IH]; cbn; [reflexivity |].
  rewrite insert_sorted_perm. constructor. exact IH.
Qed.

Lemma test_host_ok (sizes : list (Z * Z)) : host_ok (test_host sizes).
Proof. intros cmp l. apply insertion_sort_perm. Qed.

Example run_two_columns :
  let run := packItemsIllustrator (test_host two_sizes)
               (test_settings false None None false false) false one_artboard 2 in
  (length (made run),
   match outcome run with
   | Done best packedCount remainingCount =>
       Some (Attempt.index best, packedCount, remainingCount,
             x0 <$> Attempt.packedBlocks best)
   | TypeError => None
   end)
  = (6%nat, Some (0%nat, 2%nat, 0, [Some 0; Some 60])).
Proof. vm_compute. reflexivity. Qed.

Example score_two_columns :
  spec_score ByCount 2 10000 1
    (processed_bins false 0 (make_bins 0 0 one_artboard) two_columns) 0
  = Num (20000 # 20000).
Proof. vm_compute. reflexivity. Qed.

(** ** The packing core in the host's numbers *)

Example double_literals :
  Double.dec 1 10 = SpecFloat.S754_finite false 7205759403792794 (-56)
  /\ Double.add (Double.dec 1 10) (Double.dec 2 10)
     = SpecFloat.S754_finite false 5404319552844596 (-54)
  /\ Double.dec 3 10 = SpecFloat.S754_finite false 5404319552844595 (-54)
  /\ Double.of_Z (2 ^ 53 + 7) = Double.of_Z (2 ^ 53 + 8).
Proof. repeat split; vm_compute; reflexivity. Qed.

(** On integer sizes far below 2^53 nothing is rounded, and the packing in
    doubles is the packing over the integers of the examples above. *)
Example double_fit_two_columns :
  let r := Double.fit (Double.Packer_new (Double.of_Z 100) (Double.of_Z 100) false)
             [Double.plain_block 0 (Double.of_Z 60) (Double.of_Z 100);
              Double.plain_block 1 (Double.of_Z 40) (Double.of_Z 100)] 0 in
  (Double.Result.count r, Double.x0 <$> Double.Result.packedBlocks r,
   Double.x1 <$> Double.Result.packedBlocks r, Double.Result.remainingBlocks r,
   Double.Result.area r)
  = (2%nat, [Some (Double.of_Z 0); Some (Double.of_Z 60)],
     [Some (Double.of_Z 60); Some (Double.of_Z 100)], [], Double.of_Z 10000).
Proof. vm_compute. reflexivity. Qed.

Example double_fit_rotated :
  let r := Double.fit (Double.Packer_new (Double.of_Z 50) (Double.of_Z 90) true)
             [Double.plain_block 0 (Double.of_Z 80) (Double.of_Z 40)] 0 in
  (Double.Result.count r,
   (fun b => (Double.x0 b, Double.y0 b, Double.w b, Double.h b, Double.isRotated b))
     <$> Double.Result.packedBlocks r)
  = (1%nat, [(Some (Double.of_Z 0), Some (Double.of_Z 0), Double.of_Z 40, Double.of_Z 80,
              true)]).
Proof. vm_compute. reflexivity. Qed.

Example double_fit_too_large :
  let r := Double.fit (Double.Packer_new (Double.of_Z 50) (Double.of_Z 90) true)
             [Double.plain_block 0 (Double.of_Z 95) (Double.of_Z 95);
              Double.plain_block 1 (Double.of_Z 10) (Double.of_Z 10)] 0 in
  (Double.index <$> Double.Result.packedBlocks r,
   Double.index <$> Double.Result.remainingBlocks r, Double.Result.area r)
  = ([1%nat], [0%nat], Double.of_Z 100).
Proof. vm_compute. reflexivity. Qed.

Example double_fit_three_blocks :
  let rect a b c d :=
    Double.HeapBlock.mk (Double.of_Z a) (Double.of_Z b) (Double.of_Z c) (Double.of_Z d) in
  let st := Double.fit_loop (Double.Packer_new (Double.of_Z 100) (Double.of_Z 100) false) 0
              [Double.plain_block 0 (Double.of_Z 60) (Double.of_Z 40);
               Double.plain_block 1 (Double.of_Z 30) (Double.of_Z 30);
               Double.plain_block 2 (Double.of_Z 50) (Double.of_Z 50)] in
  (Double.block_corners <$> Double.fs_packedBlocks st, Double.fs_heap st)
  = ([Some (rect 0 0 60 40); Some (rect 0 40 30 70); Some (rect 30 40 80 90)],
     [rect 80 0 100 100; rect 60 0 100 40; rect 0 90 100 100; rect 0 70 30 100]).
Proof. vm_compute. reflexivity. Qed.

Example double_unionMax_cases :
  let rect a b c d :=
    Double.HeapBlock.mk (Double.of_Z a) (Double.of_Z b) (Double.of_Z c) (Double.of_Z d) in
  Double.unionMax (Some (rect 0 0 50 100)) (Some (rect 50 0 100 100))
  = (Some (rect 0 0 100 100), Some (rect 0 0 100 100))
  /\ Double.unionMax (Some (rect 0 0 100 100)) (Some (rect 10 10 20 20))
     = (Some (rect 0 0 100 100), Some (rect 10 10 20 20))
  /\ Double.unionMax (Some (rect 10 10 20 20)) (Some (rect 0 0 100 100))
     = (Some (rect 10 10 20 20), Some (rect 0 0 100 100))
  /\ Double.unionMax (Some (rect 0 0 10 10)) (Some (rect 20 20 30 30))
     = (Some (rect 0 0 10 10), Some (rect 20 20 30 30))
  /\ Double.unionAll [Some (rect 0 0 100 100); Some (rect 10 10 20 20);
                      Some (rect 0 0 100 100)]
     = [rect 0 0 100 100].
Proof. cbn zeta. repeat split; vm_compute; reflexivity. Qed.

(** [Math.max] and [Math.min] on the two zeros and on [NaN]. *)
Example double_Math_max_min :
  Double.Math_max (SpecFloat.S754_zero true) (SpecFloat.S754_zero false)
  = SpecFloat.S754_zero false
  /\ Double.Math_min (SpecFloat.S754_zero false) (SpecFloat.S754_zero true)
     = SpecFloat.S754_zero true
  /\ Double.Math_max (Double.of_Z 1) Double.NaN = Double.NaN
  /\ Double.Math_min Double.NaN (Double.of_Z 1) = Double.NaN
  /\ Double.Math_max (Double.dec 3 10) (Double.add (Double.dec 1 10) (Double.dec 2 10))
     = Double.add (Double.dec 1 10) (Double.dec 2 10)
  /\ Double.Math_min (Double.of_Z (-1)) (Double.of_Z 2) = Double.of_Z (-1).
Proof. repeat split; vm_compute; reflexivity. Qed.

Lemma double_findInHeap_first_fit (heap : list Double.HeapBlock.t) (b : Double.Block) :
  Double.findInHeap (Some <$> heap) b
  = match list_find (Double.fits b) heap with
    | Some (_, r) => (Double.place_at r b, true)
    | None => (b, false)
    end.
Proof.
  induction heap as [| r heap IH]; [reflexivity |].
  cbn [fmap list_fmap Double.findInHeap list_find].
  destruct (decide (Double.fits b r)) as [[Hw Hh] | Hn].
  - unfold Double.region_width, Double.region_height in Hw, Hh. rewrite Hw, Hh. reflexivity.
  - assert (Double.leb (Double.w b)
              (Double.sub (Double.HeapBlock.x1 r) (Double.HeapBlock.x0 r))
            && Double.leb (Double.h b)
                 (Double.sub (Double.HeapBlock.y1 r) (Double.HeapBlock.y0 r)) = false) as ->.
    { apply andb_false_iff. apply not_and_l in Hn.
      destruct Hn as [Hn | Hn]; [left | right]; apply not_true_is_false, Hn. }
    fold (@fmap list _ _ _ Some heap). rewrite IH.
    destruct (list_find (Double.fits b) heap) as [[i r'] |]; reflexivity.
Qed.

Lemma double_is_first_fit_find (heap : list Double.HeapBlock.t) (b : Double.Block)
    (r : Double.HeapBlock.t) :
  Double.is_first_fit heap b r <-> exists i, list_find (Double.fits b) heap = Some (i, r).
Proof.
  unfold Double.is_first_fit. split; intros [i Hi]; exists i.
  - apply list_find_Some. exact Hi.
  - apply list_find_Some in Hi. exact Hi.
Qed.

Lemma double_no_fit_find (heap : list Double.HeapBlock.t) (b : Double.Block) :
  (forall r, r ∈ heap -> ~ Double.fits b r) <-> list_find (Double.fits b) heap = None.
Proof. rewrite list_find_None, Forall_forall. reflexivity. Qed.

Lemma double_fit_place_spec (p : Double.Packer) (heap : list Double.HeapBlock.t)
    (b : Double.Block) :
  Double.fit_place p heap b
  = match list_find (Double.fits b) heap with
    | Some (_, r) => (Double.place_at r b, Double.adjustHeap heap (Double.place_at r b))
    | None =>
        if Double.allow90DegreeRotation p then
          match list_find (Double.fits (Double.rotate b)) heap with
          | Some (_, r) =>
              (Double.place_at r (Double.rotate b),
               Double.adjustHeap heap (Double.place_at r (Double.rotate b)))
          | None => (Double.rotate b, heap)
          end
        else (b, heap)
    end.
Proof.
  unfold Double.fit_place. rewrite double_findInHeap_first_fit.
  destruct (list_find (Double.fits b) heap) as [[i r] |]; [reflexivity |].
  destruct (Double.allow90DegreeRotation p); [| reflexivity].
  rewrite double_findInHeap_first_fit.
  destruct (list_find (Double.fits (Double.rotate b)) heap) as [[i r] |]; reflexivity.
Qed.

Lemma double_fit_loop_snoc (p : Double.Packer) (binIdx : nat) (blocks : list Double.Block)
    (block : Double.Block) :
  Double.fit_loop p binIdx (blocks ++ [block])
  = Double.fit_body p binIdx (Double.fit_loop p binIdx blocks) block.
Proof. unfold Double.fit_loop. rewrite foldl_app. reflexivity. Qed.

(** One more block: what the loop of [fit] does with it, from what
    [fit_place] returns. *)
Lemma double_fit_snoc (p : Double.Packer) (binIdx : nat) (blocks : list Double.Block)
    (block b : Double.Block) (heap' : list Double.HeapBlock.t) :
  Double.fit_place p (Double.heap_after p binIdx blocks) block = (b, heap') ->
  Double.heap_after p binIdx (blocks ++ [block]) = heap'
  /\ if Double.packed b then Double.packs_as p binIdx blocks block b
     else Double.leaves_as p binIdx blocks block b.
Proof.
  intros E. unfold Double.heap_after, Double.packs_as, Double.leaves_as, Double.fit in *.
  cbn [Double.Result.packedBlocks Double.Result.remainingBlocks Double.Result.count].
  rewrite double_fit_loop_snoc. unfold Double.fit_body at 1 2 3 4 5 6 7. rewrite E.
  destruct (Double.packed b); cbn [Double.fs_heap Double.fs_packedBlocks
                                     Double.fs_remainingBlocks].
  - split; [reflexivity |]. split; [reflexivity |]. split; [reflexivity |].
    rewrite length_app. cbn. lia.
  - split; [reflexivity |]. split; [reflexivity |]. split; reflexivity.
Qed.

(** The loop of [fit] only appends to its two lists. *)
Lemma double_fit_loop_extends (p : Double.Packer) (binIdx : nat)
    (blocks rest : list Double.Block) :
  exists pk rm,
    Double.fs_packedBlocks (Double.fit_loop p binIdx (blocks ++ rest))
    = Double.fs_packedBlocks (Double.fit_loop p binIdx blocks) ++ pk
    /\ Double.fs_remainingBlocks (Double.fit_loop p binIdx (blocks ++ rest))
       = Double.fs_remainingBlocks (Double.fit_loop p binIdx blocks) ++ rm.
Proof.
  unfold Double.fit_loop. rewrite foldl_app.
  generalize (foldl (Double.fit_body p binIdx) (Double.fit_init p) blocks). intros st.
  revert st. induction rest as [| b rest IH]; intros st.
  { exists [], []. cbn. rewrite !app_nil_r. split; reflexivity. }
  cbn [foldl]. destruct (IH (Double.fit_body p binIdx st b)) as (pk & rm & Hp & Hr).
  rewrite Hp, Hr. unfold Double.fit_body.
  destruct (Double.fit_place p (Double.fs_heap st) b) as [b' heap'].
  destruct (Double.packed b'); cbn [Double.fs_packedBlocks Double.fs_remainingBlocks].
  - exists (Double.set_binIndex binIdx b' :: pk), rm. rewrite <- app_assoc. split; reflexivity.
  - exists pk, (b' :: rm). rewrite <- app_assoc. split; reflexivity.
Qed.

Lemma double_rotate_swaps (b : Double.Block) :
  Double.block_wf b ->
  if Double.eqb (Double.w b) (Double.h b) then Double.rotate b = b
  else Double.w (Double.rotate b) = Double.h b /\ Double.h (Double.rotate b) = Double.w b.
Proof.
  intros (E1 & E2 & E3). unfold Double.rotate.
  destruct (Double.eqb (Double.w b) (Double.h b)); [reflexivity |].
  pose proof (f_equal Double.Dimensions.w E3) as Ew.
  pose proof (f_equal Double.Dimensions.h E3) as Eh.
  cbn [Double.Dimensions.w Double.Dimensions.h] in Ew, Eh.
  cbn [Double.w Double.h].
  destruct (Double.isRotated b); cbn [negb]; rewrite Ew, Eh; split; congruence.
Qed.

Lemma double_Block_new_wf (app : App) (pad mar : Double.double) (force : bool)
    (item : Double.Item) (idx : nat) :
  Double.block_wf (Double.Block_new app pad mar force item idx).
Proof.
  unfold Double.Block_new.
  destruct app; cbv zeta beta iota.
  all: destruct force; [unfold Double.rotate |].
  all: try match goal with
           | |- context [Double.eqb ?a ?c] => destruct (Double.eqb a c)
           end.
  all: repeat split.
Qed.

(** ** The two invariants in exact arithmetic *)

(** Over the integers, where [x1 - x0] and [x0 + w] are exact, [fit] on
    blocks that are not yet marked packed returns packed blocks no two of
    which, with the same bin index, have placement rectangles
    [[x0, x0+w] x [y0, y0+h]] that share area; and so does every attempt of
    a run over the integers, the host's sort only reordering.  The packing
    by free regions is sound; what breaks it in the script is the rounding
    of its doubles alone. *)
Lemma exact_fit_no_overlap :
  (forall (p : Packer) (blocks : list Block) (binIdx : nat),
     unpacked blocks -> no_overlap (Result.packedBlocks (fit p blocks binIdx)))
  /\ (forall (H : Host) (s : Settings) (rnd : bool) (artboards : list (Z * Z * Z * Z))
             (n : nat),
        host_ok H ->
        Forall (fun attempt => no_overlap (Attempt.packedBlocks attempt))
               (made (packItemsIllustrator H s rnd artboards n))).
Proof.
  split; [exact fit_apart |].
  intros H s rnd artboards n Hok.
  destruct (packItems_run H s rnd artboards n) as (Hall & _). cbn zeta in Hall.
  apply Forall_lookup. intros k attempt Hk. rewrite (Hall _ _ Hk).
  apply run_attempt_placed, Hok.
Qed.

(** Over the integers, likewise, every block that [fit] packs has
    [0 <= x0], [0 <= y0], [x0 + w <= W] and [y0 + h <= H] for the bin
    [W x H] of the packer, and every packed block of an attempt lies in the
    bin whose index it carries. *)
Lemma exact_fit_containment :
  (forall (p : Packer) (blocks : list Block) (binIdx : nat),
     unpacked blocks ->
     Forall (contained (root_w p) (root_h p)) (Result.packedBlocks (fit p blocks binIdx)))
  /\ (forall (H : Host) (s : Settings) (rnd : bool) (artboards : list (Z * Z * Z * Z))
             (n : nat),
        host_ok H ->
        Forall (fun attempt =>
                  Forall (in_its_bin (make_bins (s_margin s) (s_padding s) artboards))
                         (Attempt.packedBlocks attempt))
               (made (packItemsIllustrator H s rnd artboards n))).
Proof.
  split; [exact fit_contained |].
  intros H s rnd artboards n Hok.
  destruct (packItems_run H s rnd artboards n) as (Hall & _). cbn zeta in Hall.
  apply Forall_lookup. intros k attempt Hk. rewrite (Hall _ _ Hk).
  apply run_attempt_placed, Hok.
Qed.

(** ** C1: no overlap *)

(** C1. The no-overlap invariant fails in the script's arithmetic.  The
    call [new Packer(2, 2).fit(blocks, 0)] on fresh blocks of 1.7 x 1,
    0.3 x 2, 0.6 x 1 and 1.1 x 1 packs all four in bin 0.  The second is at
    (1.7, 0), 0.3 wide and 2 high; the fourth is at (0.6, 1), 1.1 wide and
    1 high, accepted for the region from 0.6 to 1.7 because 1.7 - 0.6 is
    rounded to 1.1, and it ends at 0.6 + 1.1, which is beyond 1.7.  The
    two placement rectangles [[x0, x0+w] x [y0, y0+h]] intersect with an
    area that is not 0, with the sums and the area computed in doubles and
    in exact arithmetic alike. *)
Theorem fit_packs_overlapping_blocks :
  let r := Double.fit (Double.Packer_new (Double.of_Z 2) (Double.of_Z 2) false)
                      Double.four_blocks 0 in
  Double.Result.count r = 4%nat
  /\ Double.Result.remainingBlocks r = []
  /\ exists b1 b3 r1 r3 q1 q3,
       Double.Result.packedBlocks r !! 1%nat = Some b1
       /\ Double.Result.packedBlocks r !! 3%nat = Some b3
       /\ Double.binIndex b1 = Some 0%nat /\ Double.binIndex b3 = Some 0%nat
       /\ (Double.x0 b1, Double.y0 b1, Double.w b1, Double.h b1)
          = (Some (Double.dec 17 10), Some (Double.of_Z 0), Double.dec 3 10, Double.of_Z 2)
       /\ (Double.x0 b3, Double.y0 b3, Double.w b3, Double.h b3)
          = (Some (Double.dec 6 10), Some (Double.of_Z 1), Double.dec 11 10, Double.of_Z 1)
       /\ Double.leb (Double.dec 11 10) (Double.sub (Double.dec 17 10) (Double.dec 6 10)) = true
       /\ Double.ltb (Double.dec 17 10) (Double.add (Double.dec 6 10) (Double.dec 11 10)) = true
       /\ Double.placement b1 = Some r1 /\ Double.placement b3 = Some r3
       /\ Double.ltb (Double.of_Z 0) (Double.overlap_area r1 r3) = true
       /\ Double.exact_placement b1 = Some q1 /\ Double.exact_placement b3 = Some q3
       /\ (0 < Double.exact_overlap_area q1 q3)%Q.
Proof.
  cbn zeta. split; [vm_compute; reflexivity |]. split; [vm_compute; reflexivity |].
  do 6 eexists.
  repeat (split; [vm_compute; reflexivity |]). vm_compute. reflexivity.
Qed.

(** The same with integer sizes beyond 2^53, where the doubles are the
    even integers: [new Packer(2^53 + 8, 2)] packs blocks of
    (2^53 + 6) x 1, 2 x 2, 3 x 1 and (2^53 + 4) x 1, the second at
    (2^53 + 6, 0) and the fourth from (3, 1) to 2^53 + 8. *)
Example fit_overlap_beyond_2_53 :
  let r := Double.fit (Double.Packer_new (Double.of_Z (2 ^ 53 + 8)) (Double.of_Z 2) false)
                      Double.four_large_blocks 0 in
  Double.Result.remainingBlocks r = []
  /\ exists b1 b3 r1 r3,
       Double.Result.packedBlocks r !! 1%nat = Some b1
       /\ Double.Result.packedBlocks r !! 3%nat = Some b3
       /\ Double.binIndex b1 = Double.binIndex b3
       /\ Double.placement b1
          = Some (Double.HeapBlock.mk (Double.of_Z (2 ^ 53 + 6)) (Double.of_Z 0)
                                      (Double.of_Z (2 ^ 53 + 8)) (Double.of_Z 2))
       /\ Double.placement b3
          = Some (Double.HeapBlock.mk (Double.of_Z 3) (Double.of_Z 1)
                                      (Double.of_Z (2 ^ 53 + 8)) (Double.of_Z 2))
       /\ Double.placement b1 = Some r1 /\ Double.placement b3 = Some r3
       /\ Double.overlap_area r1 r3 = Double.of_Z 2.
Proof.
  cbn zeta. split; [vm_compute; reflexivity |].
  do 4 eexists.
  repeat (split; [vm_compute; reflexivity |]). vm_compute. reflexivity.
Qed.

(** ** C2: containment *)

(** C2. The containment invariant fails in the script's arithmetic.  The
    call [new Packer(1.7, 1).fit(blocks, 0)] on fresh blocks of 0.6 x 1 and
    1.1 x 1 packs both.  The second is accepted for the region from 0.6 to
    1.7, because 1.7 - 0.6 is rounded to 1.1, and is placed at x0 = 0.6;
    its x0 + w is beyond the bin width 1.7, as the script computes the sum
    (the [x1] it stores) and in exact arithmetic. *)
Theorem fit_packs_block_outside_bin :
  let W := Double.dec 17 10 in
  let r := Double.fit (Double.Packer_new W (Double.of_Z 1) false) Double.two_blocks 0 in
  Double.Result.count r = 2%nat
  /\ Double.Result.remainingBlocks r = []
  /\ exists b qW qx0 qy0 qx1 qy1,
       Double.Result.packedBlocks r !! 1%nat = Some b
       /\ (Double.x0 b, Double.y0 b, Double.w b, Double.h b)
          = (Some (Double.dec 6 10), Some (Double.of_Z 0), Double.dec 11 10, Double.of_Z 1)
       /\ Double.leb (Double.w b) (Double.sub W (Double.dec 6 10)) = true
       /\ Double.x1 b = Some (Double.add (Double.dec 6 10) (Double.w b))
       /\ Double.ltb W (Double.add (Double.dec 6 10) (Double.w b)) = true
       /\ Double.value W = Some qW
       /\ Double.exact_placement b = Some (qx0, qy0, qx1, qy1)
       /\ (qW < qx1)%Q.
Proof.
  cbn zeta. split; [vm_compute; reflexivity |]. split; [vm_compute; reflexivity |].
  do 6 eexists.
  repeat (split; [vm_compute; reflexivity |]). vm_compute. reflexivity.
Qed.

(** The same with integer sizes beyond 2^53: [new Packer(2^53 + 6, 1)]
    packs blocks of 3 x 1 and (2^53 + 4) x 1, the second from 3 to
    2^53 + 8. *)
Example fit_outside_beyond_2_53 :
  let W := Double.of_Z (2 ^ 53 + 6) in
  let r := Double.fit (Double.Packer_new W (Double.of_Z 1) false)
             [Double.plain_block 0 (Double.of_Z 3) (Double.of_Z 1);
              Double.plain_block 1 (Double.of_Z (2 ^ 53 + 4)) (Double.of_Z 1)] 0 in
  Double.Result.remainingBlocks r = []
  /\ exists b,
       Double.Result.packedBlocks r !! 1%nat = Some b
       /\ Double.x0 b = Some (Double.of_Z 3)
       /\ Double.x1 b = Some (Double.of_Z (2 ^ 53 + 8))
       /\ Double.ltb W (Double.of_Z (2 ^ 53 + 8)) = true.
Proof.
  cbn zeta. split; [vm_compute; reflexivity |].
  eexists. repeat (split; [vm_compute; reflexivity |]). vm_compute. reflexivity.
Qed.

(** ** C3: conservation *)

(** C3. Conservation: [fit] returns every block of its input in exactly
    one of its two lists (the identities of the packed and the remaining
    blocks together are those of the input, each as often), so the two
    lengths add up to the length of the input, and [count] is the number of
    packed blocks; hence, the host's sort only reordering, every attempt of a
    run has as many packed and remaining blocks together as there are items,
    and so has the result of the run. *)
Theorem conservation (H : Host) (s : Settings) (rnd : bool)
    (artboards : list (Z * Z * Z * Z)) (n : nat)
    (p : Packer) (blocks : list Block) (binIdx : nat) :
  host_ok H ->
  (let r := fit p blocks binIdx in
   index <$> (Result.packedBlocks r ++ Result.remainingBlocks r) ≡ₚ index <$> blocks
   /\ (length (Result.packedBlocks r) + length (Result.remainingBlocks r))%nat = length blocks
   /\ Result.count r = length (Result.packedBlocks r))
  /\ (let run := packItemsIllustrator H s rnd artboards n in
      Forall (fun attempt =>
                (length (Attempt.packedBlocks attempt)
                 + length (Attempt.remainingBlocks attempt))%nat = n) (made run)
      /\ forall best packedCount remainingCount,
           outcome run = Done best packedCount remainingCount ->
           packedCount = length (Attempt.packedBlocks best)
           /\ (packedCount + length (Attempt.remainingBlocks best))%nat = n
           /\ remainingCount = Z.of_nat (length (Attempt.remainingBlocks best))).
Proof.
  intros Hok. split; [apply fit_lists |]. cbn zeta.
  destruct (packItems_run H s rnd artboards n) as (Hall & Hout & _).
  cbn zeta in Hall, Hout.
  assert (Forall (fun attempt =>
                    (length (Attempt.packedBlocks attempt)
                     + length (Attempt.remainingBlocks attempt))%nat = n)
                 (made (packItemsIllustrator H s rnd artboards n))) as Hmade.
  { apply Forall_lookup. intros k attempt Hk. rewrite (Hall _ _ Hk).
    apply run_attempt_lengths, Hok. }
  split; [exact Hmade |].
  intros best pc rc Hd. rewrite Hd in Hout.
  destruct (best_of (made (packItemsIllustrator H s rnd artboards n))) as [b |] eqn:Eb;
    [| discriminate].
  injection Hout as -> -> ->.
  apply best_of_elem in Eb. rewrite Forall_forall in Hmade. specialize (Hmade _ Eb).
  split; [reflexivity |]. split; [exact Hmade | lia].
Qed.

Lemma conservation_witness :
  host_ok (test_host two_sizes)
  /\ (length (Result.packedBlocks (fit (Packer_new 100 100 false) two_columns 0))
      + length (Result.remainingBlocks (fit (Packer_new 100 100 false) two_columns 0)))%nat
     = 2%nat
  /\ Forall (fun attempt =>
               (length (Attempt.packedBlocks attempt)
                + length (Attempt.remainingBlocks attempt))%nat = 2%nat)
            (made (packItemsIllustrator (test_host two_sizes)
                     (test_settings false None None false false) false one_artboard 2)).
Proof.
  split; [apply test_host_ok |].
  destruct (conservation (test_host two_sizes) (test_settings false None None false false)
              false one_artboard 2 (Packer_new 100 100 false) two_columns 0
              (test_host_ok two_sizes)) as ((_ & Hfit & _) & Hrun & _).
  split; [exact Hfit | exact Hrun].
Defined.

(** ** C4: first fit *)

(** C4. First-fit placement, of [fit] in the script's arithmetic (first
    part) and of [fit] over the integers (second part).  When [fit] comes
    to a block, having gone through the blocks before it, it scans the heap
    in order and takes the first region whose width and height, [x1 - x0]
    and [y1 - y0] as the script computes them, are both at least the
    block's current width and height: the block is placed at the top-left
    corner of that region, marked packed and returned in [packedBlocks] with
    the bin index, and the heap is adjusted for it.  If no region fits and
    rotation is allowed, the block is turned by [rotate] and the search is
    made once more, in the same way; a block that is still not placed, or
    not placed with rotation not allowed, leaves the heap as it is and is
    returned in [remainingBlocks] (in [packedBlocks], as it stands, had it
    been marked packed before the call).  Either some region fits, and then
    there is a first one, or none does.  The heap starts as the one region
    of the bin, and what [fit] has returned for the first blocks of its
    input stays as it is when more blocks follow.  [rotate] exchanges the
    width and the height of a block the script builds, and does nothing
    when they are equal. *)
Theorem fit_first_fit_placement :
  (forall (p : Double.Packer) (binIdx : nat) (blocks : list Double.Block)
          (block : Double.Block),
     let heap := Double.heap_after p binIdx blocks in
     let heap' := Double.heap_after p binIdx (blocks ++ [block]) in
     let placed b :=
       Double.packs_as p binIdx blocks block b /\ heap' = Double.adjustHeap heap b in
     let not_placed b :=
       heap' = heap
       /\ if Double.packed b then Double.packs_as p binIdx blocks block b
          else Double.leaves_as p binIdx blocks block b in
     Double.heap_after p binIdx []
     = [Double.HeapBlock.mk (Double.of_Z 0) (Double.of_Z 0)
                            (Double.root_w p) (Double.root_h p)]
     /\ (forall b, (exists r, Double.is_first_fit heap b r)
                   \/ (forall r, r ∈ heap -> ~ Double.fits b r))
     /\ (forall r, Double.is_first_fit heap block r -> placed (Double.place_at r block))
     /\ ((forall r, r ∈ heap -> ~ Double.fits block r) ->
         if Double.allow90DegreeRotation p then
           (forall r, Double.is_first_fit heap (Double.rotate block) r ->
                      placed (Double.place_at r (Double.rotate block)))
           /\ ((forall r, r ∈ heap -> ~ Double.fits (Double.rotate block) r) ->
               not_placed (Double.rotate block))
         else not_placed block)
     /\ (forall rest, exists pk rm,
           Double.Result.packedBlocks (Double.fit p (blocks ++ rest) binIdx)
           = Double.Result.packedBlocks (Double.fit p blocks binIdx) ++ pk
           /\ Double.Result.remainingBlocks (Double.fit p (blocks ++ rest) binIdx)
              = Double.Result.remainingBlocks (Double.fit p blocks binIdx) ++ rm)
     /\ (Double.block_wf block ->
         if Double.eqb (Double.w block) (Double.h block) then Double.rotate block = block
         else Double.w (Double.rotate block) = Double.h block
              /\ Double.h (Double.rotate block) = Double.w block))
  /\ (forall (p : Packer) (binIdx : nat) (blocks : list Block) (block : Block),
        let heap := heap_after p binIdx blocks in
        let heap' := heap_after p binIdx (blocks ++ [block]) in
        let placed b := packs_as p binIdx blocks block b /\ heap' = adjustHeap heap b in
        let not_placed b :=
          heap' = heap
          /\ if packed b then packs_as p binIdx blocks block b
             else leaves_as p binIdx blocks block b in
        heap_after p binIdx [] = [HeapBlock.mk 0 0 (root_w p) (root_h p)]
        /\ (forall b, (exists r, is_first_fit heap b r)
                      \/ (forall r, r ∈ heap -> ~ fits b r))
        /\ (forall r, is_first_fit heap block r -> placed (place_at r block))
        /\ ((forall r, r ∈ heap -> ~ fits block r) ->
            if allow90DegreeRotation p then
              (forall r, is_first_fit heap (rotate block) r ->
                         placed (place_at r (rotate block)))
              /\ ((forall r, r ∈ heap -> ~ fits (rotate block) r) ->
                  not_placed (rotate block))
            else not_placed block)
        /\ (forall rest, exists pk rm,
              Result.packedBlocks (fit p (blocks ++ rest) binIdx)
              = Result.packedBlocks (fit p blocks binIdx) ++ pk
              /\ Result.remainingBlocks (fit p (blocks ++ rest) binIdx)
                 = Result.remainingBlocks (fit p blocks binIdx) ++ rm)
        /\ (block_wf block -> w (rotate block) = h block /\ h (rotate block) = w block)).
Proof.
  split.
  - intros p binIdx blocks block. cbn zeta. split; [reflexivity |].
    split.
    { intros b. destruct (list_find (Double.fits b) (Double.heap_after p binIdx blocks))
        as [[i r] |] eqn:E.
      - left. exists r. apply double_is_first_fit_find. exists i. exact E.
      - right. apply double_no_fit_find. exact E. }
    pose proof (double_fit_place_spec p (Double.heap_after p binIdx blocks) block) as Hspec.
    split; [| split; [| split; [apply double_fit_loop_extends | apply double_rotate_swaps]]].
    + intros r Hr. apply double_is_first_fit_find in Hr as [i Hi]. rewrite Hi in Hspec.
      destruct (double_fit_snoc p binIdx blocks block _ _ Hspec) as [Hheap Hres].
      cbn [Double.place_at Double.packed] in Hres. split; [exact Hres | exact Hheap].
    + intros Hno. apply double_no_fit_find in Hno. rewrite Hno in Hspec.
      destruct (Double.allow90DegreeRotation p).
      * split.
        -- intros r Hr. apply double_is_first_fit_find in Hr as [i Hi]. rewrite Hi in Hspec.
           destruct (double_fit_snoc p binIdx blocks block _ _ Hspec) as [Hheap Hres].
           cbn [Double.place_at Double.packed] in Hres. split; [exact Hres | exact Hheap].
        -- intros Hno'. apply double_no_fit_find in Hno'. rewrite Hno' in Hspec.
           destruct (double_fit_snoc p binIdx blocks block _ _ Hspec) as [Hheap Hres].
           split; [exact Hheap | exact Hres].
      * destruct (double_fit_snoc p binIdx blocks block _ _ Hspec) as [Hheap Hres].
        split; [exact Hheap | exact Hres].
  - intros p binIdx blocks block. cbn zeta. split; [reflexivity |].
    split.
    { intros b. destruct (list_find (fits b) (heap_after p binIdx blocks))
        as [[i r] |] eqn:E.
      - left. exists r. apply is_first_fit_find. exists i. exact E.
      - right. apply no_fit_find. exact E. }
    pose proof (fit_place_spec p (heap_after p binIdx blocks) block) as Hspec.
    split; [| split; [| split; [apply fit_loop_extends | apply rotate_swaps]]].
    + intros r Hr. apply is_first_fit_find in Hr as [i Hi]. rewrite Hi in Hspec.
      destruct (fit_snoc p binIdx blocks block _ _ Hspec) as [Hheap Hres].
      cbn [place_at packed] in Hres. split; [exact Hres | exact Hheap].
    + intros Hno. apply no_fit_find in Hno. rewrite Hno in Hspec.
      destruct (allow90DegreeRotation p).
      * split.
        -- intros r Hr. apply is_first_fit_find in Hr as [i Hi]. rewrite Hi in Hspec.
           destruct (fit_snoc p binIdx blocks block _ _ Hspec) as [Hheap Hres].
           cbn [place_at packed] in Hres. split; [exact Hres | exact Hheap].
        -- intros Hno'. apply no_fit_find in Hno'. rewrite Hno' in Hspec.
           destruct (fit_snoc p binIdx blocks block _ _ Hspec) as [Hheap Hres].
           split; [exact Hheap | exact Hres].
      * destruct (fit_snoc p binIdx blocks block _ _ Hspec) as [Hheap Hres].
        split; [exact Hheap | exact Hres].
Qed.

(** In a bin of 2 x 2 holding a block of 1.7 x 1, a block of 1 x 2 fits
    neither free region; turned to 2 x 1 it is given the first of them.
    Over the integers, in a bin of 50 x 90, a block of 80 x 40 does not fit;
    turned to 40 x 80 it is placed at the origin. *)
Lemma fit_first_fit_placement_witness :
  (let p := Double.Packer_new (Double.of_Z 2) (Double.of_Z 2) true in
   let blocks := [Double.plain_block 0 (Double.dec 17 10) (Double.of_Z 1)] in
   let block := Double.plain_block 1 (Double.of_Z 1) (Double.of_Z 2) in
   let top :=
     Double.HeapBlock.mk (Double.of_Z 0) (Double.of_Z 1) (Double.of_Z 2) (Double.of_Z 2) in
   let right :=
     Double.HeapBlock.mk (Double.dec 17 10) (Double.of_Z 0) (Double.of_Z 2) (Double.of_Z 2) in
   Double.heap_after p 0 blocks = [top; right]
   /\ (forall r, r ∈ Double.heap_after p 0 blocks -> ~ Double.fits block r)
   /\ Double.is_first_fit (Double.heap_after p 0 blocks) (Double.rotate block) top
   /\ Double.packs_as p 0 blocks block (Double.place_at top (Double.rotate block))
   /\ Double.w (Double.rotate block) = Double.h block
   /\ Double.h (Double.rotate block) = Double.w block)
  /\ (let p := Packer_new 50 90 true in
      let block := plain_block 0 80 40 in
      let bin := HeapBlock.mk 0 0 50 90 in
      heap_after p 0 [] = [bin]
      /\ (forall r, r ∈ heap_after p 0 [] -> ~ fits block r)
      /\ is_first_fit (heap_after p 0 []) (rotate block) bin
      /\ packs_as p 0 [] block (place_at bin (rotate block))
      /\ w (rotate block) = h block /\ h (rotate block) = w block).
Proof.
  destruct fit_first_fit_placement as [Hdouble Hexact]. split.
  - intros p blocks block top right.
    assert (Double.heap_after p 0 blocks = [top; right]) as Hheap by (vm_compute; reflexivity).
    assert (forall r, r ∈ Double.heap_after p 0 blocks -> ~ Double.fits block r) as Hno.
    { rewrite Hheap. intros r Hr [Hw Hh].
      apply elem_of_cons in Hr as [-> | Hr]; [vm_compute in Hh; discriminate |].
      apply elem_of_cons in Hr as [-> | Hr]; [vm_compute in Hw; discriminate |].
      apply elem_of_nil in Hr. exact Hr. }
    assert (Double.is_first_fit (Double.heap_after p 0 blocks) (Double.rotate block) top)
      as Hfirst.
    { rewrite Hheap. exists 0%nat. split; [reflexivity |]. split.
      - split; vm_compute; reflexivity.
      - intros j r' _ Hlt. lia. }
    destruct (Hdouble p 0%nat blocks block) as (_ & _ & _ & Hrot & _ & Hswap).
    specialize (Hrot Hno). change (Double.allow90DegreeRotation p) with true in Hrot.
    cbv iota in Hrot. destruct Hrot as [Hrot _].
    destruct (Hrot top Hfirst) as [Hpacks _].
    specialize (Hswap (double_Block_new_wf _ _ _ _ _ _)).
    change (Double.eqb (Double.w block) (Double.h block)) with false in Hswap.
    cbv iota in Hswap.
    split; [exact Hheap |]. split; [exact Hno |]. split; [exact Hfirst |].
    split; [exact Hpacks | exact Hswap].
  - intros p block bin.
    assert (heap_after p 0 [] = [bin]) as Hheap by reflexivity.
    assert (forall r, r ∈ heap_after p 0 [] -> ~ fits block r) as Hno.
    { rewrite Hheap. intros r Hr [Hw Hh].
      apply elem_of_cons in Hr as [-> | Hr]; [vm_compute in Hw; apply Hw; reflexivity |].
      apply elem_of_nil in Hr. exact Hr. }
    assert (is_first_fit (heap_after p 0 []) (rotate block) bin) as Hfirst.
    { rewrite Hheap. exists 0%nat. split; [reflexivity |]. split.
      - split; vm_compute; discriminate.
      - intros j r' _ Hlt. lia. }
    destruct (Hexact p 0%nat [] block) as (_ & _ & _ & Hrot & _ & Hswap).
    specialize (Hrot Hno). change (allow90DegreeRotation p) with true in Hrot.
    cbv iota in Hrot. destruct Hrot as [Hrot _].
    destruct (Hrot bin Hfirst) as [Hpacks _].
    specialize (Hswap (Block_new_wf _ _ _ _ _ _)).
    split; [exact Hheap |]. split; [exact Hno |]. split; [exact Hfirst |].
    split; [exact Hpacks | exact Hswap].
Defined.

(** ** C5: the remaining blocks *)

(** C5, as the script has it.  The returned [remainingBlocks] are blocks
    of the input, in input order, that were not marked packed on entry, and
    [fit] neither positions them nor marks them packed: they are unchanged
    when rotation is not allowed, and each turned once by [rotate] when it
    is allowed, which changes nothing in a square block and otherwise
    assigns [w], [h], [dx], [dy] and [isRotated] and no other field. *)
Theorem fit_remaining_blocks (p : Packer) (blocks : list Block) (binIdx : nat) :
  (exists l, sublist l blocks
             /\ unpacked l
             /\ Result.remainingBlocks (fit p blocks binIdx)
                = (if allow90DegreeRotation p then rotate else id) <$> l)
  /\ (forall b, same_but_orientation b (rotate b) /\ (w b = h b -> rotate b = b)).
Proof.
  split.
  - destruct (fit_loop_from_lists p binIdx blocks (fit_init p))
      as (pk & rm & _ & Hr & Hs & Hu & _).
    exists rm. split; [exact Hs |]. split; [exact Hu | exact Hr].
  - intros b. split; [apply rotate_frame | apply rotate_square].
Qed.

Lemma fit_remaining_blocks_witness :
  (exists l, sublist l [plain_block 0 20 5]
             /\ unpacked l
             /\ Result.remainingBlocks (fit (Packer_new 10 10 true) [plain_block 0 20 5] 0)
                = rotate <$> l)
  /\ rotate (plain_block 0 7 7) = plain_block 0 7 7.
Proof.
  destruct (fit_remaining_blocks (Packer_new 10 10 true) [plain_block 0 20 5] 0)
    as [Hrem Hrot].
  split; [exact Hrem |].
  apply (Hrot (plain_block 0 7 7)). reflexivity.
Defined.

(** The claim C5 as it was stated fails: with rotation allowed, a block
    of 20 x 5 that does not fit a bin of 10 x 10 either way comes back as
    5 x 20 and marked rotated. *)
Lemma fit_remaining_changed :
  ~ (forall b, b ∈ Result.remainingBlocks (fit (Packer_new 10 10 true) [plain_block 0 20 5] 0) ->
       exists b0, b0 ∈ [plain_block 0 20 5]
                  /\ w b = w b0 /\ h b = h b0 /\ dx b = dx b0 /\ dy b = dy b0
                  /\ isRotated b = isRotated b0).
Proof.
  intros Hclaim.
  destruct (Hclaim (rotate (plain_block 0 20 5))) as (b0 & Hb0 & Hw & _).
  - vm_compute. apply list_elem_of_here.
  - apply list_elem_of_singleton in Hb0. subst b0. vm_compute in Hw. discriminate.
Qed.

(** ** C6: the score *)

(** C6. Score formula: in a run that fits by 'count' or by 'area', the
    score of every attempt is the sum, over the bins the attempt processed
    and in their order, of [(binWidth * binHeight / areaPackedInBin) *
    scoreFactor], with [scoreFactor = totalItemCount / packedCountInBin] by
    count and [totalItemArea / areaPackedInBin] by area, plus
    [(totalBinCount - binsActuallyUsed) * 100], minus
    [remainingUnpackedCount * 100]; the bins used are the bins processed,
    which the attempt records in [binCount]. *)
Theorem score_formula (H : Host) (s : Settings) (rnd : bool)
    (artboards : list (Z * Z * Z * Z)) (n : nat) (f : FitBy) :
  bestFitBy s = fitBy_name f ->
  let bins := make_bins (s_margin s) (s_padding s) artboards in
  let run := packItemsIllustrator H s rnd artboards n in
  forall a attempt, made run !! a = Some attempt ->
    let processed :=
      processed_bins (s_allow90DegreeRotation s) 0 bins
                     (Attempt.remainingBlocks (attempt_sorted H s rnd bins n a)) in
    Attempt.score attempt
    = spec_score f n (total_area H s n) (length bins) processed
                 (length (Attempt.remainingBlocks attempt))
    /\ Attempt.binCount attempt = length processed.
Proof.
  intros Hf bins run a attempt Ha.
  destruct (packItems_run H s rnd artboards n) as (Hall & _).
  cbn zeta in Hall. rewrite (Hall _ _ Ha).
  apply run_attempt_score, Hf.
Qed.

Lemma score_formula_witness :
  bestFitBy (test_settings false (Some "area"%string) None false false) = fitBy_name ByArea
  /\ forall a attempt,
       made (packItemsIllustrator (test_host two_sizes)
               (test_settings false (Some "area"%string) None false false)
               false one_artboard 2) !! a = Some attempt ->
       Attempt.binCount attempt
       = length (processed_bins false 0 (make_bins 0 0 one_artboard)
                   (Attempt.remainingBlocks
                      (attempt_sorted (test_host two_sizes)
                         (test_settings false (Some "area"%string) None false false)
                         false (make_bins 0 0 one_artboard) 2 a))).
Proof.
  split; [reflexivity |].
  intros a attempt Ha.
  apply (score_formula (test_host two_sizes)
           (test_settings false (Some "area"%string) None false false)
           false one_artboard 2 ByArea eq_refl a attempt Ha).
Defined.

(** ** C7: the early exit *)

(** C7, as the script has it.  When [doNotSort] is not set: after
    completing attempt [k] the run issues attempt [k + 1] exactly when
    [k + 1] is below [maxAttemptCount] and it is not the case that "try
    harder" is off, [k > 4] and the best attempt so far has no remaining
    block; so with "try harder" set it makes [maxAttemptCount] attempts.
    When [doNotSort] is set it makes one attempt (none if the budget is
    empty), whatever "try harder" is. *)
Theorem attempts_early_exit (H : Host) (s : Settings) (rnd : bool)
    (artboards : list (Z * Z * Z * Z)) (n : nat) :
  let run := packItemsIllustrator H s rnd artboards n in
  let m := budget (maxAttemptCount H s rnd n) in
  (s_doNotSort s = false ->
   (forall k, (k < length (made run))%nat ->
      ((S k < length (made run))%nat <-> (S k < m)%nat /\ ~ early_exit s k (made run)))
   /\ (0 < m -> 0 < length (made run))%nat
   /\ (s_tryHarder s = true -> length (made run) = m))
  /\ (s_doNotSort s = true -> length (made run) = Nat.min 1 m).
Proof.
  cbn zeta.
  destruct (packItems_run H s rnd artboards n) as (_ & _ & Hle & Hpos & Hdn & Hiff).
  cbn zeta in Hle, Hpos, Hdn, Hiff.
  split; [| exact Hdn].
  intros Hd. specialize (Hiff Hd). split; [exact Hiff |]. split; [exact Hpos |].
  intros Ht.
  set (L := length (made (packItemsIllustrator H s rnd artboards n))) in *.
  set (m := budget (maxAttemptCount H s rnd n)) in *.
  destruct (Nat.eq_dec L m) as [E | Hne]; [exact E | exfalso].
  assert (0 < L)%nat as HL by lia.
  destruct (Hiff (L - 1)%nat ltac:(lia)) as [_ Hback].
  assert (S (L - 1) < L)%nat; [| lia].
  apply Hback. split; [lia |].
  intros (Hf & _). congruence.
Qed.

Lemma attempts_early_exit_witness :
  let run := packItemsIllustrator (test_host two_sizes)
               (test_settings false None None false false) false one_artboard 2 in
  s_doNotSort (test_settings false None None false false) = false
  /\ ((S 5 < length (made run))%nat
      <-> (S 5 < budget (maxAttemptCount (test_host two_sizes)
                             (test_settings false None None false false) false 2))%nat
          /\ ~ early_exit (test_settings false None None false false) 5 (made run)).
Proof.
  cbn zeta. split; [reflexivity |].
  destruct (attempts_early_exit (test_host two_sizes)
              (test_settings false None None false false) false one_artboard 2)
    as [Hsort _].
  destruct (Hsort eq_refl) as (Hiff & _).
  apply Hiff. vm_compute. lia.
Defined.

(** The claim C7 as it was stated fails in its last clause: with "try
    harder" and [doNotSort] both set and a budget of 3, one attempt is
    made. *)
Lemma try_harder_without_sorting :
  let s := test_settings false None (Some 3) true true in
  let run := packItemsIllustrator (test_host two_sizes) s false one_artboard 2 in
  s_tryHarder s = true
  /\ budget (maxAttemptCount (test_host two_sizes) s false 2) = 3%nat
  /\ length (made run) = 1%nat.
Proof. vm_compute. repeat split. Qed.

(** ** C8: no bins *)

(** C8, as the script has it.  With zero bins nothing fails on their
    account: the attempts are made as with any bins, each of them packs
    nothing, processes no bin and leaves every item remaining, with the
    score [0 + 0 - 100 * itemCount]; and as soon as the budget allows one
    attempt the run ends on a best attempt, with 0 items packed. *)
Theorem no_bins_run (H : Host) (s : Settings) (rnd : bool) (n : nat) :
  host_ok H ->
  let run := packItemsIllustrator H s rnd [] n in
  let m := budget (maxAttemptCount H s rnd n) in
  Forall (fun attempt =>
            Attempt.packedBlocks attempt = []
            /\ length (Attempt.remainingBlocks attempt) = n
            /\ Attempt.binCount attempt = O
            /\ Attempt.score attempt
               = num_sub (num_add (Num 0%Q) (num_of_Z 0)) (num_of_Z (Z.of_nat n * 100)))
         (made run)
  /\ ((0 < m)%nat ->
      made run <> [] /\ exists best, outcome run = Done best 0 (Z.of_nat n)).
Proof.
  intros Hok. cbn zeta.
  destruct (packItems_run H s rnd [] n) as (Hall & Hout & _ & Hpos & _).
  cbn zeta in Hall, Hout, Hpos.
  set (run := packItemsIllustrator H s rnd [] n) in *.
  assert (Forall (fun attempt =>
            Attempt.packedBlocks attempt = []
            /\ length (Attempt.remainingBlocks attempt) = n
            /\ Attempt.binCount attempt = O
            /\ Attempt.score attempt
               = num_sub (num_add (Num 0%Q) (num_of_Z 0)) (num_of_Z (Z.of_nat n * 100)))
         (made run)) as Hmade.
  { apply Forall_lookup. intros k attempt Hk. rewrite (Hall _ _ Hk).
    unfold run_attempt. cbn [make_bins fmap list_fmap bins_loop].
    cbn [set_score Attempt.packedBlocks Attempt.remainingBlocks Attempt.binCount Attempt.score].
    destruct (attempt_sorted_frame H s rnd [] n k) as (Hp & Hs & Hb & _).
    pose proof (attempt_sorted_length H s rnd [] n k Hok) as Hl.
    rewrite Hp, Hs, Hb, Hl. repeat split. }
  split; [exact Hmade |].
  intros Hm. specialize (Hpos Hm).
  split; [intros E; rewrite E in Hpos; cbn in Hpos; lia |].
  destruct (best_of (made run)) as [b |] eqn:Eb.
  - apply best_of_elem in Eb. rewrite Forall_forall in Hmade.
    destruct (Hmade _ Eb) as (Hp & _). rewrite Hp in Hout. cbn in Hout.
    rewrite Z.sub_0_r in Hout. exists b. exact Hout.
  - apply best_of_None in Eb. rewrite Eb in Hpos. cbn in Hpos. lia.
Qed.

Lemma no_bins_run_witness :
  host_ok (test_host two_sizes)
  /\ Forall (fun attempt =>
               Attempt.packedBlocks attempt = []
               /\ length (Attempt.remainingBlocks attempt) = 2%nat
               /\ Attempt.binCount attempt = O
               /\ Attempt.score attempt
                  = num_sub (num_add (Num 0%Q) (num_of_Z 0)) (num_of_Z (Z.of_nat 2 * 100)))
            (made (packItemsIllustrator (test_host two_sizes)
                     (test_settings false None (Some 3) false false) false [] 2)).
Proof.
  split; [apply test_host_ok |].
  apply (no_bins_run (test_host two_sizes) (test_settings false None (Some 3) false false)
           false 2 (test_host_ok two_sizes)).
Defined.

(** The claim C8 as it was stated fails: with no bins, two items and a
    budget of 3, the run makes its 3 attempts and ends on a best attempt,
    without an error. *)
Lemma no_bins_no_error :
  let run := packItemsIllustrator (test_host two_sizes)
               (test_settings false None (Some 3) false false) false [] 2 in
  length (made run) = 3%nat
  /\ outcome run <> TypeError
  /\ exists best, outcome run = Done best 0 2.
Proof.
  vm_compute. split; [reflexivity |]. split; [discriminate |]. eexists. reflexivity.
Qed.

(** ** C9: no items *)

(** C9, as the script has it.  The script answers an empty selection
    with a message and packs nothing.  The packing function given 0 items,
    not as a random attempt and with no attempt budget of its own, takes
    [getMaxAttemptCount(0)], which is [-Infinity], and makes zero attempts.
    Every attempt that a run on 0 items does make (a budget was given, or the
    attempt is a random one) has an empty packed list and an empty remaining
    list, and so has the result of such a run. *)
Theorem zero_items_run (H : Host) (s : Settings) (rnd : bool)
    (artboards : list (Z * Z * Z * Z)) (documents : nat) (cancelled : bool) :
  host_ok H ->
  let run := packItemsIllustrator H s rnd artboards 0 in
  script H documents 0 s cancelled artboards
  = Alert "Please select some items and try again."
  /\ (rnd = false -> (s_maxAttemptCount s = None \/ s_maxAttemptCount s = Some 0) ->
      made run = [])
  /\ Forall (fun attempt =>
               Attempt.packedBlocks attempt = [] /\ Attempt.remainingBlocks attempt = [])
            (made run)
  /\ (forall best packedCount remainingCount,
        outcome run = Done best packedCount remainingCount ->
        Attempt.packedBlocks best = [] /\ Attempt.remainingBlocks best = []
        /\ packedCount = O /\ remainingCount = 0).
Proof.
  intros Hok. cbn zeta.
  destruct (packItems_run H s rnd artboards 0) as (Hall & Hout & Hle & _).
  cbn zeta in Hall, Hout, Hle.
  set (run := packItemsIllustrator H s rnd artboards 0) in *.
  assert (Forall (fun attempt =>
               Attempt.packedBlocks attempt = [] /\ Attempt.remainingBlocks attempt = [])
            (made run)) as Hmade.
  { apply Forall_lookup. intros k attempt Hk. rewrite (Hall _ _ Hk).
    pose proof (run_attempt_lengths H s rnd (make_bins (s_margin s) (s_padding s) artboards)
                  0 (total_area H s 0) k Hok) as Hl.
    cbn zeta in Hl.
    split; apply length_zero_iff_nil; lia. }
  split; [| split; [| split]].
  - unfold script. rewrite orb_true_r. reflexivity.
  - intros -> Hmax.
    assert (budget (maxAttemptCount H s false 0) = O) as Hb.
    { unfold maxAttemptCount. destruct Hmax as [-> | ->]; reflexivity. }
    rewrite Hb in Hle. apply length_zero_iff_nil. lia.
  - exact Hmade.
  - intros best pc rc Hd. rewrite Hd in Hout.
    destruct (best_of (made run)) as [b |] eqn:Eb; [| discriminate].
    injection Hout as -> -> ->. apply best_of_elem in Eb.
    rewrite Forall_forall in Hmade. destruct (Hmade _ Eb) as [Hp Hr].
    rewrite Hp. repeat split; assumption.
Qed.

Lemma zero_items_run_witness :
  host_ok (test_host [])
  /\ script (test_host []) 1 0 (test_settings false None None false false) false one_artboard
     = Alert "Please select some items and try again."
  /\ made (packItemsIllustrator (test_host []) (test_settings false None None false false)
             false one_artboard 0) = [].
Proof.
  split; [apply test_host_ok |].
  destruct (zero_items_run (test_host []) (test_settings false None None false false)
              false one_artboard 1 false (test_host_ok [])) as (Hs & Hm & _).
  split; [exact Hs | apply Hm; [reflexivity | left; reflexivity]].
Defined.

(** The claim C9 as it was stated fails: the packing function given 0
    items and no budget makes no attempt and then has no best attempt to
    read, which is an error and not a result with two empty lists. *)
Lemma zero_items_no_result :
  let run := packItemsIllustrator (test_host []) (test_settings false None None false false)
               false one_artboard 0 in
  made run = [] /\ outcome run = TypeError
  /\ ~ (exists best packedCount remainingCount,
          outcome run = Done best packedCount remainingCount).
Proof.
  vm_compute. split; [reflexivity |]. split; [reflexivity |].
  intros (b & pc & rc & E). discriminate.
Qed.

(** ** C10: [rotate] *)

(** C10. For every block the constructor builds, in the state reached
    after any number of calls of [rotate]: two further calls restore the
    block ([w], [h], [dx], [dy], [isRotated] and all the rest), and when the
    block is square one call changes nothing and the block is not marked
    rotated. *)
Theorem rotate_involution_square_noop (a : App) (pad mar : Z) (force : bool)
    (item : Item) (idx n : nat) :
  let b := Nat.iter n rotate (Block_new a pad mar force item idx) in
  rotate (rotate b) = b /\ (w b = h b -> rotate b = b /\ isRotated b = false).
Proof.
  cbn zeta.
  pose proof (iter_rotate_wf n _ (Block_new_wf a pad mar force item idx)) as Hwf.
  split; [apply rotate_rotate, Hwf |].
  intros E. split; [apply rotate_square, E | apply wf_square_not_rotated; assumption].
Qed.

Lemma rotate_involution_square_noop_witness :
  rotate (rotate (plain_block 0 80 40)) = plain_block 0 80 40
  /\ rotate (plain_block 0 7 7) = plain_block 0 7 7
  /\ isRotated (plain_block 0 7 7) = false.
Proof.
  destruct (rotate_involution_square_noop Illustrator 0 0 false (plain_item 80 40) 0 0)
    as [Htwice _].
  destruct (rotate_involution_square_noop Illustrator 0 0 false (plain_item 7 7) 0 0)
    as [_ Hsquare].
  split; [exact Htwice | apply Hsquare; reflexivity].
Defined.

(** ** Regions of the heap: containment and points *)

Lemma chunkContains_spec (a b : HeapBlock.t) :
  chunkContains a b = true
  <-> HeapBlock.x0 a <= HeapBlock.x0 b /\ HeapBlock.y0 a <= HeapBlock.y0 b
      /\ HeapBlock.x1 b <= HeapBlock.x1 a /\ HeapBlock.y1 b <= HeapBlock.y1 a.
Proof. unfold chunkContains. rewrite !andb_true_iff, !Z.leb_le. tauto. Qed.

Lemma chunkContains_refl (a : HeapBlock.t) : chunkContains a a = true.
Proof. apply chunkContains_spec. lia. Qed.

Lemma chunkContains_trans (a b c : HeapBlock.t) :
  chunkContains a b = true -> chunkContains b c = true -> chunkContains a c = true.
Proof. rewrite !chunkContains_spec. lia. Qed.

Lemma chunkContains_covers (a b : HeapBlock.t) (x y : Z) :
  chunkContains a b = true -> covers b x y -> covers a x y.
Proof. rewrite chunkContains_spec. unfold covers. lia. Qed.

Lemma expand_contains (h0 h1 : HeapBlock.t) : chunkContains (expand h0 h1) h1 = true.
Proof.
  apply chunkContains_spec. unfold expand.
  repeat match goal with |- context [if ?c then _ else _] => destruct c end; cbn; lia.
Qed.

(** Two intervals that meet: a point of their hull lies in one of them. *)
Lemma hull_point (a0 a1 c0 c1 x : Z) :
  Z.max a0 c0 <= Z.min a1 c1 ->
  Z.min a0 c0 <= x <= Z.max a1 c1 ->
  a0 <= x <= a1 \/ c0 <= x <= c1.
Proof. lia. Qed.

(** [expand] of two regions that meet adds no point to them, and the
    result still meets the first. *)
Lemma expand_covers (h0 h1 : HeapBlock.t) (x y : Z) :
  meet h0 h1 -> covers (expand h0 h1) x y -> covers h0 x y \/ covers h1 x y.
Proof.
  destruct h0 as [a0 b0 a1 b1], h1 as [c0 d0 c1 d1].
  unfold meet, covers, expand. cbn. intros [Hx Hy].
  match goal with
  | |- context [if ?c then HeapBlock.mk _ (Z.min _ _) _ _ else _] => destruct c eqn:E1
  end; cbn;
    match goal with |- context [if ?c then _ else _] => destruct c eqn:E2 end; cbn;
    bools; intros [Hpx Hpy].
  - destruct (hull_point a0 a1 c0 c1 x Hx Hpx) as [Px | Px];
      destruct (hull_point b0 b1 d0 d1 y Hy Hpy) as [Py | Py]; lia.
  - destruct (hull_point b0 b1 d0 d1 y Hy Hpy) as [Py | Py]; lia.
  - destruct (hull_point a0 a1 c0 c1 x Hx Hpx) as [Px | Px]; lia.
  - lia.
Qed.

Lemma meet_contains (h0 h1 h1' : HeapBlock.t) :
  meet h0 h1 -> chunkContains h1' h1 = true -> meet h0 h1'.
Proof. rewrite chunkContains_spec. unfold meet. lia. Qed.

(** What [unionMax] leaves in two entries that are not [null]: each
    contains the entry it replaces, and together they have the points the two
    entries had. *)
Lemma unionMax_Some (h0 h1 : HeapBlock.t) :
  exists a b,
    unionMax (Some h0) (Some h1) = (Some a, Some b)
    /\ chunkContains a h0 = true /\ chunkContains b h1 = true
    /\ forall x y, covers a x y \/ covers b x y -> covers h0 x y \/ covers h1 x y.
Proof.
  unfold unionMax.
  destruct (intersect h0 h1) as [i |] eqn:Hi;
    [| exists h0, h1; repeat split; auto using chunkContains_refl].
  destruct (chunkContains h0 h1);
    [exists h0, h1; repeat split; auto using chunkContains_refl |].
  destruct (chunkContains h1 h0);
    [exists h0, h1; repeat split; auto using chunkContains_refl |].
  apply intersect_meet in Hi.
  exists (expand (expand h0 h1) h0), (expand h0 h1).
  split; [reflexivity |]. split; [apply expand_contains |]. split; [apply expand_contains |].
  intros x y [Ha | Hb].
  - apply expand_covers in Ha.
    + destruct Ha as [Ha | Ha]; [| left; exact Ha].
      apply expand_covers in Ha; [exact Ha | exact Hi].
    + apply meet_sym. eapply meet_contains; [exact Hi | apply expand_contains].
  - apply expand_covers in Hb; [exact Hb | exact Hi].
Qed.

(** A step of [unionAll] either leaves the heap as it is, or acts on two
    entries that are not [null]. *)
Lemma unionAll_body_cases (i j : nat) (hp : list (option HeapBlock.t)) :
  unionAll_body i j hp = hp
  \/ exists hi hj a b,
       i <> j /\ hp !! i = Some (Some hi) /\ hp !! j = Some (Some hj)
       /\ chunkContains a hi = true /\ chunkContains b hj = true
       /\ (forall x y, covers a x y \/ covers b x y -> covers hi x y \/ covers hj x y)
       /\ unionAll_body i j hp
          = let hp1 := <[j:=Some b]> (<[i:=Some a]> hp) in
            if chunkContains b a then <[i:=None]> hp1
            else if chunkContains a b then <[j:=None]> hp1
            else hp1.
Proof.
  unfold unionAll_body.
  destruct (decide (i = j)) as [_ | Hij]; [left; reflexivity |].
  destruct (hp !! i) as [[hi |] |] eqn:Ei; [| left ..].
  - destruct (hp !! j) as [[hj |] |] eqn:Ej; [| left ..].
    + right. destruct (unionMax_Some hi hj) as (a & b & -> & Ha & Hb & Hpts).
      exists hi, hj, a, b. repeat split; assumption.
    + cbn [unionMax]. rewrite (list_insert_id hp i) by exact Ei.
      apply list_insert_id. exact Ej.
    + reflexivity.
  - destruct (hp !! j) as [hj |] eqn:Ej; [| reflexivity].
    cbn [unionMax]. rewrite (list_insert_id hp i) by exact Ei.
    apply list_insert_id. exact Ej.
  - reflexivity.
Qed.

(** The entries of the heap after one step of [unionAll]. *)
Lemma unionAll_body_lookup (i j : nat) (hp : list (option HeapBlock.t)) (k : nat)
    (e : HeapBlock.t) :
  unionAll_body i j hp !! k = Some (Some e) ->
  exists hk, hp !! k = Some (Some hk) /\ chunkContains e hk = true
    /\ exists hi hj, Some hi ∈ hp /\ Some hj ∈ hp
         /\ forall x y, covers e x y -> covers hi x y \/ covers hj x y.
Proof.
  assert (forall h, hp !! k = Some (Some h) ->
            exists hk, hp !! k = Some (Some hk) /\ chunkContains h hk = true
              /\ exists hi hj, Some hi ∈ hp /\ Some hj ∈ hp
                   /\ forall x y, covers h x y -> covers hi x y \/ covers hj x y) as Hsame.
  { intros h Hh. exists h. split; [exact Hh |]. split; [apply chunkContains_refl |].
    exists h, h. apply list_elem_of_lookup_2 in Hh. repeat split; auto. }
  destruct (unionAll_body_cases i j hp)
    as [-> | (hi & hj & a & b & Hij & Ei & Ej & Ha & Hb & Hpts & ->)]; [apply Hsame |].
  cbn zeta.
  assert (forall h, <[j:=Some b]> (<[i:=Some a]> hp) !! k = Some (Some h) ->
            exists hk, hp !! k = Some (Some hk) /\ chunkContains h hk = true
              /\ exists hi hj, Some hi ∈ hp /\ Some hj ∈ hp
                   /\ forall x y, covers h x y -> covers hi x y \/ covers hj x y) as Hins.
  { intros h Hh.
    apply list_lookup_insert_Some in Hh as [(-> & Eh & _) | (Hjk & Hh)].
    { injection Eh as <-. exists hj. split; [exact Ej |]. split; [exact Hb |].
      exists hi, hj. apply list_elem_of_lookup_2 in Ei, Ej. repeat split; auto. }
    apply list_lookup_insert_Some in Hh as [(-> & Eh & _) | (Hik & Hh)].
    { injection Eh as <-. exists hi. split; [exact Ei |]. split; [exact Ha |].
      exists hi, hj. apply list_elem_of_lookup_2 in Ei, Ej. repeat split; auto. }
    apply Hsame, Hh. }
  destruct (chunkContains b a).
  { intros Hk. apply list_lookup_insert_Some in Hk as [(_ & Eh & _) | (_ & Hk)];
      [discriminate | apply Hins, Hk]. }
  destruct (chunkContains a b).
  { intros Hk. apply list_lookup_insert_Some in Hk as [(_ & Eh & _) | (_ & Hk)];
      [discriminate | apply Hins, Hk]. }
  apply Hins.
Qed.

(** A step of [unionAll] keeps every rectangle that a region of the heap
    contains inside a region of the heap. *)
Lemma unionAll_body_holds (i j : nat) (hp : list (option HeapBlock.t)) (r : HeapBlock.t) :
  heap_holds hp r -> heap_holds (unionAll_body i j hp) r.
Proof.
  intros (hb & Hin & Hc).
  destruct (unionAll_body_cases i j hp)
    as [-> | (hi & hj & a & b & Hij & Ei & Ej & Ha & Hb & _ & ->)]; [exists hb; auto |].
  cbn zeta.
  pose proof (lookup_lt_Some _ _ _ Ei) as Li.
  pose proof (lookup_lt_Some _ _ _ Ej) as Lj.
  apply list_elem_of_lookup_1 in Hin as [k Hk].
  set (hp1 := <[j:=Some b]> (<[i:=Some a]> hp)).
  assert (hp1 !! i = Some (Some a)) as H1i.
  { subst hp1. rewrite list_lookup_insert_ne by congruence.
    apply list_lookup_insert_eq. exact Li. }
  assert (hp1 !! j = Some (Some b)) as H1j.
  { subst hp1. apply list_lookup_insert_eq. rewrite length_insert. exact Lj. }
  assert (forall m, m <> i -> m <> j -> hp1 !! m = hp !! m) as H1o.
  { intros m Hmi Hmj. subst hp1. rewrite !list_lookup_insert_ne by congruence. reflexivity. }
  assert (length hp1 = length hp) as Hl1 by (subst hp1; rewrite !length_insert; reflexivity).
  (* the region of [hp1] that holds [r], and its index *)
  assert (exists m h, hp1 !! m = Some (Some h) /\ chunkContains h r = true
                      /\ (m = i -> h = a) /\ (m = j -> h = b)) as (m & h & Hm & Hh & Hmi & Hmj).
  { destruct (decide (k = i)) as [-> | Hki].
    { rewrite Ei in Hk. injection Hk as ->. exists i, a.
      split; [exact H1i |]. split; [eapply chunkContains_trans; eassumption |].
      split; [reflexivity | intros E; congruence]. }
    destruct (decide (k = j)) as [-> | Hkj].
    { rewrite Ej in Hk. injection Hk as ->. exists j, b.
      split; [exact H1j |]. split; [eapply chunkContains_trans; eassumption |].
      split; [intros E; congruence | reflexivity]. }
    exists k, hb. rewrite H1o by assumption. repeat split; try assumption; intros; congruence. }
  clearbody hp1.
  destruct (chunkContains b a) eqn:Eba.
  { destruct (decide (m = i)) as [-> | Hne].
    - exists b. split.
      + apply (list_elem_of_lookup_2 _ j). rewrite list_lookup_insert_ne by congruence. exact H1j.
      + rewrite (Hmi eq_refl) in Hh. eapply chunkContains_trans; eassumption.
    - exists h. split; [| exact Hh].
      apply (list_elem_of_lookup_2 _ m). rewrite list_lookup_insert_ne by congruence. exact Hm. }
  destruct (chunkContains a b) eqn:Eab.
  { destruct (decide (m = j)) as [-> | Hne].
    - exists a. split.
      + apply (list_elem_of_lookup_2 _ i). rewrite list_lookup_insert_ne by congruence. exact H1i.
      + rewrite (Hmj eq_refl) in Hh. eapply chunkContains_trans; eassumption.
    - exists h. split; [| exact Hh].
      apply (list_elem_of_lookup_2 _ m). rewrite list_lookup_insert_ne by congruence. exact Hm. }
  exists h. split; [| exact Hh]. exact (list_elem_of_lookup_2 _ _ _ Hm).
Qed.

Lemma unionAll_holds (heap : list (option HeapBlock.t)) (r : HeapBlock.t) :
  heap_holds heap r -> exists r', r' ∈ unionAll heap /\ chunkContains r' r = true.
Proof.
  intros Hh.
  assert (heap_holds (unionAll_loops heap) r) as (hb & Hin & Hc).
  { unfold unionAll_loops. apply foldl_invariant; [| exact Hh].
    intros hp i Hhp. apply foldl_invariant; [| exact Hhp].
    intros hp' j Hhp'. apply unionAll_body_holds, Hhp'. }
  exists hb. split; [| exact Hc].
  unfold unionAll. apply list_elem_of_omap. exists (Some hb). split; [exact Hin | reflexivity].
Qed.

(** The points of the regions of [unionAll heap] are points of regions of
    [heap]. *)
Lemma unionAll_points (heap : list (option HeapBlock.t)) (r' : HeapBlock.t) (x y : Z) :
  r' ∈ unionAll heap -> covers r' x y -> exists r, Some r ∈ heap /\ covers r x y.
Proof.
  intros Hr.
  assert (forall e, Some e ∈ unionAll_loops heap ->
            forall x y, covers e x y -> exists r, Some r ∈ heap /\ covers r x y) as Hloops.
  { unfold unionAll_loops.
    apply (foldl_invariant
             (fun hp => forall e, Some e ∈ hp ->
                forall x y, covers e x y -> exists r, Some r ∈ heap /\ covers r x y)).
    - intros hp i Hhp.
      apply (foldl_invariant
               (fun hp => forall e, Some e ∈ hp ->
                  forall x y, covers e x y -> exists r, Some r ∈ heap /\ covers r x y));
        [| exact Hhp].
      intros hp' j Hhp' e He x' y' Hc.
      apply list_elem_of_lookup_1 in He as [k Hk].
      apply unionAll_body_lookup in Hk as (_ & _ & _ & hi & hj & Hi & Hj & Hpts).
      destruct (Hpts _ _ Hc) as [Hc' | Hc']; eauto.
    - intros e He x' y' Hc. exists e. auto. }
  unfold unionAll in Hr. apply list_elem_of_omap in Hr as (e & He & Hid).
  cbn in Hid. subst e. apply Hloops, He.
Qed.

(** ** The heap loses no free space *)

(** The regions pushed for an intersected heap block lie in it. *)
Lemma residuals_within (hb blk ov r : HeapBlock.t) :
  intersect hb blk = Some ov -> r ∈ residuals hb ov -> chunkContains hb r = true.
Proof.
  intros Hi Hr. apply intersect_Some in Hi as (Hx & Hy & ->).
  destruct hb as [a0 b0 a1 b1], blk as [c0 d0 c1 d1]. cbn in *.
  unfold residuals in Hr. cbn in Hr.
  repeat (apply elem_of_app in Hr as [Hr | Hr]);
    match type of Hr with
    | _ ∈ (if ?c then _ else _) => destruct c eqn:E
    end;
    try (apply elem_of_nil in Hr; contradiction);
    apply list_elem_of_singleton in Hr; subst r; bools;
    apply chunkContains_spec; cbn; lia.
Qed.

(** A rectangle of positive size in an intersected heap block, apart from
    the block that was placed, lies in one of the regions pushed. *)
Lemma residuals_hold (hb blk ov r : HeapBlock.t) :
  intersect hb blk = Some ov -> positive blk -> positive r -> apart r blk ->
  chunkContains hb r = true ->
  exists res, res ∈ residuals hb ov /\ chunkContains res r = true.
Proof.
  intros Hi [Hbx Hby] [Hrx Hry] Hap Hc.
  apply intersect_Some in Hi as (Hx & Hy & ->).
  apply chunkContains_spec in Hc.
  destruct hb as [a0 b0 a1 b1], blk as [c0 d0 c1 d1], r as [r0 s0 r1 s1].
  unfold apart in Hap. cbn in *. unfold residuals. cbn.
  assert (r1 <= c0 \/ c1 <= r0 \/ s1 <= d0 \/ d1 <= s0) as Hside by lia.
  clear Hap.
  destruct Hside as [Hs | [Hs | [Hs | Hs]]].
  - (* left of the block *)
    exists (HeapBlock.mk a0 b0 (Z.max a0 c0) b1). split.
    + rewrite !elem_of_app. right. right. right.
      destruct (a0 =? Z.max a0 c0) eqn:E; bools; [lia | apply list_elem_of_singleton; reflexivity].
    + apply chunkContains_spec. cbn. lia.
  - (* right of the block *)
    exists (HeapBlock.mk (Z.min a1 c1) b0 a1 b1). split.
    + rewrite !elem_of_app. right. left.
      destruct (Z.min a1 c1 =? a1) eqn:E; bools; [lia | apply list_elem_of_singleton; reflexivity].
    + apply chunkContains_spec. cbn. lia.
  - (* before the block along y *)
    exists (HeapBlock.mk a0 b0 a1 (Z.max b0 d0)). split.
    + rewrite !elem_of_app. right. right. left.
      destruct (b0 =? Z.max b0 d0) eqn:E; bools; [lia | apply list_elem_of_singleton; reflexivity].
    + apply chunkContains_spec. cbn. lia.
  - (* after the block along y *)
    exists (HeapBlock.mk a0 (Z.min b1 d1) a1 b1). split.
    + rewrite !elem_of_app. left.
      destruct (Z.min b1 d1 =? b1) eqn:E; bools; [lia | apply list_elem_of_singleton; reflexivity].
    + apply chunkContains_spec. cbn. lia.
Qed.

Lemma adjustHeap_body_holds (blk r : HeapBlock.t) (hp : list (option HeapBlock.t)) (i : nat) :
  positive blk -> positive r -> apart r blk ->
  heap_holds hp r -> heap_holds (adjustHeap_body blk hp i) r.
Proof.
  intros Hb Hr Hap (hb & Hin & Hc). unfold adjustHeap_body.
  destruct (hp !! i) as [[hi |] |] eqn:Ei; [| exists hb; auto ..].
  destruct (intersect hi blk) as [ov |] eqn:Eov; [| exists hb; auto].
  apply list_elem_of_lookup_1 in Hin as [k Hk].
  destruct (decide (k = i)) as [-> | Hne].
  - rewrite Ei in Hk. injection Hk as ->.
    destruct (residuals_hold hb blk ov r Eov Hb Hr Hap Hc) as (res & Hres & Hcr).
    exists res. split; [| exact Hcr].
    apply list_elem_of_lookup_1 in Hres as [m Hm].
    apply (list_elem_of_lookup_2 _ (length hp + m)%nat).
    rewrite list_lookup_insert_ne by (apply lookup_lt_Some in Ei; lia).
    rewrite lookup_app_r by lia.
    replace (length hp + m - length hp)%nat with m by lia.
    rewrite list_lookup_fmap, Hm. reflexivity.
  - exists hb. split; [| exact Hc].
    apply (list_elem_of_lookup_2 _ k).
    rewrite list_lookup_insert_ne by congruence.
    apply lookup_app_l_Some. exact Hk.
Qed.

(** The regions in the heap during the loop of [adjustHeap] lie in regions
    of the heap it started from. *)
Lemma adjustHeap_body_within (blk : HeapBlock.t) (heap : list HeapBlock.t)
    (hp : list (option HeapBlock.t)) (i : nat) :
  (forall e, Some e ∈ hp -> exists hb, hb ∈ heap /\ chunkContains hb e = true) ->
  forall e, Some e ∈ adjustHeap_body blk hp i ->
    exists hb, hb ∈ heap /\ chunkContains hb e = true.
Proof.
  intros Hall e. unfold adjustHeap_body.
  destruct (hp !! i) as [[hi |] |] eqn:Ei; [| apply Hall ..].
  destruct (intersect hi blk) as [ov |] eqn:Eov; [| apply Hall].
  intros He. apply list_elem_of_lookup_1 in He as [k Hk].
  apply list_lookup_insert_Some in Hk as [(_ & E & _) | (_ & Hk)]; [discriminate |].
  apply lookup_app_Some in Hk as [Hk | [_ Hk]].
  - apply Hall. exact (list_elem_of_lookup_2 _ _ _ Hk).
  - rewrite list_lookup_fmap in Hk.
    destruct (residuals hi ov !! (k - length hp)%nat) as [res |] eqn:Er; [| discriminate].
    cbn in Hk. injection Hk as ->. apply list_elem_of_lookup_2 in Er.
    destruct (Hall hi) as (hb & Hhb & Hc); [exact (list_elem_of_lookup_2 _ _ _ Ei) |].
    exists hb. split; [exact Hhb |].
    eapply chunkContains_trans; [exact Hc |]. eapply residuals_within; eassumption.
Qed.

Lemma adjustHeap_holds (heap : list HeapBlock.t) (block : Block) (blk r : HeapBlock.t) :
  block_corners block = Some blk -> positive blk -> positive r -> apart r blk ->
  (exists hb, hb ∈ heap /\ chunkContains hb r = true) ->
  exists hb, hb ∈ adjustHeap heap block /\ chunkContains hb r = true.
Proof.
  intros Hc Hb Hr Hap (hb & Hin & Hhb). unfold adjustHeap. rewrite Hc.
  apply unionAll_holds.
  apply (foldl_invariant (fun hp => heap_holds hp r)).
  - intros hp i Hhp. apply adjustHeap_body_holds; assumption.
  - exists hb. split; [| exact Hhb]. apply list_elem_of_fmap. exists hb. auto.
Qed.

Lemma adjustHeap_points (heap : list HeapBlock.t) (block : Block) (r : HeapBlock.t) (x y : Z) :
  r ∈ adjustHeap heap block -> covers r x y -> exists hb, hb ∈ heap /\ covers hb x y.
Proof.
  intros Hr Hc.
  assert (forall hp0 : list (option HeapBlock.t),
            r ∈ unionAll hp0 ->
            (forall e, Some e ∈ hp0 -> exists hb, hb ∈ heap /\ chunkContains hb e = true) ->
            exists hb, hb ∈ heap /\ covers hb x y) as Hgen.
  { intros hp0 Hr0 Hall.
    destruct (unionAll_points hp0 r x y Hr0 Hc) as (e & He & Hce).
    destruct (Hall e He) as (hb & Hhb & Hin).
    exists hb. split; [exact Hhb |]. eapply chunkContains_covers; eassumption. }
  assert (forall e, Some e ∈ (Some <$> heap) ->
            exists hb, hb ∈ heap /\ chunkContains hb e = true) as Hstart.
  { intros e He. apply list_elem_of_fmap in He as (hb & E & Hhb). injection E as ->.
    exists hb. split; [exact Hhb | apply chunkContains_refl]. }
  unfold adjustHeap in Hr.
  destruct (block_corners block) as [blk |].
  - apply (Hgen _ Hr).
    apply (foldl_invariant
             (fun hp => forall e, Some e ∈ hp ->
                exists hb, hb ∈ heap /\ chunkContains hb e = true)); [| exact Hstart].
    intros hp i Hhp. apply adjustHeap_body_within, Hhp.
  - apply (Hgen _ Hr), Hstart.
Qed.

(** ** What [fit] does to the blocks *)

Lemma same_item_refl (b : Block) : same_item b b.
Proof. repeat split. Qed.

Lemma same_item_trans (a b c : Block) : same_item a b -> same_item b c -> same_item a c.
Proof. unfold same_item. intuition congruence. Qed.

Lemma same_orientation_trans (a b c : Block) :
  same_orientation a b -> same_orientation b c -> same_orientation a c.
Proof. unfold same_orientation. intuition congruence. Qed.

Lemma kept_refl (allow : bool) (b : Block) : kept allow b b.
Proof. split; [apply same_item_refl |]. split; [auto |]. intros _. repeat split. Qed.

Lemma kept_trans (allow : bool) (a b c : Block) :
  kept allow a b -> kept allow b c -> kept allow a c.
Proof.
  intros (H1 & H2 & H3) (H4 & H5 & H6).
  split; [eapply same_item_trans; eassumption |]. split; [auto |].
  intros Ha. eapply same_orientation_trans; auto.
Qed.

Lemma rotate_kept (b : Block) : kept true b (rotate b).
Proof.
  split.
  - destruct (rotate_frame b) as (? & ? & ? & _ & ? & ? & _). repeat split; assumption.
  - split; [apply rotate_wf | discriminate].
Qed.

Lemma place_at_kept (allow : bool) (r : HeapBlock.t) (b : Block) : kept allow b (place_at r b).
Proof.
  split; [repeat split |]. split; [| intros _; repeat split].
  unfold block_wf. cbn. auto.
Qed.

Lemma set_binIndex_kept (allow : bool) (i : nat) (b : Block) : kept allow b (set_binIndex i b).
Proof.
  split; [repeat split |]. split; [| intros _; repeat split].
  unfold block_wf. cbn. auto.
Qed.

(** The block after one iteration of [fit], before the test of [packed]. *)
Lemma fit_place_kept (p : Packer) (heap : list HeapBlock.t) (b : Block) :
  let b1 := (fit_place p heap b).1 in
  kept (allow90DegreeRotation p) b b1
  /\ (packed b = false -> packed b1 = true -> block_corners b1 = placement b1).
Proof.
  cbn zeta. rewrite fit_place_spec.
  destruct (list_find (fits b) heap) as [[k r] |].
  { cbn [fst]. split; [apply place_at_kept | reflexivity]. }
  destruct (allow90DegreeRotation p).
  - destruct (list_find (fits (rotate b)) heap) as [[k r] |]; cbn [fst].
    + split; [| reflexivity].
      eapply kept_trans; [apply rotate_kept | apply place_at_kept].
    + split; [apply rotate_kept |]. rewrite rotate_packed. congruence.
  - cbn [fst]. split; [apply kept_refl | congruence].
Qed.

(** One iteration of [fit]: the block goes to the end of one of the two
    lists; when it goes to [packedBlocks] it is marked packed, carries the
    bin index and its area is added. *)
Lemma fit_body_step (p : Packer) (binIdx : nat) (st : FitState) (b : Block) :
  let st' := fit_body p binIdx st b in
  exists b',
    kept (allow90DegreeRotation p) b b'
    /\ ((fs_packedBlocks st' = fs_packedBlocks st ++ [b']
         /\ fs_remainingBlocks st' = fs_remainingBlocks st
         /\ fs_area st' = fs_area st + w b' * h b'
         /\ packed b' = true /\ binIndex b' = Some binIdx
         /\ (packed b = false -> block_corners b' = placement b'))
        \/ (fs_packedBlocks st' = fs_packedBlocks st
            /\ fs_remainingBlocks st' = fs_remainingBlocks st ++ [b']
            /\ fs_area st' = fs_area st
            /\ packed b' = false)).
Proof.
  cbn zeta. unfold fit_body.
  destruct (fit_place_kept p (fs_heap st) b) as [Hk Hc]. cbn zeta in Hk, Hc.
  destruct (fit_place p (fs_heap st) b) as [b1 heap']. cbn [fst] in Hk, Hc.
  destruct (packed b1) eqn:Ep.
  - exists (set_binIndex binIdx b1).
    split; [eapply kept_trans; [exact Hk | apply set_binIndex_kept] |].
    left. cbn. repeat split; try assumption.
    intros Hu. specialize (Hc Hu eq_refl). exact Hc.
  - exists b1. split; [exact Hk |]. right. cbn. repeat split; assumption.
Qed.

Lemma sum_area_from (l : list Block) (z : Z) :
  foldl (fun acc block => acc + w block * h block) z l = z + sum_area l.
Proof.
  unfold sum_area. revert z. induction l as [| b l IH]; intros z; cbn; [lia |].
  rewrite (IH (z + _)), (IH (0 + _)). lia.
Qed.

Lemma sum_area_app (l k : list Block) : sum_area (l ++ k) = sum_area l + sum_area k.
Proof. unfold sum_area at 1. rewrite foldl_app, sum_area_from. reflexivity. Qed.

(** The loop of [fit] from a state [st]. *)
Lemma fit_loop_steps (p : Packer) (binIdx : nat) (blocks : list Block) (st : FitState) :
  let st' := foldl (fit_body p binIdx) st blocks in
  exists pk rm,
    fs_packedBlocks st' = fs_packedBlocks st ++ pk
    /\ fs_remainingBlocks st' = fs_remainingBlocks st ++ rm
    /\ fs_area st' = fs_area st + sum_area pk
    /\ Forall (fun b' => packed b' = true /\ binIndex b' = Some binIdx) pk
    /\ Forall (fun b' => packed b' = false) rm
    /\ Forall (fun b' => exists b, b ∈ blocks /\ kept (allow90DegreeRotation p) b b'
                                   /\ (packed b = false -> packed b' = true ->
                                       block_corners b' = placement b'))
              (pk ++ rm).
Proof.
  revert st. induction blocks as [| b blocks IH]; intros st; cbn zeta; cbn [foldl].
  { exists [], []. rewrite !app_nil_r. cbn. repeat split; try constructor. unfold sum_area. cbn. lia. }
  destruct (IH (fit_body p binIdx st b)) as (pk & rm & Hp & Hr & Ha & Hpk & Hrm & Hall).
  assert (Forall (fun b' => exists b0, b0 ∈ b :: blocks
                     /\ kept (allow90DegreeRotation p) b0 b'
                     /\ (packed b0 = false -> packed b' = true ->
                         block_corners b' = placement b')) (pk ++ rm)) as Hall'.
  { eapply Forall_impl; [exact Hall |]. intros b' (b0 & Hb0 & Hk).
    exists b0. split; [right; exact Hb0 | exact Hk]. }
  destruct (fit_body_step p binIdx st b) as (b' & Hk & [Hcase | Hcase]); cbn zeta in Hcase.
  - destruct Hcase as (Ep & Er & Ea & Epk & Ebi & Ecor).
    exists (b' :: pk), rm. rewrite Hp, Hr, Ha, Ep, Er, Ea, <- app_assoc.
    split; [reflexivity |]. split; [reflexivity |].
    split; [change (b' :: pk) with ([b'] ++ pk); rewrite sum_area_app; unfold sum_area at 2; cbn; lia |].
    split; [constructor; [split; assumption | exact Hpk] |].
    split; [exact Hrm |].
    cbn. constructor; [| exact Hall'].
    exists b. split; [left |]. split; [exact Hk | intros Hu _; exact (Ecor Hu)].
  - destruct Hcase as (Ep & Er & Ea & Epk).
    exists pk, (b' :: rm). rewrite Hp, Hr, Ha, Ep, Er, Ea, <- app_assoc.
    split; [reflexivity |]. split; [reflexivity |]. split; [reflexivity |].
    split; [exact Hpk |]. split; [constructor; assumption |].
    apply Forall_app in Hall' as [H1 H2]. apply Forall_app. split; [exact H1 |].
    constructor; [| exact H2].
    exists b. split; [left |]. split; [exact Hk | intros _ E; congruence].
Qed.

(** What [fit] returns. *)
Lemma fit_result (p : Packer) (blocks : list Block) (binIdx : nat) :
  let r := fit p blocks binIdx in
  Result.area r = sum_area (Result.packedBlocks r)
  /\ Forall (fun b' => packed b' = true /\ binIndex b' = Some binIdx) (Result.packedBlocks r)
  /\ Forall (fun b' => packed b' = false) (Result.remainingBlocks r)
  /\ Forall (fun b' => exists b, b ∈ blocks /\ kept (allow90DegreeRotation p) b b'
                                 /\ (packed b = false -> packed b' = true ->
                                     block_corners b' = placement b'))
            (Result.packedBlocks r ++ Result.remainingBlocks r).
Proof.
  cbn zeta. unfold fit, fit_loop.
  cbn [Result.area Result.packedBlocks Result.remainingBlocks].
  destruct (fit_loop_steps p binIdx blocks (fit_init p)) as (pk & rm & Hp & Hr & Ha & H1 & H2 & H3).
  cbn zeta in Hp, Hr, Ha. rewrite Hp, Hr, Ha.
  unfold fit_init. cbn [fs_packedBlocks fs_remainingBlocks fs_area app].
  split; [apply Z.add_0_l |]. repeat split; assumption.
Qed.

(** ** Sorting only reorders the blocks *)

Lemma interleave_perm (l s : list Block) : interleave l s ≡ₚ l ++ s.
Proof.
  revert s. induction l as [| x l IH]; intros s; [reflexivity |].
  destruct s as [| y s]; cbn [interleave].
  - rewrite IH. reflexivity.
  - rewrite IH. cbn. constructor. apply Permutation_middle.
Qed.

Lemma swap_perm (i j : nat) (things : list Block) : swap i j things ≡ₚ things.
Proof.
  unfold swap.
  destruct (things !! i) as [a |] eqn:Ei; [| reflexivity].
  destruct (things !! j) as [b |] eqn:Ej; [| reflexivity].
  apply Permutation_insert_swap; assumption.
Qed.

Lemma shuffle_loop_perm (rnd : nat -> nat) (i : nat) (things : list Block) :
  shuffle_loop rnd i things ≡ₚ things.
Proof.
  revert things. induction i as [| i IH]; intros things; [reflexivity |].
  cbn [shuffle_loop]. rewrite IH. apply swap_perm.
Qed.

Lemma sortBlocksByInterleaving_perm (H : Host) (blocks : list Block) :
  host_ok H -> sortBlocksByInterleaving H blocks ≡ₚ blocks.
Proof.
  intros Hok. unfold sortBlocksByInterleaving.
  rewrite interleave_perm, take_drop. apply Hok.
Qed.

Lemma sortBlocks_perm (H : Host) (attempt : Attempt.t) (t : SortType) :
  host_ok H ->
  Attempt.remainingBlocks (sortBlocks H attempt t) ≡ₚ Attempt.remainingBlocks attempt.
Proof.
  intros Hok. unfold sortBlocks.
  destruct t as [[| [| [| [| [| n]]]]] |]; cbn;
    first [apply Hok | apply sortBlocksByInterleaving_perm, Hok | apply shuffle_loop_perm].
Qed.

(** The attempt when it enters the bins loop. *)
Lemma attempt_sorted_start (H : Host) (s : Settings) (rnd : bool) (bins : list Bin)
    (n a : nat) :
  host_ok H ->
  let attempt := attempt_sorted H s rnd bins n a in
  Attempt.remainingBlocks attempt ≡ₚ make_blocks H s a n
  /\ Attempt.packedBlocks attempt = []
  /\ Attempt.area attempt = 0
  /\ Attempt.info attempt = []
  /\ Attempt.binCount attempt = length bins.
Proof.
  intros Hok. cbn zeta. unfold attempt_sorted.
  destruct (s_doNotSort s); [split; [reflexivity | repeat split] |].
  split; [rewrite (sortBlocks_perm H _ _ Hok); reflexivity |].
  unfold sortBlocks. destruct (if rnd then SortInfinity else SortIndex a) as [[| [| [| [| [| m]]]]] |];
    cbn; repeat split.
Qed.

(** ** The bins loop, bin by bin *)

(** A property of the bins processed so far and of the attempt that every
    pass of the bins loop keeps holds when the loop ends, of the bins it
    processed. *)
Lemma bins_loop_invariant (Inv : list Bin -> Attempt.t -> Prop)
    (s : Settings) (tic : nat) (tia : Z) (rest done : list Bin) (attempt : Attempt.t) :
  (forall done' bin att,
     Inv done' att -> Inv (done' ++ [bin]) (bins_body s tic tia (length done') bin att)) ->
  Inv done attempt ->
  exists k, (k <= length rest)%nat /\ (rest <> [] -> 0 < k)%nat
    /\ Inv (done ++ take k rest) (bins_loop s tic tia (length done) rest attempt).
Proof.
  intros Hstep. revert done attempt.
  induction rest as [| bin rest IH]; intros done attempt Hinv.
  { exists O. split; [cbn; lia |]. split; [intros E; contradiction |].
    cbn. rewrite app_nil_r. exact Hinv. }
  cbn [bins_loop]. cbn zeta.
  pose proof (Hstep _ bin _ Hinv) as Hinv1.
  destruct (Attempt.remainingBlocks (bins_body s tic tia (length done) bin attempt)) eqn:E.
  - exists 1%nat. split; [cbn; lia |]. split; [lia |]. cbn [take]. rewrite take_0. exact Hinv1.
  - destruct (IH (done ++ [bin]) _ Hinv1) as (k & Hk & _ & Hinvk).
    exists (S k). split; [cbn; lia |]. split; [lia |]. cbn [take].
    rewrite length_app in Hinvk. cbn [length] in Hinvk.
    replace (length done + 1)%nat with (S (length done)) in Hinvk by lia.
    rewrite <- app_assoc in Hinvk. exact Hinvk.
Qed.

Lemma in_bin_none (j : nat) (l : list Block) :
  Forall (fun b => binIndex b <> Some j) l -> in_bin j l = [].
Proof.
  unfold in_bin. induction 1 as [| b l Hb Hl IH]; [reflexivity |].
  rewrite filter_cons. destruct (decide (binIndex b = Some j)); [contradiction | exact IH].
Qed.

Lemma in_bin_all (j : nat) (l : list Block) :
  Forall (fun b => binIndex b = Some j) l -> in_bin j l = l.
Proof.
  unfold in_bin. induction 1 as [| b l Hb Hl IH]; [reflexivity |].
  rewrite filter_cons. destruct (decide (binIndex b = Some j)); [| contradiction].
  f_equal. exact IH.
Qed.

Lemma in_bin_app (j : nat) (l k : list Block) : in_bin j (l ++ k) = in_bin j l ++ in_bin j k.
Proof. unfold in_bin. apply filter_app. Qed.

(** One pass of the bins loop keeps the state of the attempt. *)
Lemma bins_body_inv (s : Settings) (tic : nat) (tia : Z) (blocks0 : list Block)
    (done : list Bin) (bin : Bin) (attempt : Attempt.t) :
  attempt_inv (s_allow90DegreeRotation s) blocks0 done attempt ->
  attempt_inv (s_allow90DegreeRotation s) blocks0 (done ++ [bin])
              (bins_body s tic tia (length done) bin attempt).
Proof.
  intros (Hpk & Hrm & Hkept & Harea & Hperm & Hinfo & Hcount).
  set (p := Packer_new (width bin) (height bin) (s_allow90DegreeRotation s)).
  set (r := fit p (Attempt.remainingBlocks attempt) (length done)).
  destruct (fit_result p (Attempt.remainingBlocks attempt) (length done))
    as (Ra & Rpk & Rrm & Rkept).
  destruct (fit_lists p (Attempt.remainingBlocks attempt) (length done))
    as (Rperm & _ & Rcount).
  cbn zeta in Ra, Rpk, Rrm, Rkept, Rperm, Rcount. fold r in Ra, Rpk, Rrm, Rkept, Rperm, Rcount.
  unfold attempt_inv, bins_body. fold p. fold r.
  cbn [Attempt.packedBlocks Attempt.remainingBlocks Attempt.area Attempt.info Attempt.binCount].
  clearbody r. rewrite length_app. cbn [length].
  split; [| split; [| split; [| split; [| split; [| split]]]]].
  - apply Forall_app. split.
    + eapply Forall_impl; [exact Hpk |]. intros b (H1 & H2 & j & Hj & H3).
      split; [exact H1 |]. split; [exact H2 |]. exists j. split; [lia | exact H3].
    + apply Forall_lookup. intros k b Hk.
      destruct (Forall_lookup_1 _ _ _ _ Rpk Hk) as [H1 H2].
      split; [exact H1 |]. split; [| exists (length done); split; [lia | exact H2]].
      assert (b ∈ Result.packedBlocks r ++ Result.remainingBlocks r) as Hb.
      { apply elem_of_app. left. exact (list_elem_of_lookup_2 _ _ _ Hk). }
      rewrite Forall_forall in Rkept. destruct (Rkept _ Hb) as (b0 & Hb0 & _ & Hcor).
      apply Hcor; [| exact H1]. rewrite Forall_forall in Hrm. apply Hrm, Hb0.
  - exact Rrm.
  - rewrite <- app_assoc. apply Forall_app. split.
    + apply Forall_app in Hkept as [Hk1 _]. exact Hk1.
    + eapply Forall_impl; [exact Rkept |]. intros b' (b & Hb & Hk & _).
      apply Forall_app in Hkept as [_ Hk2]. rewrite Forall_forall in Hk2.
      destruct (Hk2 _ Hb) as (b0 & Hb0 & Hk0).
      exists b0. split; [exact Hb0 |]. eapply kept_trans; eassumption.
  - rewrite sum_area_app, Harea, Ra. reflexivity.
  - rewrite <- app_assoc, fmap_app, Rperm, <- fmap_app. exact Hperm.
  - rewrite Hinfo. unfold info_lines.
    replace (length done + 1)%nat with (S (length done)) by lia.
    rewrite seq_S, fmap_app. cbn [fmap list_fmap Nat.add].
    assert (in_bin (length done) (Attempt.packedBlocks attempt) = []) as E1.
    { apply in_bin_none. eapply Forall_impl; [exact Hpk |].
      intros b (_ & _ & j & Hj & Ej) E. rewrite Ej in E. injection E as ->. lia. }
    assert (in_bin (length done) (Result.packedBlocks r) = Result.packedBlocks r) as E2.
    { apply in_bin_all. eapply Forall_impl; [exact Rpk |]. intros b [_ E]. exact E. }
    rewrite in_bin_app, E1, E2, Rcount. cbn [app]. f_equal.
    apply list_fmap_ext. intros k i Hi.
    apply lookup_seq in Hi as [-> Hi]. cbn [Nat.add].
    rewrite in_bin_app.
    assert (in_bin k (Result.packedBlocks r) = []) as ->.
    { apply in_bin_none. eapply Forall_impl; [exact Rpk |].
      intros b [_ E] E'. rewrite E in E'. injection E' as E'. lia. }
    rewrite app_nil_r. reflexivity.
  - intros _. reflexivity.
Qed.

(** The attempt when the bins loop ends, started on blocks that are not
    marked packed: the bins it processed are the first [binCount] bins. *)
Lemma bins_loop_inv (s : Settings) (tic : nat) (tia : Z) (bins : list Bin)
    (attempt : Attempt.t) :
  Attempt.packedBlocks attempt = [] ->
  Attempt.area attempt = 0 ->
  Attempt.info attempt = [] ->
  Attempt.binCount attempt = length bins ->
  unpacked (Attempt.remainingBlocks attempt) ->
  let attempt' := bins_loop s tic tia 0 bins attempt in
  (Attempt.binCount attempt' <= length bins)%nat
  /\ attempt_inv (s_allow90DegreeRotation s) (Attempt.remainingBlocks attempt)
                 (take (Attempt.binCount attempt') bins) attempt'.
Proof.
  intros Hp Ha Hi Hb Hun. cbn zeta.
  destruct (bins_loop_invariant
              (attempt_inv (s_allow90DegreeRotation s) (Attempt.remainingBlocks attempt))
              s tic tia bins [] attempt) as (k & Hk & Hpos & Hinv).
  - intros done' bin att. apply bins_body_inv.
  - unfold attempt_inv. rewrite Hp, Ha, Hi. cbn [app length].
    split; [constructor |]. split; [exact Hun |]. split.
    { apply Forall_forall. intros b Hb'. exists b. split; [exact Hb' | apply kept_refl]. }
    split; [reflexivity |]. split; [reflexivity |]. split; [reflexivity |].
    intros E. contradiction.
  - change (length (@nil Bin)) with O in Hinv.
    assert (Attempt.binCount (bins_loop s tic tia 0 bins attempt) = k) as Ek.
    { destruct bins as [| bin bins'].
      - cbn in Hk. cbn. rewrite Hb. cbn. lia.
      - specialize (Hpos ltac:(discriminate)).
        destruct Hinv as (_ & _ & _ & _ & _ & _ & Hc).
        rewrite Hc; [rewrite app_nil_l, length_take_le; [reflexivity | exact Hk] |].
        destruct k; [lia | discriminate]. }
    rewrite Ek. split; [exact Hk | exact Hinv].
Qed.

Lemma attempt_inv_perm (allow : bool) (blocks0 blocks1 : list Block) (done : list Bin)
    (attempt : Attempt.t) :
  blocks0 ≡ₚ blocks1 ->
  attempt_inv allow blocks0 done attempt -> attempt_inv allow blocks1 done attempt.
Proof.
  intros Hperm (H1 & H2 & H3 & H4 & H5 & H6 & H7).
  split; [exact H1 |]. split; [exact H2 |]. split.
  { eapply Forall_impl; [exact H3 |]. intros b' (b & Hb & Hk). exists b.
    split; [rewrite <- Hperm; exact Hb | exact Hk]. }
  split; [exact H4 |]. split; [rewrite H5, Hperm; reflexivity |].
  split; [exact H6 | exact H7].
Qed.

(** The attempt made at index [a]: the bins it processed are the first
    [binCount] bins, and its state is the state of the bins loop after
    them, for the blocks built at its start. *)
Lemma run_attempt_inv (H : Host) (s : Settings) (rnd : bool) (bins : list Bin)
    (n : nat) (tia : Z) (a : nat) :
  host_ok H ->
  let attempt := run_attempt H s rnd bins n tia a in
  (Attempt.binCount attempt <= length bins)%nat
  /\ attempt_inv (s_allow90DegreeRotation s) (make_blocks H s a n)
                 (take (Attempt.binCount attempt) bins) attempt.
Proof.
  intros Hok. cbn zeta.
  destruct (attempt_sorted_start H s rnd bins n a Hok) as (Hperm & Hp & Ha & Hi & Hb).
  cbn zeta in Hperm, Hp, Ha, Hi, Hb.
  destruct (bins_loop_inv s n tia bins (attempt_sorted H s rnd bins n a) Hp Ha Hi Hb
              (attempt_sorted_unpacked H s rnd bins n a Hok)) as [Hle Hinv].
  cbn zeta in Hle, Hinv.
  apply (attempt_inv_perm _ _ _ _ _ Hperm) in Hinv.
  unfold run_attempt. split; [exact Hle | exact Hinv].
Qed.

(** ** The sizes of the blocks an attempt returns *)

Lemma wf_dims (b b' : Block) :
  block_wf b -> block_wf b' -> same_item b b' ->
  (w b' = w b /\ h b' = h b) \/ (w b' = h b /\ h b' = w b).
Proof.
  intros (Hw & Hh & Hcur & _) (_ & _ & Hcur' & _) (_ & _ & _ & Ed & Er).
  rewrite Ed, Er in Hcur'.
  assert (w b = Dimensions.w (if isRotated b then rotatedDimensions b else dimensions b)
          /\ h b = Dimensions.h (if isRotated b then rotatedDimensions b else dimensions b))
    as [E1 E2] by (rewrite <- Hcur; split; reflexivity).
  assert (w b' = Dimensions.w (if isRotated b' then rotatedDimensions b else dimensions b)
          /\ h b' = Dimensions.h (if isRotated b' then rotatedDimensions b else dimensions b))
    as [E3 E4] by (rewrite <- Hcur'; split; reflexivity).
  destruct (isRotated b), (isRotated b'); [left | right | right | left]; split; congruence.
Qed.

Lemma kept_sized (allow : bool) (b b' : Block) : kept allow b b' -> sized b -> sized b'.
Proof.
  intros (Hs & Hwf & _) (Hb & Hw & Hh). specialize (Hwf Hb).
  split; [exact Hwf |].
  destruct (wf_dims b b' Hb Hwf Hs) as [[-> ->] | [-> ->]]; split; assumption.
Qed.

(** ** The fields of a new block *)

(** The fields the constructor gives a block, whatever [forceRotate]. *)
Lemma Block_new_fields (a : App) (pad mar : Z) (force : bool) (item : Item) (idx : nat) :
  let b := Block_new a pad mar force item idx in
  index b = idx /\ padding b = pad /\ margin b = mar
  /\ dimensions b
     = match a with
       | Illustrator =>
           Dimensions.mk (b4_2 (bounds item) - b4_0 (bounds item) + pad)
                         (b4_1 (bounds item) - b4_3 (bounds item) + pad)
                         (left item - b4_0 (bounds item))
                         (top item - b4_1 (bounds item))
       | Indesign =>
           Dimensions.mk (b4_3 (bounds item) - b4_1 (bounds item) + pad)
                         (b4_2 (bounds item) - b4_0 (bounds item) + pad)
                         (b4_1 (geometricBounds item) - b4_1 (bounds item))
                         (b4_0 (geometricBounds item) - b4_0 (bounds item))
       end.
Proof.
  cbn zeta. unfold Block_new.
  destruct a, force; cbn zeta;
    match goal with
    | |- context [rotate ?b] =>
        destruct (rotate_frame b) as (-> & -> & -> & _ & -> & _); cbn; repeat split
    | |- _ => cbn; repeat split
    end.
Qed.

(** ** Bounds *)

Lemma encloses_trans (a : App) (x y z : Z * Z * Z * Z) :
  encloses a x y -> encloses a y z -> encloses a x z.
Proof. destruct a; unfold encloses; lia. Qed.

Lemma encloses_refl (a : App) (x : Z * Z * Z * Z) : encloses a x x.
Proof. destruct a; unfold encloses; lia. Qed.

(** The loop of [combineBounds] from [first]. *)
Lemma combine_loop (a : App) (rest : list (Z * Z * Z * Z)) (first : Z * Z * Z * Z) :
  forall c, combineBounds a (first :: rest) = Some c ->
    encloses a c first
    /\ (forall b, b ∈ rest -> encloses a c b)
    /\ (forall e, encloses a e first -> (forall b, b ∈ rest -> encloses a e b) ->
                  encloses a e c).
Proof.
  cbn [combineBounds]. revert first.
  induction rest as [| b rest IH]; intros first c Hc.
  { cbn in Hc. injection Hc as <-. split; [apply encloses_refl |].
    split; [intros b Hb; apply elem_of_nil in Hb; contradiction | auto]. }
  cbn [foldl] in Hc.
  destruct (IH _ c Hc) as (H1 & H2 & H3).
  assert (encloses a c first /\ encloses a c b) as [Hf Hb].
  { destruct first as [[[f0 f1] f2] f3], b as [[[g0 g1] g2] g3], c as [[[c0 c1] c2] c3].
    destruct a; unfold encloses in *; cbn in *; lia. }
  split; [exact Hf |]. split.
  - intros b' Hb'. apply elem_of_cons in Hb' as [-> | Hb']; [exact Hb | apply H2, Hb'].
  - intros e He Hall. apply H3.
    + pose proof (Hall b ltac:(left)) as Heb.
      destruct first as [[[f0 f1] f2] f3], b as [[[g0 g1] g2] g3], e as [[[e0 e1] e2] e3].
      destruct a; unfold encloses in *; cbn in *; lia.
    + intros b' Hb'. apply Hall. right. exact Hb'.
Qed.

Lemma boundsDoIntersect_spec (a : App) (b c : Z * Z * Z * Z) :
  boundsDoIntersect a b c None = true
  <-> match a with
      | Indesign =>
          b4_0 c <= b4_2 b /\ b4_1 c <= b4_3 b /\ b4_0 b <= b4_2 c /\ b4_1 b <= b4_3 c
      | Illustrator =>
          b4_0 c <= b4_2 b /\ b4_3 b <= b4_1 c /\ b4_0 b <= b4_2 c /\ b4_3 c <= b4_1 b
      end.
Proof.
  unfold boundsDoIntersect. rewrite negb_true_iff.
  destruct a; rewrite !orb_false_iff, !Z.gtb_ltb, !Z.ltb_ge; tauto.
Qed.

Lemma intersection_loop_step (a : App) (i b : Z * Z * Z * Z) (rest : list (Z * Z * Z * Z)) :
  intersection_loop a i (b :: rest)
  = if boundsDoIntersect a i b None then intersection_loop a (narrow a i b) rest else None.
Proof.
  cbn [intersection_loop]. destruct (boundsDoIntersect a i b None); cbn [negb]; [| reflexivity].
  destruct a; reflexivity.
Qed.

Lemma narrow_encloses (a : App) (i b e : Z * Z * Z * Z) :
  encloses a i (narrow a i b) /\ encloses a b (narrow a i b)
  /\ (encloses a i e -> encloses a b e -> encloses a (narrow a i b) e).
Proof.
  destruct i as [[[i0 i1] i2] i3], b as [[[g0 g1] g2] g3], e as [[[e0 e1] e2] e3].
  destruct a; unfold encloses, narrow; cbn; lia.
Qed.

(** The loop of [intersectionOfBounds] from [i], when it returns. *)
Lemma intersection_loop_Some (a : App) (rest : list (Z * Z * Z * Z)) (i r : Z * Z * Z * Z) :
  intersection_loop a i rest = Some r ->
  encloses a i r
  /\ (forall b, b ∈ rest -> encloses a b r)
  /\ (forall e, encloses a i e -> (forall b, b ∈ rest -> encloses a b e) -> encloses a r e).
Proof.
  revert i. induction rest as [| b rest IH]; intros i Hr.
  { cbn in Hr. injection Hr as <-. split; [apply encloses_refl |].
    split; [intros b Hb; apply elem_of_nil in Hb; contradiction | auto]. }
  rewrite intersection_loop_step in Hr.
  destruct (boundsDoIntersect a i b None); [| discriminate].
  destruct (IH _ Hr) as (H1 & H2 & H3).
  destruct (narrow_encloses a i b r) as (Hi & Hb & _).
  split; [eapply encloses_trans; eassumption |]. split.
  - intros b' Hb'. apply elem_of_cons in Hb' as [-> | Hb'];
      [eapply encloses_trans; eassumption | apply H2, Hb'].
  - intros e He Hall. apply H3.
    + apply narrow_encloses; [exact He | apply Hall; left].
    + intros b' Hb'. apply Hall. right. exact Hb'.
Qed.

(** Upright rectangles: the narrowed rectangle meets a third one exactly
    when both do. *)
Lemma narrow_intersects (a : App) (i b c : Z * Z * Z * Z) :
  upright a c -> boundsDoIntersect a i b None = true ->
  (boundsDoIntersect a (narrow a i b) c None = true
   <-> boundsDoIntersect a i c None = true /\ boundsDoIntersect a b c None = true).
Proof.
  rewrite !boundsDoIntersect_spec.
  destruct i as [[[i0 i1] i2] i3], b as [[[g0 g1] g2] g3], c as [[[c0 c1] c2] c3].
  destruct a; unfold upright, narrow; cbn; lia.
Qed.

Lemma boundsDoIntersect_sym (a : App) (b c : Z * Z * Z * Z) (t : option bool) :
  boundsDoIntersect a b c t = boundsDoIntersect a c b t.
Proof.
  unfold boundsDoIntersect. f_equal.
  destruct (match t with
            | Some t0 => t0
            | None => match a with Illustrator => false | Indesign => true end
            end);
    rewrite !Z.gtb_ltb;
    repeat match goal with |- context [?x <? ?y] => destruct (Z.ltb_spec x y) end;
    cbn; try reflexivity; lia.
Qed.

(** The loop of [intersectionOfBounds] returns exactly when the rectangle
    it starts from meets every rectangle of the rest and any two of the rest
    meet. *)
Lemma intersection_loop_is_Some (a : App) (rest : list (Z * Z * Z * Z)) (i : Z * Z * Z * Z) :
  Forall (upright a) rest ->
  (is_Some (intersection_loop a i rest)
   <-> (forall b, b ∈ rest -> boundsDoIntersect a i b None = true)
       /\ (forall b c, b ∈ rest -> c ∈ rest -> boundsDoIntersect a b c None = true)).
Proof.
  revert i. induction rest as [| b rest IH]; intros i Hup.
  { cbn. split; [intros _ | intros _; eexists; reflexivity].
    split; [intros b Hb | intros b c Hb _]; apply elem_of_nil in Hb; contradiction. }
  apply Forall_cons in Hup as [Hb Hup].
  rewrite intersection_loop_step.
  destruct (boundsDoIntersect a i b None) eqn:Eib.
  - rewrite (IH _ Hup). split.
    + intros [H1 H2].
      assert (forall c, c ∈ rest ->
                boundsDoIntersect a i c None = true /\ boundsDoIntersect a b c None = true)
        as H12.
      { intros c Hc. apply narrow_intersects; [| exact Eib | apply H1, Hc].
        rewrite Forall_forall in Hup. apply Hup, Hc. }
      assert (boundsDoIntersect a b b None = true) as Hbb.
      { apply boundsDoIntersect_spec. destruct a; unfold upright in Hb; lia. }
      split.
      * intros c Hc. apply elem_of_cons in Hc as [-> | Hc]; [exact Eib | apply H12, Hc].
      * intros c d Hc Hd.
        apply elem_of_cons in Hc as [-> | Hc]; apply elem_of_cons in Hd as [-> | Hd].
        -- exact Hbb.
        -- apply H12, Hd.
        -- rewrite boundsDoIntersect_sym. apply H12, Hc.
        -- apply H2; assumption.
    + intros [H1 H2]. split.
      * intros c Hc. apply narrow_intersects.
        -- rewrite Forall_forall in Hup. apply Hup, Hc.
        -- exact Eib.
        -- split; [apply H1; right; exact Hc | apply H2; [left | right; exact Hc]].
      * intros c d Hc Hd. apply H2; right; assumption.
  - split; [intros [x Hx]; discriminate |].
    intros [H1 _]. rewrite H1 in Eib by left. discriminate.
Qed.

(** ** Dividing bounds by guides *)

Lemma tlbr_apart_sym (b c : Z * Z * Z * Z) : tlbr_apart b c -> tlbr_apart c b.
Proof. unfold tlbr_apart. lia. Qed.

Lemma tlbr_apart_shrink (b c p q : Z * Z * Z * Z) :
  encloses Indesign b p -> encloses Indesign c q -> tlbr_apart b c -> tlbr_apart p q.
Proof.
  destruct b as [[[b0 b1] b2] b3], c as [[[c0 c1] c2] c3],
           p as [[[p0 p1] p2] p3], q as [[[q0 q1] q2] q3].
  unfold encloses, tlbr_apart. cbn. intros (? & ? & ? & ?) (? & ? & ? & ?) [Hv | Hh]; [left | right]; lia.
Qed.

Lemma all_apart_nil : all_apart [].
Proof. intros i j b c _ Hi. rewrite lookup_nil in Hi. discriminate. Qed.

Lemma all_apart_app (l k : list (Z * Z * Z * Z)) :
  all_apart l -> all_apart k ->
  (forall b c, b ∈ l -> c ∈ k -> tlbr_apart b c) ->
  all_apart (l ++ k).
Proof.
  intros Hl Hk Hlk i j b c Hne Hi Hj.
  apply lookup_app_Some in Hi as [Hi | [Hgi Hi]];
    apply lookup_app_Some in Hj as [Hj | [Hgj Hj]].
  - exact (Hl i j b c Hne Hi Hj).
  - apply Hlk; eapply list_elem_of_lookup_2; eassumption.
  - apply tlbr_apart_sym, Hlk; eapply list_elem_of_lookup_2; eassumption.
  - apply (Hk (i - length l)%nat (j - length l)%nat b c); [lia | assumption ..].
Qed.

Lemma all_apart_elem (l : list (Z * Z * Z * Z)) (x : Z * Z * Z * Z) :
  all_apart (x :: l) -> all_apart l /\ forall c, c ∈ l -> tlbr_apart x c.
Proof.
  intros H. split.
  - intros i j b c Hne Hi Hj. apply (H (S i) (S j) b c); [lia | assumption ..].
  - intros c Hc. apply list_elem_of_lookup_1 in Hc as [j Hj].
    apply (H O (S j) x c); [lia | reflexivity | exact Hj].
Qed.

(** What one bounds becomes at one guide. *)
Lemma divide_one_cases (margin : Z) (isHorizontal : bool) (g : Z) (b : Z * Z * Z * Z) :
  divide_one margin isHorizontal g b = [b]
  \/ (isHorizontal = true /\ b4_0 b < g < b4_2 b
      /\ divide_one margin isHorizontal g b
         = [(b4_0 b, b4_1 b, g - margin, b4_3 b); (g + margin, b4_1 b, b4_2 b, b4_3 b)])
  \/ (isHorizontal = false /\ b4_1 b < g < b4_3 b
      /\ divide_one margin isHorizontal g b
         = [(b4_0 b, b4_1 b, b4_2 b, g - margin); (b4_0 b, g + margin, b4_2 b, b4_3 b)]).
Proof.
  unfold divide_one. rewrite !Z.gtb_ltb. destruct isHorizontal.
  - destruct (Z.ltb_spec (b4_0 b) g); [| left; reflexivity].
    destruct (Z.ltb_spec g (b4_2 b)); [| left; reflexivity].
    right. left. cbn. repeat split; assumption.
  - destruct (Z.ltb_spec (b4_1 b) g); [| left; reflexivity].
    destruct (Z.ltb_spec g (b4_3 b)); [| left; reflexivity].
    right. right. cbn. repeat split; assumption.
Qed.

Lemma divide_one_ok (margin : Z) (isHorizontal : bool) (g : Z) (b : Z * Z * Z * Z) :
  0 <= margin ->
  divide_one margin isHorizontal g b <> []
  /\ (forall p, p ∈ divide_one margin isHorizontal g b -> encloses Indesign b p)
  /\ all_apart (divide_one margin isHorizontal g b).
Proof.
  intros Hm.
  assert (forall p q : Z * Z * Z * Z, tlbr_apart p q -> all_apart [p; q]) as Hpair.
  { intros p q Hpq i j x y Hne Hi Hj.
    destruct i as [| [| i]], j as [| [| j]]; cbn in Hi, Hj; try discriminate; try lia;
      injection Hi as <-; injection Hj as <-; [exact Hpq | apply tlbr_apart_sym, Hpq]. }
  destruct (divide_one_cases margin isHorizontal g b)
    as [-> | [(_ & Hg & ->) | (_ & Hg & ->)]].
  - split; [discriminate |]. split.
    + intros p Hp. apply list_elem_of_singleton in Hp. subst p. apply encloses_refl.
    + intros i j x y Hne Hi Hj. destruct i, j; cbn in Hi, Hj; try discriminate. lia.
  - split; [discriminate |]. destruct b as [[[b0 b1] b2] b3]. cbn in *. split.
    + intros p Hp. apply elem_of_cons in Hp as [-> | Hp];
        [| apply list_elem_of_singleton in Hp; subst p]; unfold encloses; cbn; lia.
    + apply Hpair. unfold tlbr_apart. cbn. lia.
  - split; [discriminate |]. destruct b as [[[b0 b1] b2] b3]. cbn in *. split.
    + intros p Hp. apply elem_of_cons in Hp as [-> | Hp];
        [| apply list_elem_of_singleton in Hp; subst p]; unfold encloses; cbn; lia.
    + apply Hpair. unfold tlbr_apart. cbn. lia.
Qed.

Lemma divide_one_area (isHorizontal : bool) (g : Z) (b : Z * Z * Z * Z) :
  total_tlbr_area (divide_one 0 isHorizontal g b) = tlbr_area b.
Proof.
  destruct (divide_one_cases 0 isHorizontal g b) as [-> | [(_ & _ & ->) | (_ & _ & ->)]];
    destruct b as [[[b0 b1] b2] b3]; unfold total_tlbr_area, tlbr_area; cbn; lia.
Qed.

Lemma total_tlbr_area_app (l k : list (Z * Z * Z * Z)) :
  total_tlbr_area (l ++ k) = total_tlbr_area l + total_tlbr_area k.
Proof.
  unfold total_tlbr_area. induction l as [| x l IH]; cbn; [reflexivity |].
  cbn in IH. rewrite IH. lia.
Qed.

(** One guide, over all the bounds. *)
Lemma divide_pass_ok (margin : Z) (isHorizontal : bool) (g : Z) (outer : Z * Z * Z * Z)
    (l : list (Z * Z * Z * Z)) :
  0 <= margin ->
  l <> [] /\ Forall (encloses Indesign outer) l /\ all_apart l ->
  let l' := l ≫= divide_one margin isHorizontal g in
  l' <> [] /\ Forall (encloses Indesign outer) l' /\ all_apart l'.
Proof.
  intros Hm (Hne & Hin & Hap). cbn zeta.
  split; [| split].
  - destruct l as [| b l]; [contradiction |]. cbn.
    destruct (divide_one_ok margin isHorizontal g b Hm) as (Hb & _).
    destruct (divide_one margin isHorizontal g b); [contradiction | discriminate].
  - apply Forall_forall. intros p Hp. apply list_elem_of_bind in Hp as (b & Hp & Hb).
    rewrite Forall_forall in Hin.
    eapply encloses_trans; [apply Hin, Hb |].
    apply (divide_one_ok margin isHorizontal g b Hm), Hp.
  - clear Hne Hin. induction l as [| b l IH]; [apply all_apart_nil |].
    apply all_apart_elem in Hap as [Hl Hb]. cbn.
    apply all_apart_app.
    + apply (divide_one_ok margin isHorizontal g b Hm).
    + apply IH, Hl.
    + intros p q Hp Hq. apply list_elem_of_bind in Hq as (c & Hq & Hc).
      eapply tlbr_apart_shrink; [| | apply Hb, Hc].
      * apply (divide_one_ok margin isHorizontal g b Hm), Hp.
      * apply (divide_one_ok margin isHorizontal g c Hm), Hq.
Qed.

Lemma divide_pass_area (isHorizontal : bool) (g : Z) (l : list (Z * Z * Z * Z)) :
  total_tlbr_area (l ≫= divide_one 0 isHorizontal g) = total_tlbr_area l.
Proof.
  induction l as [| b l IH]; [reflexivity |].
  change ((b :: l) ≫= divide_one 0 isHorizontal g)
    with (divide_one 0 isHorizontal g b ++ (l ≫= divide_one 0 isHorizontal g)).
  rewrite total_tlbr_area_app, IH, divide_one_area.
  unfold total_tlbr_area. reflexivity.
Qed.

Lemma divideByGuides_ok (margin : Z) (outer : Z * Z * Z * Z) (l : list (Z * Z * Z * Z))
    (gs : list Guide) (isHorizontal : bool) :
  0 <= margin ->
  l <> [] /\ Forall (encloses Indesign outer) l /\ all_apart l ->
  let l' := divideByGuides margin l gs isHorizontal in
  l' <> [] /\ Forall (encloses Indesign outer) l' /\ all_apart l'.
Proof.
  intros Hm Hl. cbn zeta. unfold divideByGuides.
  apply (foldl_invariant
           (fun l => l <> [] /\ Forall (encloses Indesign outer) l /\ all_apart l));
    [| exact Hl].
  intros l0 guide Hl0. apply divide_pass_ok; assumption.
Qed.

Lemma divideByGuides_area (l : list (Z * Z * Z * Z)) (gs : list Guide) (isHorizontal : bool) :
  total_tlbr_area (divideByGuides 0 l gs isHorizontal) = total_tlbr_area l.
Proof.
  unfold divideByGuides. revert l. induction gs as [| g gs IH]; intros l; [reflexivity |].
  cbn [foldl]. rewrite IH. apply divide_pass_area.
Qed.

Lemma divideBounds_ok (sort : (Guide -> Guide -> Z) -> list Guide -> list Guide)
    (bounds : Z * Z * Z * Z) (gs : list Guide) (margin : option Z) :
  0 <= default 0 margin ->
  let l := divideBounds sort bounds gs margin in
  l <> [] /\ Forall (encloses Indesign bounds) l /\ all_apart l.
Proof.
  intros Hm. cbn zeta. unfold divideBounds.
  apply divideByGuides_ok; [exact Hm |].
  apply divideByGuides_ok; [exact Hm |].
  split; [discriminate |]. split; [constructor; [apply encloses_refl | constructor] |].
  intros i j b c Hne Hi Hj. destruct i, j; cbn in Hi, Hj; try discriminate. lia.
Qed.

(** ** The best attempt *)

Lemma num_gtb_irrefl (a : num) : num_gtb a a = false.
Proof.
  destruct a as [q | | |]; cbn; try reflexivity.
  rewrite (proj1 (Qeq_alt q q) (Qeq_refl q)). reflexivity.
Qed.

Lemma num_gtb_trans (a b c : num) :
  num_gtb a b = true -> num_gtb b c = true -> num_gtb a c = true.
Proof.
  destruct a as [x | | |], b as [y | | |], c as [z | | |]; cbn; try congruence.
  destruct (Qcompare x y) eqn:Exy; try discriminate.
  destruct (Qcompare y z) eqn:Eyz; try discriminate.
  intros _ _. apply Qgt_alt in Exy, Eyz.
  assert (Qcompare x z = Gt) as -> by (apply Qgt_alt; eapply Qlt_trans; eassumption).
  reflexivity.
Qed.

(** No attempt of the list has a greater score than the best of them. *)
Lemma best_of_max (l : list Attempt.t) (b : Attempt.t) :
  best_of l = Some b ->
  forall x, x ∈ l -> num_gtb (Attempt.score x) (Attempt.score b) = false.
Proof.
  revert b. induction l as [| y l IH] using rev_ind; intros b; [discriminate |].
  rewrite best_of_snoc. unfold better.
  destruct (best_of l) as [b0 |] eqn:Eb.
  - specialize (IH b0 eq_refl).
    destruct (num_gtb (Attempt.score y) (Attempt.score b0)) eqn:Ey;
      intros E; injection E as <-; intros x Hx;
      apply elem_of_app in Hx as [Hx | Hx].
    + destruct (num_gtb (Attempt.score x) (Attempt.score y)) eqn:Ex; [| reflexivity].
      rewrite <- (IH x Hx). symmetry. eapply num_gtb_trans; eassumption.
    + apply list_elem_of_singleton in Hx. subst x. apply num_gtb_irrefl.
    + apply IH, Hx.
    + apply list_elem_of_singleton in Hx. subst x. exact Ey.
  - apply best_of_None in Eb. subst l.
    intros E; injection E as <-. intros x Hx.
    apply elem_of_app in Hx as [Hx | Hx]; [apply elem_of_nil in Hx; contradiction |].
    apply list_elem_of_singleton in Hx. subst x. apply num_gtb_irrefl.
Qed.

(** ** The label of an attempt *)

Lemma bins_loop_sortType (s : Settings) (tic : nat) (tia : Z) (bins : list Bin) (i : nat)
    (attempt : Attempt.t) :
  Attempt.sortType (bins_loop s tic tia i bins attempt) = Attempt.sortType attempt.
Proof.
  revert i attempt. induction bins as [| bin rest IH]; intros i attempt; [reflexivity |].
  cbn [bins_loop]. cbn zeta.
  destruct (Attempt.remainingBlocks (bins_body s tic tia i bin attempt)); [reflexivity |].
  rewrite IH. reflexivity.
Qed.

Lemma run_attempt_sortType (H : Host) (s : Settings) (rnd : bool) (bins : list Bin)
    (n : nat) (tia : Z) (a : nat) :
  Attempt.sortType (run_attempt H s rnd bins n tia a)
  = if s_doNotSort s then None else Some (sort_label rnd a).
Proof.
  unfold run_attempt. cbn [set_score Attempt.sortType].
  rewrite bins_loop_sortType. unfold attempt_sorted.
  destruct (s_doNotSort s); [reflexivity |].
  unfold sortBlocks, sort_label.
  destruct rnd; [reflexivity |].
  destruct a as [| [| [| [| [| a]]]]]; reflexivity.
Qed.

(** ** A run of [packItemsIndesign] *)

Lemma packItemsIndesign_run (H : Host)
    (sort : (Guide -> Guide -> Z) -> list Guide -> list Guide)
    (s : IndesignSettings) (rnd : bool) (pages : list Page) (n : nat) :
  let bins := snd <$> make_bins_indesign sort s pages in
  let run := packItemsIndesign H sort s rnd pages n in
  let m := budget (maxAttemptCount H (packing s) rnd n) in
  (forall k attempt, made run !! k = Some attempt ->
     attempt = run_attempt H (packing s) rnd bins n (total_area H (packing s) n) k)
  /\ outcome run
     = match best_of (made run) with
       | None => TypeError
       | Some best =>
           Done best (length (Attempt.packedBlocks best))
                (Z.of_nat n - Z.of_nat (length (Attempt.packedBlocks best)))
       end
  /\ (length (made run) <= m)%nat
  /\ (0 < m -> 0 < length (made run))%nat.
Proof.
  cbn zeta. unfold packItemsIndesign.
  set (bins := snd <$> make_bins_indesign sort s pages).
  set (m := budget (maxAttemptCount H (packing s) rnd n)).
  assert (loop_ok H (packing s) rnd bins n 0 (mkLoopState None 0 [])) as Hok0.
  { split; [reflexivity |]. split; [reflexivity |]. split; [reflexivity |].
    intros k attempt Hk. cbn in Hk. discriminate. }
  destruct (attempts_loop_spec H (packing s) rnd bins n m 0 _ Hok0)
    as (l & Hl & (_ & Hbest & _ & Hall) & Hle & Hpos & _).
  set (st := attempts_loop H (packing s) rnd bins n m 0 (mkLoopState None 0 [])) in *.
  cbn [attempts app] in Hl.
  assert (length (attempts st) = length l) as Hlen by (rewrite Hl; reflexivity).
  assert (made (match bestAttempt st with
                | Some best =>
                    mkRun (Done best (length (Attempt.packedBlocks best))
                             (Z.of_nat n - Z.of_nat (length (Attempt.packedBlocks best))))
                          (attempts st)
                | None => mkRun TypeError (attempts st)
                end) = attempts st) as Hmade by (destruct (bestAttempt st); reflexivity).
  rewrite Hmade.
  split; [exact Hall |]. split; [rewrite Hbest; destruct (best_of (attempts st)); reflexivity |].
  rewrite Hlen. split; [exact Hle | exact Hpos].
Qed.

(** ** The bins of [packItemsIndesign] *)

Lemma page_bins_ok (sort : (Guide -> Guide -> Z) -> list Guide -> list Guide)
    (s : IndesignSettings) (i : nat) (page : Page) :
  0 <= guidesMargin s ->
  let inner :=
    if usePageMargins s
    then (b4_0 (page_bounds page) + b4_0 (marginPreferences page),
          b4_1 (page_bounds page) + b4_1 (marginPreferences page),
          b4_2 (page_bounds page) - b4_2 (marginPreferences page),
          b4_3 (page_bounds page) - b4_3 (marginPreferences page))
    else (b4_0 (page_bounds page) + s_margin (packing s),
          b4_1 (page_bounds page) + s_margin (packing s),
          b4_2 (page_bounds page) - s_margin (packing s),
          b4_3 (page_bounds page) - s_margin (packing s)) in
  page_bins sort s i page <> []
  /\ Forall (fun pb => pb.1 = i
                       /\ encloses Indesign inner (bin_bounds pb.2)
                       /\ width pb.2
                          = b4_3 (bin_bounds pb.2) - b4_1 (bin_bounds pb.2)
                            + s_padding (packing s)
                       /\ height pb.2
                          = b4_2 (bin_bounds pb.2) - b4_0 (bin_bounds pb.2)
                            + s_padding (packing s))
            (page_bins sort s i page)
  /\ all_apart ((fun pb => bin_bounds pb.2) <$> page_bins sort s i page).
Proof.
  intros Hm. cbn zeta. unfold page_bins.
  set (inner := if usePageMargins s then _ else _).
  set (gs := if useGuidesToDivideBins s then guides page else []).
  destruct (divideBounds_ok sort inner gs (Some (guidesMargin s)) Hm) as (Hne & Hin & Hap).
  cbn zeta in Hne, Hin, Hap.
  set (l := divideBounds sort inner gs (Some (guidesMargin s))) in *.
  split; [destruct l; [contradiction | discriminate] |]. split.
  - apply Forall_fmap. eapply Forall_impl; [exact Hin |]. intros bb Hbb. cbn.
    repeat split; try reflexivity; apply Hbb.
  - rewrite <- list_fmap_compose.
    assert (forall (k : list (Z * Z * Z * Z)) f, (forall x, f x = x) -> f <$> k = k) as Hid.
    { intros k f Hf. induction k as [| x k IH]; [reflexivity |]. cbn. rewrite Hf. f_equal. exact IH. }
    rewrite Hid; [exact Hap |]. intros bb. reflexivity.
Qed.

Lemma make_bins_indesign_elem (sort : (Guide -> Guide -> Z) -> list Guide -> list Guide)
    (s : IndesignSettings) (pages : list Page) (pb : nat * Bin) :
  pb ∈ make_bins_indesign sort s pages
  <-> exists i page, pages !! i = Some page /\ pb ∈ page_bins sort s i page.
Proof.
  unfold make_bins_indesign. rewrite list_elem_of_join. split.
  - intros (l & Hpb & Hl). apply elem_of_lookup_imap in Hl as (i & page & -> & Hi).
    exists i, page. auto.
  - intros (i & page & Hi & Hpb). exists (page_bins sort s i page).
    split; [exact Hpb |]. apply elem_of_lookup_imap. exists i, page. auto.
Qed.

(** ** The blocks of an attempt and the items *)

Lemma make_blocks_elem (H : Host) (s : Settings) (a n : nat) (b : Block) :
  b ∈ make_blocks H s a n ->
  exists j, (j < n)%nat
    /\ b = Block_new (app H) (s_padding s) (s_margin s) (s_forceRotate s) (item_at H a j) j.
Proof.
  unfold make_blocks. intros Hb. apply list_elem_of_fmap in Hb as (j & -> & Hj).
  exists j. split; [| reflexivity]. apply elem_of_seq in Hj. lia.
Qed.

Lemma make_blocks_index (H : Host) (s : Settings) (a n : nat) :
  index <$> make_blocks H s a n = seq 0 n.
Proof.
  unfold make_blocks. rewrite <- list_fmap_compose.
  generalize (seq 0 n). intros l. induction l as [| j l IH]; [reflexivity |].
  cbn [fmap list_fmap]. f_equal; [| exact IH].
  cbn. apply (Block_new_fields (app H) (s_padding s) (s_margin s) (s_forceRotate s)
                               (item_at H a j) j).
Qed.

Lemma make_blocks_sized (H : Host) (s : Settings) (a n : nat) :
  Forall (fun b => 0 < w b /\ 0 < h b) (make_blocks H s a n) ->
  Forall sized (make_blocks H s a n).
Proof.
  intros Hpos. apply Forall_forall. intros b Hb.
  rewrite Forall_forall in Hpos. destruct (Hpos b Hb) as [Hw Hh].
  apply make_blocks_elem in Hb as (j & _ & ->).
  split; [apply Block_new_wf | split; assumption].
Qed.

(** A block of an attempt, packed or remaining, is what is left of the
    block built for its item at the start of the attempt. *)
Lemma run_attempt_kept (H : Host) (s : Settings) (rnd : bool) (bins : list Bin)
    (n : nat) (tia : Z) (a : nat) (b' : Block) :
  host_ok H ->
  let attempt := run_attempt H s rnd bins n tia a in
  b' ∈ Attempt.packedBlocks attempt ++ Attempt.remainingBlocks attempt ->
  (index b' < n)%nat
  /\ kept (s_allow90DegreeRotation s)
          (Block_new (app H) (s_padding s) (s_margin s) (s_forceRotate s)
                     (item_at H a (index b')) (index b'))
          b'.
Proof.
  intros Hok attempt Hb'.
  destruct (run_attempt_inv H s rnd bins n tia a Hok) as (_ & _ & _ & Hkept & _).
  rewrite Forall_forall in Hkept. destruct (Hkept b' Hb') as (b & Hb & Hk).
  apply make_blocks_elem in Hb as (j & Hj & ->).
  assert (index b' = j) as ->.
  { destruct Hk as ((Ei & _) & _). rewrite Ei.
    apply (Block_new_fields (app H) (s_padding s) (s_margin s) (s_forceRotate s)
                            (item_at H a j) j). }
  split; [exact Hj | exact Hk].
Qed.

(** ** Interleaving, position by position *)

Lemma interleave_lookup (l s : list Block) (k : nat) :
  (length s <= length l <= S (length s))%nat ->
  interleave l s !! (2 * k)%nat = l !! k
  /\ interleave l s !! (2 * k + 1)%nat = s !! k.
Proof.
  revert s k. induction l as [| x l IH]; intros s k Hlen.
  { destruct s; [| cbn in Hlen; lia]. split; reflexivity. }
  destruct s as [| y s].
  - destruct l; [| cbn in Hlen; lia]. cbn [interleave].
    destruct k as [| k]; [split; reflexivity |].
    replace (2 * S k)%nat with (S (S (2 * k))) by lia.
    replace (S (S (2 * k)) + 1)%nat with (S (S (2 * k + 1))) by lia.
    split; reflexivity.
  - cbn [interleave]. destruct k as [| k]; [split; reflexivity |].
    replace (2 * S k)%nat with (S (S (2 * k))) by lia.
    replace (S (S (2 * k)) + 1)%nat with (S (S (2 * k + 1))) by lia.
    cbn [lookup list_lookup]. apply IH. cbn in Hlen. lia.
Qed.

Lemma div2_half (n : nat) :
  (n - Nat.div2 (S n) <= Nat.div2 (S n) <= S (n - Nat.div2 (S n)))%nat.
Proof.
  destruct (Nat.Even_or_Odd n) as [[m ->] | [m ->]].
  - replace (S (2 * m)) with (S (2 * m)) by lia.
    rewrite Nat.div2_succ_double. lia.
  - replace (S (2 * m + 1)) with (2 * (S m))%nat by lia.
    rewrite Nat.div2_double. lia.
Qed.

(** ** The concrete sort *)

Lemma insert_by_perm {A : Type} (cmp : A -> A -> Z) (x : A) (l : list A) :
  insert_by cmp x l ≡ₚ x :: l.
Proof.
  induction l as [| y l IH]; [reflexivity |]. cbn.
  destruct (0 <? cmp x y); [| reflexivity].
  rewrite IH. apply Permutation_swap.
Qed.

Lemma sort_by_perm {A : Type} (cmp : A -> A -> Z) (l : list A) : sort_by cmp l ≡ₚ l.
Proof.
  unfold sort_by. induction l as [| x l IH]; [reflexivity |]. cbn.
  rewrite insert_by_perm, IH. reflexivity.
Qed.

Lemma indesign_host_ok (sizes : list (Z * Z)) : host_ok (indesign_host sizes).
Proof. intros cmp l. apply insertion_sort_perm. Qed.

(** ** The score and the division by zero *)

Lemma Qcompare_inject_Z_0 (z : Z) : Qcompare (inject_Z z) 0%Q = Z.compare z 0.
Proof. unfold Qcompare. cbn. rewrite Z.mul_1_r. reflexivity. Qed.

Lemma num_div_by_zero (z : Z) : 0 < z -> num_div (num_of_Z z) (num_of_Z 0) = PosInf.
Proof.
  intros Hz. unfold num_div, num_of_Z.
  rewrite (Qcompare_inject_Z_0 0), (Qcompare_inject_Z_0 z). cbn.
  apply Z.compare_gt_iff in Hz. rewrite Hz. reflexivity.
Qed.

Lemma num_div_finite (x y : Z) : y <> 0 -> exists q, num_div (num_of_Z x) (num_of_Z y) = Num q.
Proof.
  intros Hy. unfold num_div, num_of_Z. rewrite (Qcompare_inject_Z_0 y).
  destruct (Z.compare_spec y 0) as [E | _ | _]; [contradiction | eexists; reflexivity ..].
Qed.

Lemma sum_area_pos (l : list Block) :
  Forall (fun b => 0 < w b /\ 0 < h b) l -> l <> [] -> 0 < sum_area l.
Proof.
  intros Hall Hne.
  assert (0 <= sum_area l /\ (l <> [] -> 0 < sum_area l)) as [_ H]; [| exact (H Hne)].
  clear Hne. induction Hall as [| b l [Hw Hh] _ IH].
  - split; [unfold sum_area; cbn; lia | intros E; contradiction].
  - change (b :: l) with ([b] ++ l). rewrite sum_area_app.
    assert (sum_area [b] = w b * h b) as -> by (unfold sum_area; cbn; lia).
    destruct IH as [IH _]. split; [nia | intros _; nia].
Qed.

(** One pass of the bins loop, for blocks and a bin of positive width and
    height. *)
Lemma bins_body_score (s : Settings) (tic : nat) (tia : Z) (blocks0 : list Block)
    (done : list Bin) (bin : Bin) (attempt : Attempt.t) :
  (0 < tic)%nat -> 0 < tia ->
  Forall sized blocks0 -> 0 < width bin -> 0 < height bin ->
  attempt_inv (s_allow90DegreeRotation s) blocks0 done attempt ->
  score_state done attempt ->
  score_state (done ++ [bin]) (bins_body s tic tia (length done) bin attempt).
Proof.
  intros Htic Htia Hsz HW HH (Hpk & Hrm & Hkept & _) Hst.
  set (p := Packer_new (width bin) (height bin) (s_allow90DegreeRotation s)).
  set (r := fit p (Attempt.remainingBlocks attempt) (length done)).
  destruct (fit_result p (Attempt.remainingBlocks attempt) (length done))
    as (Ra & Rpk & _ & Rkept).
  destruct (fit_lists p (Attempt.remainingBlocks attempt) (length done)) as (_ & _ & Rcount).
  cbn zeta in Ra, Rpk, Rkept, Rcount. fold r in Ra, Rpk, Rkept, Rcount.
  (* the blocks packed in this pass have positive width and height *)
  assert (Forall (fun b => 0 < w b /\ 0 < h b) (Result.packedBlocks r)) as Hpos.
  { apply Forall_app in Rkept as [Rk _]. eapply Forall_impl; [exact Rk |].
    intros b' (b & Hb & Hk & _).
    apply Forall_app in Hkept as [_ Hk2]. rewrite Forall_forall in Hk2.
    destruct (Hk2 b Hb) as (b0 & Hb0 & Hk0). rewrite Forall_forall in Hsz.
    apply (kept_sized _ b b' Hk), (kept_sized _ b0 b Hk0), Hsz, Hb0. }
  (* the bins of the blocks after the pass *)
  assert (forall i, (i < length done)%nat ->
            in_bin i (Attempt.packedBlocks attempt ++ Result.packedBlocks r)
            = in_bin i (Attempt.packedBlocks attempt)) as Hold.
  { intros i Hi. rewrite in_bin_app.
    assert (in_bin i (Result.packedBlocks r) = []) as ->.
    { apply in_bin_none. eapply Forall_impl; [exact Rpk |].
      intros b [_ E] E'. rewrite E in E'. injection E' as E'. lia. }
    apply app_nil_r. }
  assert (in_bin (length done) (Attempt.packedBlocks attempt ++ Result.packedBlocks r)
          = Result.packedBlocks r) as Hnew.
  { rewrite in_bin_app.
    assert (in_bin (length done) (Attempt.packedBlocks attempt) = []) as ->.
    { apply in_bin_none. eapply Forall_impl; [exact Hpk |].
      intros b (_ & _ & j & Hj & Ej) E. rewrite Ej in E. injection E as E. lia. }
    apply in_bin_all. eapply Forall_impl; [exact Rpk |]. intros b [_ E]. exact E. }
  (* what the pass adds to the score *)
  set (term := num_mul (num_div (num_of_Z (width bin * height bin))
                                (num_of_Z (Result.area r)))
                       (if preferCount s
                        then num_div (num_of_nat tic) (num_of_nat (Result.count r))
                        else num_div (num_of_Z tia) (num_of_Z (Result.area r)))).
  assert ((Result.packedBlocks r = [] /\ term = PosInf)
          \/ (Result.packedBlocks r <> [] /\ exists q, term = Num q)) as Hterm.
  { destruct (Result.packedBlocks r) as [| b0 l] eqn:El.
    - left. split; [reflexivity |]. subst term. rewrite Ra, Rcount.
      change (sum_area []) with 0. change (num_of_nat (length (@nil Block))) with (num_of_Z 0).
      change (num_of_nat tic) with (num_of_Z (Z.of_nat tic)).
      rewrite !num_div_by_zero by nia. destruct (preferCount s); reflexivity.
    - right. split; [discriminate |]. subst term. rewrite Ra, Rcount.
      change (num_of_nat tic) with (num_of_Z (Z.of_nat tic)).
      change (num_of_nat (length (b0 :: l))) with (num_of_Z (Z.of_nat (length (b0 :: l)))).
      pose proof (sum_area_pos (b0 :: l) Hpos ltac:(discriminate)) as Hap.
      destruct (num_div_finite (width bin * height bin) (sum_area (b0 :: l)) ltac:(lia))
        as [q1 ->].
      destruct (num_div_finite (Z.of_nat tic) (Z.of_nat (length (b0 :: l)))
                  ltac:(cbn [length]; lia)) as [q2 ->].
      destruct (num_div_finite tia (sum_area (b0 :: l)) ltac:(lia)) as [q3 ->].
      destruct (preferCount s); eexists; reflexivity. }
  unfold score_state, bins_body. fold p. fold r. fold term.
  cbn [Attempt.packedBlocks Attempt.score].
  rewrite length_app. cbn [length].
  destruct Hst as [[(i & Hi & Ei) Es] | [Hall (q & Es)]].
  - left. split.
    + exists i. split; [lia |]. rewrite Hold by exact Hi. exact Ei.
    + rewrite Es. destruct Hterm as [[_ ->] | [_ [q ->]]]; reflexivity.
  - destruct Hterm as [[Ee Et] | [Hne [q' Et]]].
    + left. split.
      * exists (length done). split; [lia |]. rewrite Hnew. exact Ee.
      * rewrite Es, Et. reflexivity.
    + right. split.
      * intros i Hi. destruct (decide (i = length done)) as [-> | Hne'].
        -- rewrite Hnew. exact Hne.
        -- rewrite Hold by lia. apply Hall. lia.
      * rewrite Es, Et. eexists. reflexivity.
Qed.

Lemma run_attempt_score_state (H : Host) (s : Settings) (rnd : bool) (bins : list Bin)
    (n : nat) (tia : Z) (a : nat) :
  host_ok H -> (0 < n)%nat -> 0 < tia ->
  Forall sized (make_blocks H s a n) ->
  Forall (fun bin => 0 < width bin /\ 0 < height bin) bins ->
  let attempt := run_attempt H s rnd bins n tia a in
  (has_empty_bin attempt -> Attempt.score attempt = PosInf)
  /\ (~ has_empty_bin attempt -> exists q, Attempt.score attempt = Num q).
Proof.
  intros Hok Hn Htia Hsz Hbins. cbn zeta.
  destruct (attempt_sorted_start H s rnd bins n a Hok) as (Hperm & Hp & Ha & Hi & Hb).
  cbn zeta in Hperm, Hp, Ha, Hi, Hb.
  destruct (attempt_sorted_frame H s rnd bins n a) as (_ & Hs0 & _).
  set (att0 := attempt_sorted H s rnd bins n a) in *.
  assert (Forall sized (Attempt.remainingBlocks att0)) as Hsz0 by (rewrite Hperm; exact Hsz).
  pose (Inv := fun (done : list Bin) (att : Attempt.t) =>
                 Forall (fun bin => 0 < width bin /\ 0 < height bin) done ->
                 attempt_inv (s_allow90DegreeRotation s) (Attempt.remainingBlocks att0) done att
                 /\ score_state done att).
  destruct (bins_loop_invariant Inv s n tia bins [] att0) as (k & Hk & Hpos & Hinv).
  - intros done' bin att Hprev Hpositive.
    apply Forall_app in Hpositive as [Hd Hbin].
    apply Forall_cons in Hbin as [[HW HH] _].
    destruct (Hprev Hd) as [Hinv Hst].
    split; [apply bins_body_inv, Hinv |].
    apply (bins_body_score s n tia (Attempt.remainingBlocks att0)); assumption.
  - intros _. split.
    + unfold attempt_inv. rewrite Hp, Ha, Hi. cbn [app length].
      split; [constructor |]. split; [apply attempt_sorted_unpacked, Hok |]. split.
      { apply Forall_forall. intros b Hb'. exists b. split; [exact Hb' | apply kept_refl]. }
      split; [reflexivity |]. split; [reflexivity |]. split; [reflexivity |].
      intros E. contradiction.
    + right. split; [intros i Hi'; cbn in Hi'; lia |]. exists 0%Q. exact Hs0.
  - change (length (@nil Bin)) with O in Hinv. rewrite app_nil_l in Hinv.
    destruct (Hinv (Forall_take _ _ _ Hbins)) as [Hai Hst].
    set (att1 := bins_loop s n tia 0 bins att0) in *.
    assert (length (take k bins) = k) as Hlk by (apply length_take_le; exact Hk).
    assert (Attempt.binCount att1 = k) as Ek.
    { destruct bins as [| bin0 bins'].
      - cbn in Hk. subst att1. cbn. rewrite Hb. cbn. lia.
      - specialize (Hpos ltac:(discriminate)).
        destruct Hai as (_ & _ & _ & _ & _ & _ & Hc).
        rewrite Hc; [exact Hlk |]. destruct k; [lia | discriminate]. }
    unfold score_state in Hst. rewrite Hlk in Hst.
    unfold run_attempt, has_empty_bin. fold att0. fold att1.
    cbn [set_score Attempt.score Attempt.binCount Attempt.packedBlocks].
    rewrite Ek.
    destruct Hst as [[Hex Es] | [Hall (q & Es)]].
    + split; [| intros Hn'; contradiction].
      intros _. rewrite Es. reflexivity.
    + split.
      * intros (i & Hi' & Ei). exfalso. exact (Hall i Hi' Ei).
      * intros _. rewrite Es. eexists. reflexivity.
Qed.

(** ** The bins loop stops only when nothing remains *)

Lemma bins_loop_all_tried (s : Settings) (tic : nat) (tia : Z) (bins : list Bin) (i : nat)
    (attempt : Attempt.t) :
  bins <> [] ->
  Attempt.remainingBlocks (bins_loop s tic tia i bins attempt) <> [] ->
  Attempt.binCount (bins_loop s tic tia i bins attempt) = (i + length bins)%nat.
Proof.
  revert i attempt. induction bins as [| bin rest IH]; intros i attempt Hne; [contradiction |].
  cbn [bins_loop]. cbn zeta.
  destruct (Attempt.remainingBlocks (bins_body s tic tia i bin attempt)) as [| b0 l] eqn:E.
  { rewrite E. intros Hc. contradiction. }
  destruct rest as [| bin' rest'].
  - cbn [bins_loop length]. intros _. unfold bins_body. cbn. lia.
  - intros Hr. rewrite IH; [cbn [length]; lia | discriminate | exact Hr].
Qed.

(** * Further properties: the packer *)

(** X1. [intersect] does not depend on the order of its arguments; when it
    returns a rectangle, both arguments contain it ([chunkContains]) and it
    contains every rectangle that both contain; when it returns [null], no
    rectangle with [x0 <= x1] and [y0 <= y1] is contained in both. *)
Theorem intersect_largest_common (a b : HeapBlock.t) :
  intersect a b = intersect b a
  /\ (forall r, intersect a b = Some r ->
        chunkContains a r = true /\ chunkContains b r = true
        /\ forall c, chunkContains a c = true -> chunkContains b c = true ->
                     chunkContains r c = true)
  /\ (intersect a b = None ->
      forall c, HeapBlock.x0 c <= HeapBlock.x1 c -> HeapBlock.y0 c <= HeapBlock.y1 c ->
                ~ (chunkContains a c = true /\ chunkContains b c = true)).
Proof.
  split; [| split].
  - unfold intersect.
    rewrite (Z.max_comm (HeapBlock.x0 a)), (Z.max_comm (HeapBlock.y0 a)),
      (Z.min_comm (HeapBlock.x1 a)), (Z.min_comm (HeapBlock.y1 a)). reflexivity.
  - intros r Hr. apply intersect_Some in Hr as (Hx & Hy & ->).
    rewrite !chunkContains_spec. cbn. split; [lia |]. split; [lia |].
    intros c. rewrite !chunkContains_spec. cbn. lia.
  - intros Hn c Hcx Hcy [Ha Hb]. apply chunkContains_spec in Ha, Hb.
    unfold intersect in Hn.
    destruct (_ && _) eqn:E; [discriminate |]. bools. destruct E; bools; lia.
Qed.

(** X2. [unionMax] on two heap entries that are not [null] sets neither of
    them to [null]: each entry is replaced by a rectangle that contains it,
    and the two new rectangles together cover exactly the points the two old
    ones covered.  With a [null] entry it changes nothing. *)
Theorem unionMax_keeps_points (h0 h1 : HeapBlock.t) (e : option HeapBlock.t) :
  (exists a b,
     unionMax (Some h0) (Some h1) = (Some a, Some b)
     /\ chunkContains a h0 = true /\ chunkContains b h1 = true
     /\ forall x y, covers a x y \/ covers b x y <-> covers h0 x y \/ covers h1 x y)
  /\ unionMax None e = (None, e)
  /\ unionMax e None = (e, None).
Proof.
  split; [| split; [reflexivity | destruct e; reflexivity]].
  destruct (unionMax_Some h0 h1) as (a & b & E & Ha & Hb & Hpts).
  exists a, b. split; [exact E |]. split; [exact Ha |]. split; [exact Hb |].
  intros x y. split; [apply Hpts |].
  intros [H | H]; [left | right]; eapply chunkContains_covers; eassumption.
Qed.

(** X3. [unionAll] loses no free space and invents none: every region of
    the heap it is given lies in a region of the heap it leaves, and every
    point of a region it leaves is a point of a region it was given. *)
Theorem unionAll_keeps_free_space (heap : list (option HeapBlock.t)) :
  (forall r, Some r ∈ heap -> exists r', r' ∈ unionAll heap /\ chunkContains r' r = true)
  /\ (forall r' x y, r' ∈ unionAll heap -> covers r' x y ->
        exists r, Some r ∈ heap /\ covers r x y).
Proof.
  split.
  - intros r Hr. apply unionAll_holds. exists r. split; [exact Hr | apply chunkContains_refl].
  - intros r' x y. apply unionAll_points.
Qed.

(** X4. [adjustHeap] after a block of positive width and height has been
    placed: every rectangle of positive width and height that lay in a
    region of the heap and shares no area with the block lies in a region of
    the new heap, and every point of a new region is a point of an old
    one. *)
Theorem adjustHeap_keeps_free_space (heap : list HeapBlock.t) (block : Block)
    (blk : HeapBlock.t) :
  block_corners block = Some blk -> positive blk ->
  (forall r, positive r -> apart r blk ->
     (exists hb, hb ∈ heap /\ chunkContains hb r = true) ->
     exists hb', hb' ∈ adjustHeap heap block /\ chunkContains hb' r = true)
  /\ (forall r x y, r ∈ adjustHeap heap block -> covers r x y ->
        exists hb, hb ∈ heap /\ covers hb x y).
Proof.
  intros Hc Hb. split.
  - intros r Hr Hap Hin. eapply adjustHeap_holds; eassumption.
  - intros r x y. apply adjustHeap_points.
Qed.

Lemma adjustHeap_keeps_free_space_witness :
  let block := place_at (HeapBlock.mk 0 0 100 100) (plain_block 0 60 40) in
  let blk := HeapBlock.mk 0 0 60 40 in
  block_corners block = Some blk /\ positive blk
  /\ (forall r, positive r -> apart r blk ->
        (exists hb, hb ∈ [HeapBlock.mk 0 0 100 100] /\ chunkContains hb r = true) ->
        exists hb', hb' ∈ adjustHeap [HeapBlock.mk 0 0 100 100] block
                    /\ chunkContains hb' r = true).
Proof.
  cbn zeta.
  assert (block_corners (place_at (HeapBlock.mk 0 0 100 100) (plain_block 0 60 40))
          = Some (HeapBlock.mk 0 0 60 40)) as Hc by reflexivity.
  assert (positive (HeapBlock.mk 0 0 60 40)) as Hp by (unfold positive; cbn; lia).
  split; [exact Hc |]. split; [exact Hp |].
  apply (adjustHeap_keeps_free_space [HeapBlock.mk 0 0 100 100] _ _ Hc Hp).
Defined.

(** X6. What [fit] reports: the returned [area] is the sum of [w * h] over
    [packedBlocks]; every block of [packedBlocks] is marked packed and
    carries the bin index of the call; no block of [remainingBlocks] is
    marked packed. *)
Theorem fit_reports (p : Packer) (blocks : list Block) (binIdx : nat) :
  let r := fit p blocks binIdx in
  Result.area r = sum_area (Result.packedBlocks r)
  /\ Forall (fun b => packed b = true /\ binIndex b = Some binIdx) (Result.packedBlocks r)
  /\ Forall (fun b => packed b = false) (Result.remainingBlocks r).
Proof.
  cbn zeta. destruct (fit_result p blocks binIdx) as (H1 & H2 & H3 & _).
  split; [exact H1 |]. split; [exact H2 | exact H3].
Qed.

(** X7. What [fit] does to a block: every block it returns, packed or
    remaining, is a block [b] of its input of which it has kept [index],
    [padding], [margin] and the two dimension sets; if [b] was consistent
    ([block_wf]) the returned block is; when rotation is not allowed, its
    orientation, width, height and offsets are those of [b]; and a block
    that it marked packed has the corners [x1 = x0 + w], [y1 = y0 + h]. *)
Theorem fit_keeps_blocks (p : Packer) (blocks : list Block) (binIdx : nat) :
  let r := fit p blocks binIdx in
  Forall (fun b' =>
            exists b, b ∈ blocks
              /\ same_item b b'
              /\ (block_wf b -> block_wf b')
              /\ (allow90DegreeRotation p = false -> same_orientation b b')
              /\ (packed b = false -> packed b' = true ->
                  block_corners b' = placement b'))
         (Result.packedBlocks r ++ Result.remainingBlocks r).
Proof.
  cbn zeta. destruct (fit_result p blocks binIdx) as (_ & _ & _ & H).
  eapply Forall_impl; [exact H |]. intros b' (b & Hb & (H1 & H2 & H3) & H4).
  exists b. split; [exact Hb |]. split; [exact H1 |]. split; [exact H2 |].
  split; [exact H3 | exact H4].
Qed.

(** * Further properties: the attempts of a run *)

(** X9. Every attempt of a run accounts for each item exactly once, the
    host's sort only reordering: the [index] fields of its packed and its
    remaining blocks together are the item indices [0 .. n - 1], each
    once. *)
Theorem run_accounts_for_items (H : Host) (s : Settings) (rnd : bool)
    (artboards : list (Z * Z * Z * Z)) (n : nat) :
  host_ok H ->
  Forall (fun attempt =>
            index <$> (Attempt.packedBlocks attempt ++ Attempt.remainingBlocks attempt)
            ≡ₚ seq 0 n)
         (made (packItemsIllustrator H s rnd artboards n)).
Proof.
  intros Hok.
  destruct (packItems_run H s rnd artboards n) as (Hall & _). cbn zeta in Hall.
  apply Forall_lookup. intros k attempt Hk. rewrite (Hall _ _ Hk).
  destruct (run_attempt_inv H s rnd (make_bins (s_margin s) (s_padding s) artboards) n
              (total_area H s n) k Hok) as (_ & _ & _ & _ & _ & Hperm & _).
  rewrite Hperm. rewrite make_blocks_index. reflexivity.
Qed.

Lemma run_accounts_for_items_witness :
  host_ok (test_host wide_sizes)
  /\ Forall (fun attempt =>
               index <$> (Attempt.packedBlocks attempt ++ Attempt.remainingBlocks attempt)
               ≡ₚ seq 0 2)
            (made (packItemsIllustrator (test_host wide_sizes)
                     (test_settings false None None false false) false one_artboard 2)).
Proof.
  split; [apply test_host_ok |].
  apply (run_accounts_for_items (test_host wide_sizes)
           (test_settings false None None false false) false one_artboard 2
           (test_host_ok wide_sizes)).
Defined.

(** X10. What an attempt of a run reports, the host's sort only
    reordering.  It processes the first [binCount] bins and no more than
    there are; its [area] is the sum of [w * h] over its packed blocks; its
    [info] has one line per processed bin, in bin order, and the line for
    bin number [k] (from 1) gives the number of packed blocks whose
    [binIndex] is [k - 1]; every packed block is marked packed and carries
    the index of a processed bin, and no remaining block is marked
    packed. *)
Theorem run_reports (H : Host) (s : Settings) (rnd : bool)
    (artboards : list (Z * Z * Z * Z)) (n : nat) :
  host_ok H ->
  Forall (fun attempt =>
            (Attempt.binCount attempt <= length artboards)%nat
            /\ Attempt.area attempt = sum_area (Attempt.packedBlocks attempt)
            /\ Attempt.info attempt
               = info_lines (Attempt.binCount attempt) (Attempt.packedBlocks attempt)
            /\ Forall (fun b => packed b = true
                                /\ exists j, (j < Attempt.binCount attempt)%nat
                                             /\ binIndex b = Some j)
                      (Attempt.packedBlocks attempt)
            /\ Forall (fun b => packed b = false) (Attempt.remainingBlocks attempt))
         (made (packItemsIllustrator H s rnd artboards n)).
Proof.
  intros Hok.
  destruct (packItems_run H s rnd artboards n) as (Hall & _). cbn zeta in Hall.
  apply Forall_lookup. intros k attempt Hk. rewrite (Hall _ _ Hk).
  set (bins := make_bins (s_margin s) (s_padding s) artboards).
  destruct (run_attempt_inv H s rnd bins n (total_area H s n) k Hok)
    as (Hle & Hpk & Hrm & _ & Harea & _ & Hinfo & _).
  set (attempt' := run_attempt H s rnd bins n (total_area H s n) k) in *.
  assert (length bins = length artboards) as Hlb
    by (unfold bins, make_bins; apply length_fmap).
  assert (length (take (Attempt.binCount attempt') bins) = Attempt.binCount attempt') as Hlt
    by (apply length_take_le; exact Hle).
  rewrite Hlt in Hpk, Hinfo.
  split; [lia |]. split; [exact Harea |]. split; [exact Hinfo |]. split; [| exact Hrm].
  eapply Forall_impl; [exact Hpk |]. intros b (H1 & _ & H3). split; assumption.
Qed.

Lemma run_reports_witness :
  host_ok (test_host wide_sizes)
  /\ Forall (fun attempt =>
               (Attempt.binCount attempt <= length one_artboard)%nat
               /\ Attempt.area attempt = sum_area (Attempt.packedBlocks attempt)
               /\ Attempt.info attempt
                  = info_lines (Attempt.binCount attempt) (Attempt.packedBlocks attempt)
               /\ Forall (fun b => packed b = true
                                   /\ exists j, (j < Attempt.binCount attempt)%nat
                                                /\ binIndex b = Some j)
                         (Attempt.packedBlocks attempt)
               /\ Forall (fun b => packed b = false) (Attempt.remainingBlocks attempt))
            (made (packItemsIllustrator (test_host wide_sizes)
                     (test_settings false None None false false) false one_artboard 2)).
Proof.
  split; [apply test_host_ok |].
  apply (run_reports (test_host wide_sizes)
           (test_settings false None None false false) false one_artboard 2
           (test_host_ok wide_sizes)).
Defined.

(** X11. The blocks of an attempt still describe their items, the host's
    sort only reordering.  A block of attempt [a], packed or remaining, with
    [index] [j] has the [padding], the [margin] and the two dimension sets
    that [new Block] computed from item [j] in that attempt, and is
    consistent ([block_wf]); when rotation is not allowed it is turned as the
    constructor left it. *)
Theorem run_blocks_describe_items (H : Host) (s : Settings) (rnd : bool)
    (artboards : list (Z * Z * Z * Z)) (n : nat) :
  host_ok H ->
  Forall (fun attempt =>
            Forall (fun b' =>
                      let b := Block_new (app H) (s_padding s) (s_margin s)
                                 (s_forceRotate s)
                                 (item_at H (Attempt.index attempt) (index b')) (index b') in
                      (index b' < n)%nat
                      /\ same_item b b' /\ block_wf b'
                      /\ (s_allow90DegreeRotation s = false -> same_orientation b b'))
                   (Attempt.packedBlocks attempt ++ Attempt.remainingBlocks attempt))
         (made (packItemsIllustrator H s rnd artboards n)).
Proof.
  intros Hok.
  destruct (packItems_run H s rnd artboards n) as (Hall & _). cbn zeta in Hall.
  apply Forall_lookup. intros k attempt Hk. rewrite (Hall _ _ Hk).
  rewrite run_attempt_index.
  apply Forall_forall. intros b' Hb'.
  destruct (run_attempt_kept H s rnd _ n (total_area H s n) k b' Hok Hb')
    as (Hj & Hs & Hwf & Ho).
  split; [exact Hj |]. split; [exact Hs |]. split; [apply Hwf, Block_new_wf | exact Ho].
Qed.

Lemma run_blocks_describe_items_witness :
  let H := test_host wide_sizes in
  let s := test_settings false None None false false in
  host_ok H
  /\ Forall (fun attempt =>
               Forall (fun b' =>
                         let b := Block_new (app H) (s_padding s) (s_margin s)
                                    (s_forceRotate s)
                                    (item_at H (Attempt.index attempt) (index b'))
                                    (index b') in
                         (index b' < 2)%nat
                         /\ same_item b b' /\ block_wf b'
                         /\ (s_allow90DegreeRotation s = false -> same_orientation b b'))
                      (Attempt.packedBlocks attempt ++ Attempt.remainingBlocks attempt))
            (made (packItemsIllustrator H s false one_artboard 2)).
Proof.
  cbn zeta. split; [apply test_host_ok |].
  apply (run_blocks_describe_items (test_host wide_sizes)
           (test_settings false None None false false) false one_artboard 2
           (test_host_ok wide_sizes)).
Defined.

(** X13. The run ends on an attempt that none of its attempts beats: when
    [packItemsIllustrator] ends on the attempt [best], [best] is one of the
    attempts it made and no attempt it made has a score greater than that of
    [best]. *)
Theorem best_is_not_beaten (H : Host) (s : Settings) (rnd : bool)
    (artboards : list (Z * Z * Z * Z)) (n : nat)
    (best : Attempt.t) (packedCount : nat) (remainingCount : Z) :
  let run := packItemsIllustrator H s rnd artboards n in
  outcome run = Done best packedCount remainingCount ->
  best ∈ made run
  /\ forall attempt, attempt ∈ made run ->
       num_gtb (Attempt.score attempt) (Attempt.score best) = false.
Proof.
  cbn zeta. intros Hd.
  destruct (packItems_run H s rnd artboards n) as (_ & Hout & _). cbn zeta in Hout.
  rewrite Hd in Hout.
  destruct (best_of (made (packItemsIllustrator H s rnd artboards n))) as [b |] eqn:Eb;
    [| discriminate].
  injection Hout as -> _ _.
  split; [apply best_of_elem, Eb | apply best_of_max, Eb].
Qed.

Lemma best_is_not_beaten_witness :
  let run := packItemsIllustrator (test_host two_sizes)
               (test_settings false None None false false) false one_artboard 2 in
  exists best,
    outcome run = Done best 2 0
    /\ best ∈ made run
    /\ forall attempt, attempt ∈ made run ->
         num_gtb (Attempt.score attempt) (Attempt.score best) = false.
Proof.
  cbn zeta. eexists. split; [vm_compute; reflexivity |].
  eapply (best_is_not_beaten (test_host two_sizes)
            (test_settings false None None false false) false one_artboard 2).
  vm_compute. reflexivity.
Defined.

(** X14. The run fails exactly when it makes no attempt, which is exactly
    when the attempt budget is empty: [maxAttemptCount] is [-Infinity] (no
    items and no budget given), zero or negative. *)
Theorem type_error_iff_no_attempt (H : Host) (s : Settings) (rnd : bool)
    (artboards : list (Z * Z * Z * Z)) (n : nat) :
  let run := packItemsIllustrator H s rnd artboards n in
  (outcome run = TypeError <-> made run = [])
  /\ (made run = [] <-> budget (maxAttemptCount H s rnd n) = O).
Proof.
  cbn zeta.
  destruct (packItems_run H s rnd artboards n) as (_ & Hout & Hle & Hpos & _).
  cbn zeta in Hout, Hle, Hpos.
  set (run := packItemsIllustrator H s rnd artboards n) in *.
  split.
  - rewrite Hout. split.
    + destruct (best_of (made run)) eqn:Eb; [discriminate |]. intros _.
      apply best_of_None, Eb.
    + intros ->. reflexivity.
  - split.
    + intros E. rewrite E in Hpos. cbn in Hpos.
      destruct (budget (maxAttemptCount H s rnd n)); [reflexivity | lia].
    + intros E. rewrite E in Hle. apply length_zero_iff_nil. lia.
Qed.

(** X15. The order in which a run tries the sorting methods: the attempt
    at position [k] has index [k], and unless [doNotSort] is set it is
    labelled area, largest dimension, width, height, interleaving for
    [k = 0 .. 4] and random shuffle from [k = 5] on, or random shuffle at
    once in a random attempt; with [doNotSort] it has no label.  A random
    attempt is the only attempt of its run. *)
Theorem sort_schedule (H : Host) (s : Settings) (rnd : bool)
    (artboards : list (Z * Z * Z * Z)) (n : nat) :
  let run := packItemsIllustrator H s rnd artboards n in
  (forall k attempt, made run !! k = Some attempt ->
     Attempt.index attempt = k
     /\ Attempt.sortType attempt
        = if s_doNotSort s then None else Some (sort_label rnd k))
  /\ (rnd = true -> length (made run) = 1%nat).
Proof.
  cbn zeta.
  destruct (packItems_run H s rnd artboards n) as (Hall & _ & Hle & Hpos & _).
  cbn zeta in Hall, Hle, Hpos.
  split.
  - intros k attempt Hk. rewrite (Hall _ _ Hk).
    split; [apply run_attempt_index | apply run_attempt_sortType].
  - intros ->. cbn in Hle, Hpos. specialize (Hpos ltac:(lia)). lia.
Qed.

(** X16. When no attempt budget is given ([maxAttemptCount] undefined or
    0) a run makes at most 200 attempts. *)
Theorem at_most_200_attempts (H : Host) (s : Settings) (rnd : bool)
    (artboards : list (Z * Z * Z * Z)) (n : nat) :
  s_maxAttemptCount s = None \/ s_maxAttemptCount s = Some 0 ->
  (length (made (packItemsIllustrator H s rnd artboards n)) <= 200)%nat.
Proof.
  intros Hmax.
  destruct (packItems_run H s rnd artboards n) as (_ & _ & Hle & _). cbn zeta in Hle.
  eapply Nat.le_trans; [exact Hle |].
  assert (forall c, c = getMaxAttemptCount H n -> (budget c <= 200)%nat) as Hg.
  { intros c ->. unfold getMaxAttemptCount. destruct n; cbn [budget]; lia. }
  unfold maxAttemptCount. destruct rnd; [cbn; lia |].
  destruct Hmax as [-> | ->]; cbn; apply Hg; reflexivity.
Qed.

Lemma at_most_200_attempts_witness :
  let s := test_settings false None None true false in
  (s_maxAttemptCount s = None \/ s_maxAttemptCount s = Some 0)
  /\ (length (made (packItemsIllustrator (test_host two_sizes) s false one_artboard 2))
      <= 200)%nat.
Proof.
  cbn zeta.
  assert (s_maxAttemptCount (test_settings false None None true false) = None
          \/ s_maxAttemptCount (test_settings false None None true false) = Some 0) as Hm
    by (left; reflexivity).
  split; [exact Hm |].
  apply (at_most_200_attempts (test_host two_sizes)
           (test_settings false None None true false) false one_artboard 2 Hm).
Defined.

(** * Further properties: sorting *)

(** X17. [sortBlocks] only reorders, the host's sort only reordering: the
    [remainingBlocks] of the attempt are the same blocks in some order, and
    of the other fields only [sortType] is assigned. *)
Theorem sortBlocks_reorders (H : Host) (attempt : Attempt.t) (t : SortType) :
  host_ok H ->
  let attempt' := sortBlocks H attempt t in
  Attempt.remainingBlocks attempt' ≡ₚ Attempt.remainingBlocks attempt
  /\ Attempt.packedBlocks attempt' = Attempt.packedBlocks attempt
  /\ Attempt.area attempt' = Attempt.area attempt
  /\ Attempt.bins attempt' = Attempt.bins attempt
  /\ Attempt.binCount attempt' = Attempt.binCount attempt
  /\ Attempt.count attempt' = Attempt.count attempt
  /\ Attempt.index attempt' = Attempt.index attempt
  /\ Attempt.info attempt' = Attempt.info attempt
  /\ Attempt.score attempt' = Attempt.score attempt.
Proof.
  intros Hok. cbn zeta. split; [apply sortBlocks_perm, Hok |].
  unfold sortBlocks. destruct t as [[| [| [| [| [| m]]]]] |]; cbn; repeat split.
Qed.

Lemma sortBlocks_reorders_witness :
  let attempt := set_remainingBlocks wide_pair (Attempt_new 4 []) in
  host_ok (test_host wide_sizes)
  /\ Attempt.remainingBlocks (sortBlocks (test_host wide_sizes) attempt (SortIndex 4))
     ≡ₚ Attempt.remainingBlocks attempt.
Proof.
  cbn zeta. split; [apply test_host_ok |].
  apply (sortBlocks_reorders (test_host wide_sizes)
           (set_remainingBlocks wide_pair (Attempt_new 4 [])) (SortIndex 4)
           (test_host_ok wide_sizes)).
Defined.

(** X18. [shuffle] returns the things it was given, in some order, whatever
    the random draws are. *)
Theorem shuffle_is_permutation (H : Host) (a : nat) (things : list Block) :
  shuffle H a things ≡ₚ things.
Proof. unfold shuffle. apply shuffle_loop_perm. Qed.

(** X19. [sortBlocksByInterleaving] alternates the two halves of the blocks
    sorted by area: with [half = ceil (n / 2)], the result has at position
    [2 k] the block at position [k] of the first [half] sorted blocks, and at
    position [2 k + 1] the sorted block at position [half + k]. *)
Theorem interleaving_positions (H : Host) (blocks : list Block) (k : nat) :
  let sorted := array_sort H byArea blocks in
  let half := Nat.div2 (S (length sorted)) in
  sortBlocksByInterleaving H blocks !! (2 * k)%nat = take half sorted !! k
  /\ sortBlocksByInterleaving H blocks !! (2 * k + 1)%nat = sorted !! (half + k)%nat.
Proof.
  cbn zeta. unfold sortBlocksByInterleaving.
  set (sorted := array_sort H byArea blocks).
  set (half := Nat.div2 (S (length sorted))).
  rewrite <- (lookup_drop sorted half k).
  apply interleave_lookup.
  pose proof (div2_half (length sorted)) as Hh. fold half in Hh.
  rewrite length_take, length_drop. lia.
Qed.

(** * Further properties: rectangles and bounds *)

(** X20. [artboardRectToBinBounds] and [binBoundsToArtboardRect] undo each
    other. *)
Theorem artboard_rect_round_trip (r : Z * Z * Z * Z) :
  binBoundsToArtboardRect (artboardRectToBinBounds r) = r
  /\ artboardRectToBinBounds (binBoundsToArtboardRect r) = r.
Proof.
  destruct r as [[[a b] c] d].
  unfold binBoundsToArtboardRect, artboardRectToBinBounds. cbn.
  rewrite !Z.opp_involutive. split; reflexivity.
Qed.

(** X21. [combineBounds] returns [undefined] exactly for an empty array;
    otherwise it returns the least bounds that enclose every bounds of the
    array, in the layout of the application. *)
Theorem combineBounds_least (a : App) (boundsArray : list (Z * Z * Z * Z)) :
  (combineBounds a boundsArray = None <-> boundsArray = [])
  /\ (forall c, combineBounds a boundsArray = Some c ->
        (forall b, b ∈ boundsArray -> encloses a c b)
        /\ (forall e, (forall b, b ∈ boundsArray -> encloses a e b) -> encloses a e c)).
Proof.
  split.
  - destruct boundsArray; cbn; split; intros E; try reflexivity; discriminate.
  - intros c Hc. destruct boundsArray as [| first rest]; [discriminate |].
    destruct (combine_loop a rest first c Hc) as (H1 & H2 & H3). split.
    + intros b Hb. apply elem_of_cons in Hb as [-> | Hb]; [exact H1 | apply H2, Hb].
    + intros e He. apply H3; [apply He; left | intros b Hb; apply He; right; exact Hb].
Qed.

(** X22. [boundsDoIntersect] does not depend on the order of the two
    bounds, in either layout; and bounds intersect themselves exactly when
    they are not inverted. *)
Theorem boundsDoIntersect_symmetric (a : App) (b c : Z * Z * Z * Z) (TLBR : option bool) :
  boundsDoIntersect a b c TLBR = boundsDoIntersect a c b TLBR
  /\ (boundsDoIntersect a b b None = true <-> upright a b).
Proof.
  split; [apply boundsDoIntersect_sym |].
  rewrite boundsDoIntersect_spec. destruct a; unfold upright; lia.
Qed.

(** X23. [intersectionOfBounds], the host's sort only reordering.  When it
    returns bounds, every bounds of the array encloses them and they enclose
    whatever every bounds of the array encloses.  On bounds that are not
    inverted it returns bounds exactly when the array is not empty and any
    two of its bounds intersect ([boundsDoIntersect]). *)
Theorem intersectionOfBounds_largest (a : App)
    (sort : (Z * Z * Z * Z -> Z * Z * Z * Z -> Z) -> list (Z * Z * Z * Z)
            -> list (Z * Z * Z * Z))
    (arrayOfBounds : list (Z * Z * Z * Z)) :
  (forall cmp l, sort cmp l ≡ₚ l) ->
  (forall r, intersectionOfBounds a sort arrayOfBounds = Some r ->
     (forall b, b ∈ arrayOfBounds -> encloses a b r)
     /\ (forall e, (forall b, b ∈ arrayOfBounds -> encloses a b e) -> encloses a r e))
  /\ (Forall (upright a) arrayOfBounds ->
      (is_Some (intersectionOfBounds a sort arrayOfBounds)
       <-> arrayOfBounds <> []
           /\ forall b c, b ∈ arrayOfBounds -> c ∈ arrayOfBounds ->
                boundsDoIntersect a b c None = true)).
Proof.
  intros Hsort. unfold intersectionOfBounds.
  pose proof (Hsort byFirstThenSecond arrayOfBounds) as Hperm.
  destruct (sort byFirstThenSecond arrayOfBounds) as [| i rest] eqn:Es.
  { apply Permutation_nil_l in Hperm. subst arrayOfBounds. split; [discriminate |].
    intros _. split; [intros [x Hx]; discriminate | intros [Hne _]; contradiction]. }
  assert (forall b, b ∈ arrayOfBounds <-> b = i \/ b ∈ rest) as Hmem.
  { intros b. rewrite <- Hperm. apply elem_of_cons. }
  split.
  - intros r Hr. destruct (intersection_loop_Some a rest i r Hr) as (H1 & H2 & H3). split.
    + intros b Hb. apply Hmem in Hb as [-> | Hb]; [exact H1 | apply H2, Hb].
    + intros e He. apply H3; [apply He, Hmem; left; reflexivity |].
      intros b Hb. apply He, Hmem. right. exact Hb.
  - intros Hup. rewrite <- Hperm in Hup. apply Forall_cons in Hup as [Hi Hup].
    rewrite (intersection_loop_is_Some a rest i Hup).
    assert (boundsDoIntersect a i i None = true) as Hii.
    { apply boundsDoIntersect_spec. destruct a; unfold upright in Hi; lia. }
    split.
    + intros [H1 H2]. split.
      { intros E. rewrite E in Hperm. apply Permutation_nil_r in Hperm. discriminate. }
      intros b c Hb Hc. apply Hmem in Hb as [-> | Hb]; apply Hmem in Hc as [-> | Hc].
      * exact Hii.
      * apply H1, Hc.
      * rewrite boundsDoIntersect_sym. apply H1, Hb.
      * apply H2; assumption.
    + intros [_ H]. split.
      * intros b Hb. apply H; apply Hmem; [left; reflexivity | right; exact Hb].
      * intros b c Hb Hc. apply H; apply Hmem; right; assumption.
Qed.

Lemma intersectionOfBounds_largest_witness :
  (forall cmp (l : list (Z * Z * Z * Z)), sort_by cmp l ≡ₚ l)
  /\ intersectionOfBounds Indesign sort_by [(0, 0, 10, 10); (5, 5, 20, 20)]
     = Some (5, 5, 10, 10)
  /\ (forall b, b ∈ [(0, 0, 10, 10); (5, 5, 20, 20)] -> encloses Indesign b (5, 5, 10, 10)).
Proof.
  split; [intros cmp l; apply sort_by_perm |].
  split; [reflexivity |].
  destruct (intersectionOfBounds_largest Indesign sort_by [(0, 0, 10, 10); (5, 5, 20, 20)]
              (fun cmp l => sort_by_perm cmp l)) as [Hsome _].
  destruct (Hsome (5, 5, 10, 10) eq_refl) as [Hall _]. exact Hall.
Defined.

(** * Further properties: the bins of a page *)

(** X24. [divideBounds] with a margin that is not negative: it returns at
    least one bounds; every bounds it returns lies in the bounds it was
    given; and any two of them share no area. *)
Theorem divideBounds_pieces (sort : (Guide -> Guide -> Z) -> list Guide -> list Guide)
    (bounds : Z * Z * Z * Z) (gs : list Guide) (margin : option Z) :
  0 <= default 0 margin ->
  let l := divideBounds sort bounds gs margin in
  l <> [] /\ Forall (encloses Indesign bounds) l /\ all_apart l.
Proof. apply divideBounds_ok. Qed.

Lemma divideBounds_pieces_witness :
  let l := divideBounds sort_by (0, 0, 100, 100)
             [mkGuide VERTICAL 30; mkGuide HORIZONTAL 50] (Some 2) in
  0 <= default 0 (Some 2)
  /\ l = [(0, 0, 48, 28); (0, 32, 48, 100); (52, 0, 100, 28); (52, 32, 100, 100)]
  /\ l <> [] /\ Forall (encloses Indesign (0, 0, 100, 100)) l /\ all_apart l.
Proof.
  cbn zeta.
  assert (0 <= default 0 (Some 2)) as Hm by (cbn; lia).
  split; [exact Hm |]. split; [reflexivity |].
  apply (divideBounds_pieces sort_by (0, 0, 100, 100)
           [mkGuide VERTICAL 30; mkGuide HORIZONTAL 50] (Some 2) Hm).
Defined.

(** X25. With no margin ([undefined] or [0]) [divideBounds] loses no
    area: the areas of the bounds it returns add up to the area of the
    bounds it was given, whatever the guides. *)
Theorem divideBounds_keeps_area (sort : (Guide -> Guide -> Z) -> list Guide -> list Guide)
    (bounds : Z * Z * Z * Z) (gs : list Guide) :
  total_tlbr_area (divideBounds sort bounds gs None) = tlbr_area bounds
  /\ total_tlbr_area (divideBounds sort bounds gs (Some 0)) = tlbr_area bounds.
Proof.
  assert (forall m, default 0 m = 0 ->
            total_tlbr_area (divideBounds sort bounds gs m) = tlbr_area bounds) as Hgen.
  { intros m Hm. unfold divideBounds. rewrite Hm, !divideByGuides_area.
    unfold total_tlbr_area. cbn. lia. }
  split; apply Hgen; reflexivity.
Qed.

(** * Further properties: [packItemsIndesign] *)

(** X26. The bins of [packItemsIndesign], with a guides margin that is not
    negative: every page gives at least one bin; every bin belongs to a page
    of the document and lies in that page less its margins; its [width] and
    [height] are those of its bounds plus the padding; and any two bins of
    the same page share no area. *)
Theorem indesign_bins (sort : (Guide -> Guide -> Z) -> list Guide -> list Guide)
    (s : IndesignSettings) (pages : list Page) :
  0 <= guidesMargin s ->
  let bins := make_bins_indesign sort s pages in
  (forall i page, pages !! i = Some page -> exists bin, (i, bin) ∈ bins)
  /\ Forall (fun pb =>
               exists page, pages !! pb.1 = Some page
                 /\ encloses Indesign (page_inner s page) (bin_bounds pb.2)
                 /\ width pb.2
                    = b4_3 (bin_bounds pb.2) - b4_1 (bin_bounds pb.2) + s_padding (packing s)
                 /\ height pb.2
                    = b4_2 (bin_bounds pb.2) - b4_0 (bin_bounds pb.2) + s_padding (packing s))
            bins
  /\ (forall i, all_apart ((fun pb => bin_bounds pb.2) <$> filter (fun pb => pb.1 = i) bins)).
Proof.
  intros Hm bins. split; [| split].
  - intros i page Hi.
    destruct (page_bins_ok sort s i page Hm) as (Hne & Hall & _). cbn zeta in Hne, Hall.
    destruct (page_bins sort s i page) as [| [j bin] l] eqn:E; [contradiction |].
    apply Forall_cons in Hall as [(Ej & _) _]. cbn in Ej. subst j.
    exists bin. apply make_bins_indesign_elem. exists i, page.
    split; [exact Hi |]. rewrite E. left.
  - apply Forall_forall. intros pb Hpb.
    apply make_bins_indesign_elem in Hpb as (i & page & Hi & Hpb).
    destruct (page_bins_ok sort s i page Hm) as (_ & Hall & _). cbn zeta in Hall.
    rewrite Forall_forall in Hall. destruct (Hall pb Hpb) as (E1 & E2 & E3 & E4).
    exists page. rewrite E1. split; [exact Hi |]. split; [exact E2 |]. split; assumption.
  - intros i. unfold bins, make_bins_indesign.
    (* the bins of page [i] are the bins with page index [i] *)
    assert (forall (k : nat) (ps : list Page),
              filter (fun pb : nat * Bin => pb.1 = i)
                     (mjoin (imap (fun j => page_bins sort s (k + j)) ps))
              = match ps !! (i - k)%nat with
                | Some page => if decide (k <= i)%nat then page_bins sort s i page else []
                | None => []
                end) as Hfilter.
    { intros k ps. revert k. induction ps as [| page ps IH]; intros k.
      { cbn. rewrite lookup_nil. reflexivity. }
      rewrite imap_cons.
      match goal with
      | |- context [mjoin (?x :: ?l)] => change (mjoin (x :: l)) with (x ++ mjoin l)
      end.
      rewrite filter_app.
      rewrite (imap_ext _ (fun j => page_bins sort s (S k + j)) ps)
        by (intros j x _; cbn; f_equal; lia).
      rewrite (IH (S k)).
      destruct (page_bins_ok sort s (k + 0) page Hm) as (_ & Hall & _). cbn zeta in Hall.
      destruct (decide (i = k)) as [-> | Hne].
      - replace (k - k)%nat with O by lia. cbn [lookup list_lookup].
        replace (k - S k)%nat with O by lia.
        destruct (decide (k <= k)%nat); [| lia].
        replace (k + 0)%nat with k in * by lia.
        assert (filter (fun pb : nat * Bin => pb.1 = k) (page_bins sort s k page)
                = page_bins sort s k page) as ->.
        { clear -Hall. induction Hall as [| pb l (E & _) _ IHl]; [reflexivity |].
          rewrite filter_cons. destruct (decide (pb.1 = k)); [| contradiction].
          f_equal. exact IHl. }
        destruct (ps !! 0%nat); [destruct (decide (S k <= k)%nat); [lia |] |];
          apply app_nil_r.
      - assert (filter (fun pb : nat * Bin => pb.1 = i) (page_bins sort s (k + 0) page) = [])
          as ->.
        { clear -Hall Hne. induction Hall as [| pb l (E & _) _ IHl]; [reflexivity |].
          rewrite filter_cons. destruct (decide (pb.1 = i)); [lia | exact IHl]. }
        cbn [app].
        destruct (decide (k <= i)%nat) as [Hle | Hgt].
        + replace (i - k)%nat with (S (i - S k)) by lia. cbn [lookup list_lookup].
          destruct (ps !! (i - S k)%nat); [| reflexivity].
          destruct (decide (S k <= i)%nat); [reflexivity | lia].
        + replace (i - k)%nat with O by lia. replace (i - S k)%nat with O by lia.
          cbn [lookup list_lookup].
          destruct (ps !! 0%nat); [| reflexivity].
          destruct (decide (S k <= i)%nat); [lia | reflexivity]. }
    specialize (Hfilter O pages). cbn [Nat.add] in Hfilter.
    rewrite (imap_ext _ (page_bins sort s) pages) in Hfilter by (intros; reflexivity).
    rewrite Hfilter. replace (i - 0)%nat with i by lia.
    destruct (pages !! i) as [page |]; [| apply all_apart_nil].
    destruct (decide (0 <= i)%nat); [| apply all_apart_nil].
    apply (page_bins_ok sort s i page Hm).
Qed.

Lemma indesign_bins_witness :
  let bins := make_bins_indesign sort_by page_settings one_page in
  0 <= guidesMargin page_settings
  /\ (fun pb => (pb.1, bin_bounds pb.2, width pb.2, height pb.2)) <$> bins
     = [(0%nat, (0, 0, 50, 100), 100, 50); (0%nat, (50, 0, 100, 100), 100, 50)]
  /\ (forall i, all_apart ((fun pb => bin_bounds pb.2) <$> filter (fun pb => pb.1 = i) bins)).
Proof.
  cbn zeta.
  assert (0 <= guidesMargin page_settings) as Hm by (cbn; lia).
  split; [exact Hm |]. split; [reflexivity |].
  apply (indesign_bins sort_by page_settings one_page Hm).
Defined.

(** X27. [packItemsIndesign] runs the attempts of the packing on the bins
    of the pages, the host's sort only reordering.  In every attempt of a
    run, the packed and the remaining blocks together account for each item
    exactly once (their [index] fields are the item indices, each once), so
    they are as many as the items; every packed block is marked packed and
    carries the index of one of the bins the attempt processed, which are
    the first [binCount] bins; no remaining block is marked packed.  The run
    ends on an attempt it made that none of its attempts beats, or with a
    [TypeError] when it made none. *)
Theorem indesign_run_invariants (H : Host)
    (sort : (Guide -> Guide -> Z) -> list Guide -> list Guide)
    (s : IndesignSettings) (rnd : bool) (pages : list Page) (n : nat) :
  host_ok H ->
  let bins := snd <$> make_bins_indesign sort s pages in
  let run := packItemsIndesign H sort s rnd pages n in
  Forall (fun attempt =>
            index <$> (Attempt.packedBlocks attempt ++ Attempt.remainingBlocks attempt)
            ≡ₚ seq 0 n
            /\ (length (Attempt.packedBlocks attempt)
                + length (Attempt.remainingBlocks attempt))%nat = n
            /\ (Attempt.binCount attempt <= length bins)%nat
            /\ Forall (fun b => packed b = true
                                /\ exists j, (j < Attempt.binCount attempt)%nat
                                             /\ binIndex b = Some j)
                      (Attempt.packedBlocks attempt)
            /\ Forall (fun b => packed b = false) (Attempt.remainingBlocks attempt))
         (made run)
  /\ match outcome run with
     | TypeError => made run = []
     | Done best packedCount remainingCount =>
         best ∈ made run
         /\ packedCount = length (Attempt.packedBlocks best)
         /\ remainingCount = Z.of_nat (length (Attempt.remainingBlocks best))
         /\ forall attempt, attempt ∈ made run ->
              num_gtb (Attempt.score attempt) (Attempt.score best) = false
     end.
Proof.
  intros Hok bins run.
  destruct (packItemsIndesign_run H sort s rnd pages n) as (Hall & Hout & _).
  cbn zeta in Hall, Hout. fold bins run in Hall, Hout.
  assert (Forall (fun attempt =>
                    (length (Attempt.packedBlocks attempt)
                     + length (Attempt.remainingBlocks attempt))%nat = n) (made run)) as Hlen.
  { apply Forall_lookup. intros k attempt Hk. rewrite (Hall _ _ Hk).
    apply run_attempt_lengths, Hok. }
  split.
  - apply Forall_lookup. intros k attempt Hk.
    pose proof (proj1 (Forall_lookup _ _) Hlen k attempt Hk) as Hn. cbn beta in Hn.
    rewrite (Hall _ _ Hk) in Hn |- *.
    set (tia := total_area H (packing s) n) in *.
    destruct (run_attempt_inv H (packing s) rnd bins n tia k Hok)
      as (Hle & Hpk & Hrm & _ & _ & Hperm & _).
    set (attempt' := run_attempt H (packing s) rnd bins n tia k) in *.
    assert (length (take (Attempt.binCount attempt') bins) = Attempt.binCount attempt') as Hlt
      by (apply length_take_le; exact Hle).
    rewrite Hlt in Hpk.
    split; [rewrite Hperm; rewrite make_blocks_index; reflexivity |].
    split; [exact Hn |]. split; [exact Hle |]. split; [| exact Hrm].
    eapply Forall_impl; [exact Hpk |]. intros b (H1 & _ & H3). split; assumption.
  - rewrite Hout. destruct (best_of (made run)) as [best |] eqn:Eb.
    + pose proof (best_of_elem _ _ Eb) as Hin.
      split; [exact Hin |]. split; [reflexivity |]. split; [| apply best_of_max, Eb].
      rewrite Forall_forall in Hlen. specialize (Hlen best Hin). cbn beta in Hlen. lia.
    + apply best_of_None, Eb.
Qed.

Lemma indesign_run_invariants_witness :
  let H := indesign_host small_sizes in
  let bins := snd <$> make_bins_indesign sort_by page_settings one_page in
  let run := packItemsIndesign H sort_by page_settings false one_page 2 in
  host_ok H
  /\ Forall (fun attempt =>
               index <$> (Attempt.packedBlocks attempt ++ Attempt.remainingBlocks attempt)
               ≡ₚ seq 0 2
               /\ (length (Attempt.packedBlocks attempt)
                   + length (Attempt.remainingBlocks attempt))%nat = 2%nat
               /\ (Attempt.binCount attempt <= length bins)%nat
               /\ Forall (fun b => packed b = true
                                   /\ exists j, (j < Attempt.binCount attempt)%nat
                                                /\ binIndex b = Some j)
                         (Attempt.packedBlocks attempt)
               /\ Forall (fun b => packed b = false) (Attempt.remainingBlocks attempt))
            (made run).
Proof.
  cbn zeta. split; [apply indesign_host_ok |].
  destruct (indesign_run_invariants (indesign_host small_sizes) sort_by page_settings false
              one_page 2 (indesign_host_ok small_sizes)) as [Hmade _].
  exact Hmade.
Defined.

(** * Further properties: the score *)

(** X29. The division by the area packed in a bin.  In a run on at least
    one item, with items and bins of positive width and height and the
    host's sort only reordering: an attempt that processed a bin in which it
    packed nothing has the score [+Infinity], whatever it packed elsewhere
    and however many blocks remain; every other attempt has a score that is
    a number. *)
Theorem empty_bin_scores_infinity (H : Host) (s : Settings) (rnd : bool)
    (artboards : list (Z * Z * Z * Z)) (n : nat) :
  host_ok H -> (0 < n)%nat ->
  (forall a, Forall (fun b => 0 < w b /\ 0 < h b) (make_blocks H s a n)) ->
  Forall (fun bin => 0 < width bin /\ 0 < height bin)
         (make_bins (s_margin s) (s_padding s) artboards) ->
  Forall (fun attempt =>
            (has_empty_bin attempt -> Attempt.score attempt = PosInf)
            /\ (~ has_empty_bin attempt -> exists q, Attempt.score attempt = Num q))
         (made (packItemsIllustrator H s rnd artboards n)).
Proof.
  intros Hok Hn Hpos Hbins.
  destruct (packItems_run H s rnd artboards n) as (Hall & _). cbn zeta in Hall.
  apply Forall_lookup. intros k attempt Hk. rewrite (Hall _ _ Hk).
  apply run_attempt_score_state; try assumption.
  - unfold total_area. fold (sum_area (make_blocks H s 0 n)).
    apply sum_area_pos; [apply Hpos |].
    intros E. pose proof (make_blocks_length H s 0 n) as Hl. rewrite E in Hl. cbn in Hl. lia.
  - apply make_blocks_sized, Hpos.
Qed.

Lemma empty_bin_scores_infinity_witness :
  let H := test_host large_sizes in
  let s := test_settings false None None false false in
  host_ok H /\ (0 < 1)%nat
  /\ (forall a, Forall (fun b => 0 < w b /\ 0 < h b) (make_blocks H s a 1))
  /\ Forall (fun bin => 0 < width bin /\ 0 < height bin)
            (make_bins (s_margin s) (s_padding s) one_artboard)
  /\ Attempt.score <$> made (packItemsIllustrator H s false one_artboard 1)
     = [PosInf; PosInf; PosInf; PosInf]
  /\ Forall (fun attempt =>
               (has_empty_bin attempt -> Attempt.score attempt = PosInf)
               /\ (~ has_empty_bin attempt -> exists q, Attempt.score attempt = Num q))
            (made (packItemsIllustrator H s false one_artboard 1)).
Proof.
  cbn zeta.
  assert (forall a, Forall (fun b => 0 < w b /\ 0 < h b)
                      (make_blocks (test_host large_sizes)
                                   (test_settings false None None false false) a 1)) as Hpos.
  { intros a. repeat constructor. }
  assert (Forall (fun bin => 0 < width bin /\ 0 < height bin)
                 (make_bins (s_margin (test_settings false None None false false))
                            (s_padding (test_settings false None None false false))
                            one_artboard)) as Hbins.
  { repeat constructor. }
  split; [apply test_host_ok |]. split; [lia |]. split; [exact Hpos |].
  split; [exact Hbins |]. split; [vm_compute; reflexivity |].
  apply (empty_bin_scores_infinity (test_host large_sizes)
           (test_settings false None None false false) false one_artboard 1
           (test_host_ok large_sizes) ltac:(lia) Hpos Hbins).
Defined.

(** X30. An attempt gives up on a block only after trying every bin: if an
    attempt of a run leaves blocks in [remainingBlocks], it has processed
    all the bins, one per artboard. *)
Theorem remaining_after_all_bins (H : Host) (s : Settings) (rnd : bool)
    (artboards : list (Z * Z * Z * Z)) (n : nat) :
  Forall (fun attempt =>
            Attempt.remainingBlocks attempt <> [] ->
            Attempt.binCount attempt = length artboards)
         (made (packItemsIllustrator H s rnd artboards n)).
Proof.
  destruct (packItems_run H s rnd artboards n) as (Hall & _). cbn zeta in Hall.
  apply Forall_lookup. intros k attempt Hk. rewrite (Hall _ _ Hk).
  set (bins := make_bins (s_margin s) (s_padding s) artboards).
  assert (length bins = length artboards) as Hlb
    by (unfold bins, make_bins; apply length_fmap).
  unfold run_attempt. cbn [set_score Attempt.remainingBlocks Attempt.binCount].
  intros Hr. rewrite <- Hlb.
  destruct bins as [| bin bins'] eqn:Eb.
  - cbn [bins_loop]. apply attempt_sorted_frame.
  - rewrite (bins_loop_all_tried s n (total_area H s n) (bin :: bins') 0 _ ltac:(discriminate) Hr).
    reflexivity.
Qed.

